(** * Shortest paths of rschio/graph (path.go)

    A shallow embedding of [path.go]: the relaxation callback
    [pathFinder.Do], the two search loops ([ShortestPaths] and
    [shortestPathWithQueue]) and the path reconstruction of
    [ShortestPathWithQueue], together with the properties of the
    specification that concern them and with further properties of the
    same functions (the last part of the file).

    Conventions.
    - Go's [int] and [int64] values are integers in [Z]; the only
      arithmetic on distances, [alt := p.dist[p.v] + d], is an [int64]
      addition and wraps around ([wrap64]).  Vertices and positions in a
      slice stay below the length of a slice.
    - A slice is a [list Z]; indexing out of range panics ([Panic]).
    - The slice [dist] is shared between the [pathFinder] and the queue
      ([SetDist] hands it over, "it should not be copied"): the model keeps
      one copy, in the [pathFinder], and every queue operation receives it
      and returns it.
    - Loops that Go does not bound are run with fuel ([OutOfFuel]). *)

From Stdlib Require Import ZArith List Lia Bool Permutation Sorted FinFun.
Import ListNotations.
Local Open Scope Z_scope.

(* ------------------------------------------------------------------ *)
(** ** Outcomes: normal return, run-time panic, fuel exhausted *)

Inductive outcome (A : Type) : Type :=
| Done (a : A)
| Panic
| OutOfFuel.

Arguments Done {A} a.
Arguments Panic {A}.
Arguments OutOfFuel {A}.

Definition bind {A B : Type} (m : outcome A) (k : A -> outcome B) : outcome B :=
  match m with
  | Done a => k a
  | Panic => Panic
  | OutOfFuel => OutOfFuel
  end.

Notation "x <- m ;; k" := (bind m (fun x => k))
  (at level 61, m at next level, right associativity).
Notation "' p <- m ;; k" := (bind m (fun x => let 'p := x in k))
  (at level 61, p pattern, m at next level, right associativity).

(* ------------------------------------------------------------------ *)
(** ** Machine integers and slices *)

Definition min_int64 : Z := - 2 ^ 63.
Definition max_int64 : Z := 2 ^ 63 - 1.

(** Two's complement wrap-around of an [int64] result. *)
Definition wrap64 (z : Z) : Z := (z + 2 ^ 63) mod 2 ^ 64 - 2 ^ 63.

Definition len (l : list Z) : Z := Z.of_nat (length l).

Definition in_bounds (l : list Z) (i : Z) : bool := (0 <=? i) && (i <? len l).

(** [sel l i] is the value read by [l[i]] when [i] is in range. *)
Definition sel (l : list Z) (i : Z) : Z := nth (Z.to_nat i) l 0.

Fixpoint set_nth (l : list Z) (k : nat) (x : Z) : list Z :=
  match l, k with
  | [], _ => []
  | _ :: r, O => x :: r
  | y :: r, S k' => y :: set_nth r k' x
  end.

Definition upd (l : list Z) (i x : Z) : list Z := set_nth l (Z.to_nat i) x.

(** [l[i]] as an expression: panics when [i] is out of range. *)
Definition index (l : list Z) (i : Z) : outcome Z :=
  if in_bounds l i then Done (sel l i) else Panic.

(** [l[i] = x] as a statement: panics when [i] is out of range. *)
Definition store (l : list Z) (i x : Z) : outcome (list Z) :=
  if in_bounds l i then Done (upd l i x) else Panic.

(** [make([]T, n)] followed by the loop that fills it with [x]. *)
Definition make_filled (n x : Z) : outcome (list Z) :=
  if n <? 0 then Panic else Done (repeat x (Z.to_nat n)).

(* ------------------------------------------------------------------ *)
(** ** The graph: interface [Iterator] *)

(** Modelled from the spec: the interface [Iterator] is declared outside
    [path.go], which calls its two methods; section 6 of the specification
    gives their contract.  [Order()] is the number of vertices;
    [Visit(v, do)] calls [do(w, c)] once for each edge [(v, w)] of cost
    [c], and stops when [do] returns [true].  The model records, per
    vertex, the edges in the order in which [Visit] presents them. *)
Record Iterator : Type := {
  Order : Z;
  Edges : Z -> list (Z * Z)
}.

Fixpoint visit_edges {S : Type} (es : list (Z * Z))
    (do : S -> Z -> Z -> outcome (S * bool)) (s : S) : outcome S :=
  match es with
  | [] => Done s
  | (w, c) :: r =>
      ' (s', skip) <- do s w c ;;
      if (skip : bool) then Done s' else visit_edges r do s'
  end.

Definition Visit {S : Type} (g : Iterator) (v : Z)
    (do : S -> Z -> Z -> outcome (S * bool)) (s : S) : outcome S :=
  visit_edges (Edges g v) do s.

(** A graph given by adjacency lists, for concrete runs. *)
Definition graph_of (adj : list (list (Z * Z))) : Iterator :=
  {| Order := Z.of_nat (length adj);
     Edges := fun v => if v <? 0 then [] else nth (Z.to_nat v) adj [] |}.

(* ------------------------------------------------------------------ *)
(** ** Interface [DistQueue] (path.go, lines 43-60)

    Each operation takes the shared [dist] slice and, when it may write to
    it, returns it. *)

Class DistQueue (Q : Type) : Type := {
  SetDist : Q -> list Z -> Q;
  Push : Q -> list Z -> Z -> Z -> outcome (Q * list Z);
  Fix : Q -> list Z -> Z -> Z -> outcome (Q * list Z);
  Pop : Q -> list Z -> outcome (Z * Q);
  Len : Q -> Z
}.

(** The zero value [&dijkstraQueue{}] of a queue type. *)
Class ZeroQueue (Q : Type) : Type := zeroQueue : Q.

(* ------------------------------------------------------------------ *)
(** ** [pathFinder] and its method [Do] (lines 99-120) *)

Record pathFinder (Q : Type) : Type := {
  dist : list Z;
  parent : list Z;
  q : Q;
  v : Z
}.

Arguments dist {Q} p.
Arguments parent {Q} p.
Arguments q {Q} p.
Arguments v {Q} p.

(** What the run did, newest event first while the loop runs.  The log is
    ghost state: the code does not keep it, and the results do not depend
    on it.  Each event carries the contents of [dist] after it. *)
Inductive event : Type :=
| EvPop (u : Z) (d : list Z)
| EvRelax (u w c : Z) (d : list Z).

Definition snapshot (e : event) : list Z :=
  match e with EvPop _ d => d | EvRelax _ _ _ d => d end.

Fixpoint pops (log : list event) : list Z :=
  match log with
  | [] => []
  | EvPop u _ :: r => u :: pops r
  | EvRelax _ _ _ _ :: r => pops r
  end.

Section Search.

Context {Q : Type} {DQ : DistQueue Q}.

Definition Do (p : pathFinder Q) (w d : Z) : outcome (pathFinder Q * bool) :=
  if d <? 0 then Done (p, false)
  else
    dv <- index (dist p) (v p) ;;
    let alt := wrap64 (dv + d) in
    dw <- index (dist p) w ;;
    if dw =? -1 then
      parent' <- store (parent p) w (v p) ;;
      ' (q', dist') <- Push (q p) (dist p) w alt ;;
      Done ({| dist := dist'; parent := parent'; q := q'; v := v p |}, false)
    else if alt <? dw then
      parent' <- store (parent p) w (v p) ;;
      ' (q', dist') <- Fix (q p) (dist p) w alt ;;
      Done ({| dist := dist'; parent := parent'; q := q'; v := v p |}, false)
    else Done (p, false).

(** [Do] with the ghost log. *)
Definition logDo (s : pathFinder Q * list event) (w d : Z)
    : outcome ((pathFinder Q * list event) * bool) :=
  ' (p', skip) <- Do (fst s) w d ;;
  Done ((p', EvRelax (v (fst s)) w d (dist p') :: snd s), skip).

(** Lines 24-33 and 78-86: the slices, the queue and the [pathFinder]. *)
Definition setup (g : Iterator) (q0 : Q) (v0 : Z) : outcome (pathFinder Q) :=
  let n := Order g in
  dist0 <- make_filled n (-1) ;;
  parent0 <- make_filled n (-1) ;;
  let q1 := SetDist q0 dist0 in
  ' (q2, dist1) <- Push q1 dist0 v0 0 ;;
  Done {| dist := dist1; parent := parent0; q := q2; v := 0 |}.

(** The loop of lines 35-39 ([target = None]) and of lines 88-95
    ([target = Some w]): the two differ by the early return only. *)
Fixpoint mainLoop (fuel : nat) (g : Iterator) (target : option Z)
    (p : pathFinder Q) (log : list event) : outcome (pathFinder Q * list event) :=
  if Len (q p) >? 0 then
    match fuel with
    | O => OutOfFuel
    | S fuel' =>
        ' (u, q') <- Pop (q p) (dist p) ;;
        let log' := EvPop u (dist p) :: log in
        let stopped := {| dist := dist p; parent := parent p; q := q'; v := v p |} in
        if match target with Some w => u =? w | None => false end
        then Done (stopped, log')
        else
          let p' := {| dist := dist p; parent := parent p; q := q'; v := u |} in
          ' (p'', log'') <- Visit g u logDo (p', log') ;;
          mainLoop fuel' g target p'' log''
    end
  else Done (p, log).

(** The body shared by [ShortestPaths] and [shortestPathWithQueue], with
    the ghost log (newest event first). *)
Definition search (fuel : nat) (g : Iterator) (q0 : Q) (target : option Z) (v0 : Z)
    : outcome (pathFinder Q * list event) :=
  p <- setup g q0 v0 ;;
  mainLoop fuel g target p [].

(** [shortestPathWithQueue] (lines 77-97). *)
Definition shortestPathWithQueue (fuel : nat) (g : Iterator) (q0 : Q) (v0 w : Z)
    : outcome (list Z * list Z) :=
  ' (p, _) <- search fuel g q0 (Some w) v0 ;;
  Done (parent p, dist p).

(** The loop of lines 68-70: [for v := w; v != -1; v = parent[v]]. *)
Fixpoint followParents (fuel : nat) (parent : list Z) (v : Z) (path : list Z)
    : outcome (list Z) :=
  if v =? -1 then Done path
  else
    match fuel with
    | O => OutOfFuel
    | S fuel' =>
        let path' := path ++ [v] in
        v' <- index parent v ;;
        followParents fuel' parent v' path'
    end.

(** The loop of lines 71-73, which reverses [path] in place. *)
Fixpoint swapLoop (fuel : nat) (path : list Z) (i j : Z) : outcome (list Z) :=
  if i <? j then
    match fuel with
    | O => OutOfFuel
    | S fuel' =>
        a <- index path i ;;
        b <- index path j ;;
        path1 <- store path i b ;;
        path2 <- store path1 j a ;;
        swapLoop fuel' path2 (i + 1) (j - 1)
    end
  else Done path.

(** [ShortestPathWithQueue] (lines 62-75). *)
Definition ShortestPathWithQueue (fuel : nat) (g : Iterator) (q0 : Q) (v0 w : Z)
    : outcome (list Z * Z) :=
  ' (parent, distances) <- shortestPathWithQueue fuel g q0 v0 w ;;
  d <- index distances w ;;
  if d =? -1 then Done ([], d)
  else
    path <- followParents fuel parent w [] ;;
    path' <- swapLoop fuel path 0 (len path - 1) ;;
    Done (path', d).

End Search.

Section Dijkstra.

Context {dijkstraQueue : Type} {DQ : DistQueue dijkstraQueue}
        {ZQ : ZeroQueue dijkstraQueue}.

(** [ShortestPaths] with its ghost log, oldest event first. *)
Definition ShortestPaths_log (fuel : nat) (g : Iterator) (v0 : Z)
    : outcome (list Z * list Z * list event) :=
  ' (p, log) <- search fuel g (zeroQueue : dijkstraQueue) None v0 ;;
  Done (parent p, dist p, rev log).

(** [ShortestPaths] (lines 23-41). *)
Definition ShortestPaths (fuel : nat) (g : Iterator) (v0 : Z)
    : outcome (list Z * list Z) :=
  ' (r, _) <- ShortestPaths_log fuel g v0 ;;
  Done r.

(** [ShortestPath] (lines 9-12). *)
Definition ShortestPath (fuel : nat) (g : Iterator) (v0 w : Z)
    : outcome (list Z * Z) :=
  ShortestPathWithQueue fuel g (zeroQueue : dijkstraQueue) v0 w.

End Dijkstra.

(* ------------------------------------------------------------------ *)
(** ** Queues for concrete runs *)

(** Modelled from the spec: the repository's [dijkstraQueue] (a binary
    heap, section 4.1 of the specification) is not part of [path.go].
    [scanQueue] is another strategy for the same contract, which section
    4.1 allows: it keeps the pushed vertices in a slice and pops one of
    least [dist] by a linear scan. *)
Record scanQueue : Type := { items : list Z }.

(** A vertex of least [dist] among [best :: l], the first one on a tie. *)
Fixpoint argmin (d : list Z) (best : Z) (l : list Z) : Z :=
  match l with
  | [] => best
  | x :: r => if sel d x <? sel d best then argmin d x r else argmin d best r
  end.

(** [l] without the first occurrence of [x]. *)
Fixpoint remove1 (x : Z) (l : list Z) : list Z :=
  match l with
  | [] => []
  | y :: r => if y =? x then r else y :: remove1 x r
  end.

#[export] Instance scanQueue_DistQueue : DistQueue scanQueue := {|
  SetDist := fun s _ => s;
  Push := fun s d u c =>
    d' <- store d u c ;; Done ({| items := items s ++ [u] |}, d');
  Fix := fun s d u c =>
    d' <- store d u c ;; Done (s, d');
  Pop := fun s d =>
    match items s with
    | [] => Panic
    | x :: r => let m := argmin d x r in Done (m, {| items := remove1 m (items s) |})
    end;
  Len := fun s => len (items s)
|}.

#[export] Instance scanQueue_Zero : ZeroQueue scanQueue := {| items := [] |}.

(** [strictQueue] is [scanQueue] with the contract of a [DistQueue]
    checked: it panics when a vertex is pushed twice, when a vertex that is
    not in the queue is fixed, when a cost is raised, and when two vertices
    tie for the least cost.  A run with [strictQueue] that does not panic
    asks of the queue only what the contract settles, so every queue that
    satisfies the contract returns the same slices and the same log. *)
Record strictQueue : Type := { sitems : list Z }.

Definition mem (u : Z) (l : list Z) : bool := existsb (Z.eqb u) l.

(** No other vertex of [l] has the cost of [m] or less. *)
Definition least_alone (d : list Z) (m : Z) (l : list Z) : bool :=
  forallb (fun y => (y =? m) || (sel d m <? sel d y)) l.

#[export] Instance strictQueue_DistQueue : DistQueue strictQueue := {|
  SetDist := fun s _ => s;
  Push := fun s d u c =>
    if in_bounds d u && negb (mem u (sitems s))
    then Done ({| sitems := sitems s ++ [u] |}, upd d u c) else Panic;
  Fix := fun s d u c =>
    if in_bounds d u && mem u (sitems s) && (c <=? sel d u)
    then Done (s, upd d u c) else Panic;
  Pop := fun s d =>
    match sitems s with
    | [] => Panic
    | x :: r =>
        let m := argmin d x r in
        if least_alone d m (sitems s)
        then Done (m, {| sitems := remove1 m (sitems s) |}) else Panic
    end;
  Len := fun s => len (sitems s)
|}.

#[export] Instance strictQueue_Zero : ZeroQueue strictQueue := {| sitems := [] |}.

(* ------------------------------------------------------------------ *)
(** ** Graphs for concrete runs *)

(** The graph of scenarios 1 to 3 and 5 of the specification, with the
    vertex 4 of scenario 2. *)
Definition scenario1 : Iterator :=
  graph_of [ [(1, 4); (2, 1)]; [(3, 1)]; [(1, 1)]; []; [] ].

(** Scenario 4 of the specification: an edge of cost [-1] from 0 to 3. *)
Definition scenario4 : Iterator :=
  graph_of [ [(1, 4); (3, -1); (2, 1)]; [(3, 1)]; [(1, 1)]; []; [] ].

(** Costs at the end of the [int64] range: following [0 -> 1 -> 2], the
    sum for vertex 2 wraps around. *)
Definition overflow3 : Iterator :=
  graph_of [ [(1, max_int64)]; [(2, 2)]; [] ].

(** Three edges whose costs add up to [2^64 - 1], which an [int64] reads as
    the mark [-1] of vertices not reached, and a loop at vertex 3. *)
Definition overflow4 : Iterator :=
  graph_of [ [(1, max_int64)]; [(2, max_int64)]; [(3, 1)]; [(3, 5)] ].

(** The same with a loop of cost 0 at vertex 3, and a vertex 4 apart. *)
Definition overflow5 : Iterator :=
  graph_of [ [(1, max_int64)]; [(2, max_int64)]; [(3, 1)]; [(3, 0)]; [] ].

(** [overflow4] with an edge from 3 to a vertex 4. *)
Definition overflow6 : Iterator :=
  graph_of [ [(1, max_int64)]; [(2, max_int64)]; [(3, 1)]; [(3, 5); (4, 1)]; [] ].

(** The edges of [es] lead to vertices below [n] and have [int64] costs. *)
Definition edges_ok (n : Z) (es : list (Z * Z)) : bool :=
  forallb (fun e => (0 <=? fst e) && (fst e <? n) &&
                    (min_int64 <=? snd e) && (snd e <=? max_int64)) es.

(** Every edge of the graph leads to a vertex and has an [int64] cost. *)
Definition adj_ok (adj : list (list (Z * Z))) : bool :=
  forallb (edges_ok (Z.of_nat (length adj))) adj.

(** No cost is above [M]. *)
Definition adj_bounded (M : Z) (adj : list (list (Z * Z))) : bool :=
  forallb (forallb (fun e => snd e <=? M)) adj.

(** [l] without its entry at position [k]. *)
Definition remove_nth {A : Type} (k : nat) (l : list A) : list A :=
  firstn k l ++ skipn (S k) l.

(** The graph without the [k]-th edge of [u]. *)
Definition remove_edge (g : Iterator) (u : Z) (k : nat) : Iterator :=
  {| Order := Order g;
     Edges := fun x => if x =? u then remove_nth k (Edges g x) else Edges g x |}.

(** The edges that [Do] does not skip. *)
Definition nonneg_cost (e : Z * Z) : bool := 0 <=? snd e.

(** The graph without its edges of negative cost. *)
Definition drop_negative (g : Iterator) : Iterator :=
  {| Order := Order g; Edges := fun u => filter nonneg_cost (Edges g u) |}.

(* ------------------------------------------------------------------ *)
(** ** The ghost log, and one round of the main loop *)

(** The outcome without the ghost log. *)
Definition result_of {Q : Type} (o : outcome (pathFinder Q * list event))
    : outcome (pathFinder Q) :=
  ' (p, _) <- o ;; Done p.

(** One round of the main loop, the rounds that follow being [k]. *)
Definition loopBody {Q : Type} {DQ : DistQueue Q} (g : Iterator)
    (target : option Z)
    (k : pathFinder Q -> list event -> outcome (pathFinder Q * list event))
    (p : pathFinder Q) (log : list event) : outcome (pathFinder Q * list event) :=
  if Len (q p) >? 0 then
    ' (u, q') <- Pop (q p) (dist p) ;;
    if match target with Some w => u =? w | None => false end
    then Done ({| dist := dist p; parent := parent p; q := q'; v := v p |},
               EvPop u (dist p) :: log)
    else
      ' (p'', log'') <- Visit g u logDo
         ({| dist := dist p; parent := parent p; q := q'; v := u |},
          EvPop u (dist p) :: log) ;;
      k p'' log''
  else Done (p, log).

(** [w] was not popped and none of its edges was relaxed. *)
Definition quiet (w : Z) (log : list event) : Prop :=
  ~ In w (pops log) /\ forall x c d, ~ In (EvRelax w x c d) log.

(** The calls of [Do] that a log records: the vertex being visited, the
    target of the edge and its cost. *)
Fixpoint relaxations (log : list event) : list (Z * Z * Z) :=
  match log with
  | [] => []
  | EvPop _ _ :: r => relaxations r
  | EvRelax u w c _ :: r => (u, w, c) :: relaxations r
  end.

(** The calls of [Do] that [Visit] makes at the vertex [u] when it is not
    stopped. *)
Definition calls_of (g : Iterator) (u : Z) : list (Z * Z * Z) :=
  map (fun e => (u, fst e, snd e)) (Edges g u).

(** [oQ] is the outcome [oS] of the checked run, up to [R]; a checked run
    that panics settles nothing. *)
Definition follows {A B : Type} (R : A -> B -> Prop)
    (oQ : outcome A) (oS : outcome B) : Prop :=
  match oS with
  | Done b => exists a, oQ = Done a /\ R a b
  | OutOfFuel => oQ = OutOfFuel
  | Panic => True
  end.

Set Implicit Arguments.

(* ------------------------------------------------------------------ *)
(** ** The contract of a [DistQueue] *)

(** Modelled from the spec: the queue implementation [dijkstraQueue] is
    not in [path.go], which holds only the interface and its comments.
    The laws below are section 4.1 of the specification (Bind, Push,
    DecreaseKey, PopMin, Size) read together with the interface comments:
    the priorities are the entries of the shared [dist] slice, so pushing
    [v] with cost [c] and fixing [v] to [c] store [c] in [dist[v]].
    [elems q] lists the vertices in the queue; [qinv q d] says that [q] is
    well formed for the contents [d] of the slice (the heap order of the
    reference implementation, for instance).  A vertex is pushed only when
    it is not in the queue, fixed only when it is in the queue and to a
    cost that is not higher, and popped only from a queue that is not
    empty; the vertex popped has the least cost. *)
Class DistQueueLaws (Q : Type) {DQ : DistQueue Q} : Type := {
  elems : Q -> list Z;
  qinv : Q -> list Z -> Prop;
  SetDist_law : forall (q0 : Q) (d : list Z),
    elems q0 = [] -> elems (SetDist q0 d) = [] /\ qinv (SetDist q0 d) d;
  Len_law : forall (q0 : Q) (d : list Z),
    qinv q0 d -> Len q0 = Z.of_nat (length (elems q0));
  Push_law : forall (q0 : Q) (d : list Z) (u c : Z),
    qinv q0 d -> 0 <= u < len d -> ~ In u (elems q0) ->
    exists q1, Push q0 d u c = Done (q1, upd d u c) /\
               Permutation (elems q1) (u :: elems q0) /\
               qinv q1 (upd d u c);
  Fix_law : forall (q0 : Q) (d : list Z) (u c : Z),
    qinv q0 d -> 0 <= u < len d -> In u (elems q0) -> c <= sel d u ->
    exists q1, Fix q0 d u c = Done (q1, upd d u c) /\
               Permutation (elems q1) (elems q0) /\
               qinv q1 (upd d u c);
  Pop_law : forall (q0 : Q) (d : list Z),
    qinv q0 d -> elems q0 <> [] ->
    exists u q1, Pop q0 d = Done (u, q1) /\
                 Permutation (elems q0) (u :: elems q1) /\
                 (forall x, In x (elems q0) -> sel d u <= sel d x) /\
                 qinv q1 d
}.

Arguments DistQueueLaws Q {DQ}.

(** [&dijkstraQueue{}] is an empty queue. *)
Class ZeroQueueLaws (Q : Type) {DQ : DistQueue Q} {L : DistQueueLaws Q}
    {ZQ : ZeroQueue Q} : Prop :=
  zero_empty : elems (zeroQueue : Q) = [].

Arguments ZeroQueueLaws Q {DQ L ZQ}.

(* ------------------------------------------------------------------ *)
(** ** Paths, and the side conditions of the claims *)

(** [path_weight g p d]: [p] is a sequence of vertices, each joined to the
    next by an edge of non-negative cost, and the costs add up to [d]. *)
Inductive path_weight (g : Iterator) : list Z -> Z -> Prop :=
| pw_one (u : Z) : path_weight g [u] 0
| pw_cons (u w : Z) (l : list Z) (c d : Z) :
    In (w, c) (Edges g u) -> 0 <= c ->
    path_weight g (w :: l) d ->
    path_weight g (u :: w :: l) (c + d).

Definition first_is (p : list Z) (u : Z) : Prop := hd_error p = Some u.

Definition last_is (p : list Z) (u : Z) : Prop := hd_error (rev p) = Some u.

(** [w] can be reached from [v0] over edges of non-negative cost. *)
Definition reachable (g : Iterator) (v0 w : Z) : Prop :=
  exists p d, path_weight g p d /\ first_is p v0 /\ last_is p w.

(** The targets of the edges that are followed are vertices. *)
Definition wf_graph (g : Iterator) : Prop :=
  forall u w c, 0 <= u < Order g -> In (w, c) (Edges g u) -> 0 <= c ->
                0 <= w < Order g.

(** The costs are [int64] values. *)
Definition int64_costs (g : Iterator) : Prop :=
  forall u w c, 0 <= u < Order g -> In (w, c) (Edges g u) ->
                min_int64 <= c <= max_int64.

(** No sum that the search can form leaves [int64]: a path from [v0]
    with at most [Order g] edges has a weight that fits. *)
Definition no_overflow (g : Iterator) (v0 : Z) : Prop :=
  forall p d, path_weight g p d -> first_is p v0 ->
              Z.of_nat (length p) <= Order g + 1 -> d <= max_int64.

(** The same paths, built from the source outwards and written with the
    last vertex first, as the search discovers them. *)
Inductive rpath (g : Iterator) (v0 : Z) : list Z -> Z -> Prop :=
| rp_start : rpath g v0 [v0] 0
| rp_step (u : Z) (l : list Z) (d w c : Z) :
    rpath g v0 (u :: l) d -> In (w, c) (Edges g u) -> 0 <= c ->
    rpath g v0 (w :: u :: l) (d + c).

(* ------------------------------------------------------------------ *)
(** ** The invariant of the search

    [popped] are the vertices popped so far (the last one first), [cur] the
    edges of the last popped vertex that [Visit] has not presented yet,
    [d] and [par] the contents of [dist] and [parent], and [E] the vertices
    in the queue. *)

(** [popped] lists the popped vertices, the last one first; [older popped u]
    are those popped before [u]. *)
Fixpoint older (popped : list Z) (u : Z) : list Z :=
  match popped with
  | [] => []
  | x :: r => if x =? u then r else older r u
  end.

Record Inv (g : Iterator) (v0 : Z) (popped : list Z) (cur : list (Z * Z))
    (d par E : list Z) : Prop := {
  inv_len_dist : len d = Order g;
  inv_len_parent : len par = Order g;
  inv_nodup_popped : NoDup popped;
  inv_nodup_queue : NoDup E;
  inv_disjoint : forall u, In u popped -> ~ In u E;
  inv_disc : forall u, In u popped \/ In u E ->
                       0 <= u < Order g /\ 0 <= sel d u;
  inv_undisc : forall u, 0 <= u < Order g -> ~ (In u popped \/ In u E) ->
                         sel d u = -1;
  inv_sorted : forall x u, In x popped -> In u (older popped x) ->
                           sel d u <= sel d x;
  inv_front : forall u y, In u popped -> In y E -> sel d u <= sel d y;
  inv_closed : forall u w c, In u popped -> In (w, c) (Edges g u) -> 0 <= c ->
      (exists rest, popped = u :: rest /\ In (w, c) cur) \/
      ((In w popped \/ In w E) /\ sel d w <= sel d u + c);
  inv_source : sel d v0 = 0 /\ sel par v0 = -1 /\ (In v0 popped \/ In v0 E);
  inv_tree : forall u, In u popped \/ In u E -> u <> v0 ->
      exists c, In (sel par u) popped /\
                In (u, c) (Edges g (sel par u)) /\ 0 <= c /\
                sel d u = sel d (sel par u) + c /\
                (In u popped -> In (sel par u) (older popped u))
}.

(** The parent links of the vertices of [l], each vertex the parent of
    the one before it, the last one without a parent. *)
Fixpoint chain (par : list Z) (l : list Z) : Prop :=
  match l with
  | [] => True
  | u :: r =>
      0 <= u < len par /\
      match r with [] => sel par u = -1 | x :: _ => sel par u = x end /\
      chain par r
  end.

(** Once a vertex is popped, every later event leaves its [dist] entry as
    it was when it was popped ([log] has the newest event first). *)
Definition frozen (log : list event) (d : list Z) : Prop :=
  forall l2 u d0 l1, log = l2 ++ EvPop u d0 :: l1 ->
    sel d u = sel d0 u /\ Forall (fun e => sel (snapshot e) u = sel d0 u) l2.

(** The distances [d'] are no worse than the distances [d]: a vertex
    below [n] that has a distance in [d] has one in [d'], and not a higher
    one. *)
Definition no_worse (n : Z) (d' d : list Z) : Prop :=
  forall u, 0 <= u < n -> sel d u <> -1 -> 0 <= sel d' u <= sel d u.

(** The distances only improve along the log: the current ones, [d], are
    no worse than those of each event, and those of an event are no worse
    than those of the events before it ([log] has the newest event
    first). *)
Definition improving (n : Z) (log : list event) (d : list Z) : Prop :=
  (forall u, 0 <= u < n -> sel d u = -1 \/ 0 <= sel d u) /\
  (forall e, In e log -> no_worse n d (snapshot e)) /\
  (forall l2 e l1, log = l2 ++ e :: l1 ->
     Forall (fun e' => no_worse n (snapshot e') (snapshot e)) l2).

(** The invariant on a [pathFinder]. *)
Definition PInv {Q : Type} {DQ : DistQueue Q} {L : DistQueueLaws Q}
    (g : Iterator) (v0 : Z) (popped : list Z) (cur : list (Z * Z))
    (p : pathFinder Q) : Prop :=
  Inv g v0 popped cur (dist p) (parent p) (elems (q p)) /\ qinv (q p) (dist p).

(** How the loop ends: the queue is empty, or the target was popped last
    and its edges were not visited. *)
Definition finished {Q : Type} {DQ : DistQueue Q} {L : DistQueueLaws Q}
    (g : Iterator) (target : option Z) (popped : list Z) (cur : list (Z * Z))
    (p : pathFinder Q) : Prop :=
  (elems (q p) = [] /\ cur = [] /\ (forall w, target = Some w -> ~ In w popped)) \/
  (exists w rest, target = Some w /\ popped = w :: rest /\ cur = Edges g w).

Unset Implicit Arguments.

(* ------------------------------------------------------------------ *)
(** ** Runs that every queue reproduces *)

(** The state of a queue that satisfies the contract and the state of
    [strictQueue] after the same steps. *)
Definition sim {Q : Type} {DQ : DistQueue Q} {L : DistQueueLaws Q}
    (pQ : pathFinder Q) (pS : pathFinder strictQueue) : Prop :=
  dist pQ = dist pS /\ parent pQ = parent pS /\ v pQ = v pS /\
  Permutation (elems (q pQ)) (sitems (q pS)) /\ NoDup (sitems (q pS)) /\
  qinv (q pQ) (dist pQ).

Definition sim_log {Q : Type} {DQ : DistQueue Q} {L : DistQueueLaws Q}
    (a : pathFinder Q * list event)
    (b : pathFinder strictQueue * list event) : Prop :=
  sim (fst a) (fst b) /\ snd a = snd b.

Definition sim_skip {Q : Type} {DQ : DistQueue Q} {L : DistQueueLaws Q}
    (a : pathFinder Q * bool)
    (b : pathFinder strictQueue * bool) : Prop :=
  sim (fst a) (fst b) /\ snd a = snd b.

(** A statement about [ShortestPaths] and [ShortestPath] that holds for
    every queue type that satisfies the contract. *)
Definition every_queue
    (P : forall Q : Type, DistQueue Q -> ZeroQueue Q -> Prop) : Prop :=
  forall (Q : Type) (DQ : DistQueue Q) (ZQ : ZeroQueue Q)
         (L : DistQueueLaws Q) (ZL : ZeroQueueLaws Q), P Q DQ ZQ.

(* ------------------------------------------------------------------ *)
(** ** The scenarios of the specification *)

Example scenario1_path :
  ShortestPath (dijkstraQueue := scanQueue) 10 scenario1 0 3 = Done ([0; 2; 1; 3], 3).
Proof. vm_compute. reflexivity. Qed.

Example scenario2_unreachable :
  ShortestPath (dijkstraQueue := scanQueue) 10 scenario1 0 4 = Done ([], -1).
Proof. vm_compute. reflexivity. Qed.

Example scenario3_same :
  ShortestPath (dijkstraQueue := scanQueue) 10 scenario1 0 0 = Done ([0], 0).
Proof. vm_compute. reflexivity. Qed.

Example scenario5_all :
  ShortestPaths (dijkstraQueue := scanQueue) 10 scenario1 0
  = Done ([-1; 2; 0; 1; -1], [0; 2; 1; 3; -1]).
Proof. vm_compute. reflexivity. Qed.

(* ------------------------------------------------------------------ *)
(** ** Slices: reading and writing in range *)

Set Implicit Arguments.

Lemma in_bounds_iff (l : list Z) (i : Z) :
  in_bounds l i = true <-> 0 <= i < len l.
Proof. unfold in_bounds. rewrite andb_true_iff, Z.leb_le, Z.ltb_lt. tauto. Qed.

Lemma index_in (l : list Z) (i : Z) :
  0 <= i < len l -> index l i = Done (sel l i).
Proof.
  intros H. unfold index. apply in_bounds_iff in H. now rewrite H.
Qed.

Lemma store_in (l : list Z) (x i : Z) :
  0 <= i < len l -> store l i x = Done (upd l i x).
Proof.
  intros H. unfold store. apply in_bounds_iff in H. now rewrite H.
Qed.

Lemma set_nth_length (l : list Z) (k : nat) (x : Z) :
  length (set_nth l k x) = length l.
Proof.
  revert k. induction l as [|y r IH]; intros [|k]; simpl; auto.
Qed.

Lemma set_nth_same (l : list Z) (k : nat) (x : Z) :
  (k < length l)%nat -> nth k (set_nth l k x) 0 = x.
Proof.
  revert k. induction l as [|y r IH]; intros [|k] H; simpl in *; try lia; auto.
  apply IH. lia.
Qed.

Lemma set_nth_other (l : list Z) (k j : nat) (x : Z) :
  k <> j -> nth j (set_nth l k x) 0 = nth j l 0.
Proof.
  revert k j. induction l as [|y r IH]; intros [|k] [|j] H; simpl; auto; try lia.
Qed.

Lemma len_upd (l : list Z) (i x : Z) : len (upd l i x) = len l.
Proof. unfold len, upd. now rewrite set_nth_length. Qed.

Lemma sel_upd_same (l : list Z) (i x : Z) :
  0 <= i < len l -> sel (upd l i x) i = x.
Proof.
  intros H. unfold sel, upd. apply set_nth_same. unfold len in H. lia.
Qed.

Lemma sel_upd_other (l : list Z) (i j x : Z) :
  0 <= i -> 0 <= j -> i <> j -> sel (upd l i x) j = sel l j.
Proof.
  intros Hi Hj H. unfold sel, upd. apply set_nth_other. lia.
Qed.

Lemma make_filled_ok (n x : Z) :
  0 <= n -> make_filled n x = Done (repeat x (Z.to_nat n)).
Proof.
  intros H. unfold make_filled. destruct (n <? 0) eqn:E; auto.
  apply Z.ltb_lt in E. lia.
Qed.

Lemma len_repeat (n x : Z) : 0 <= n -> len (repeat x (Z.to_nat n)) = n.
Proof. intros H. unfold len. rewrite repeat_length. lia. Qed.

Lemma sel_repeat (n x i : Z) :
  0 <= i < n -> sel (repeat x (Z.to_nat n)) i = x.
Proof.
  intros H. unfold sel. apply nth_repeat_lt. lia.
Qed.

Lemma wrap64_small (z : Z) : min_int64 <= z <= max_int64 -> wrap64 z = z.
Proof.
  unfold wrap64, min_int64, max_int64. intros H.
  rewrite Z.mod_small; lia.
Qed.

(** [scanQueue] satisfies the contract. *)

Lemma argmin_In (d : list Z) (l : list Z) (best : Z) :
  In (argmin d best l) (best :: l).
Proof.
  revert best. induction l as [|x r IH]; intros best; simpl; auto.
  destruct (sel d x <? sel d best).
  - destruct (IH x) as [E|E]; auto.
  - destruct (IH best) as [E|E]; auto.
Qed.

Lemma argmin_le (d : list Z) (l : list Z) (best : Z) :
  forall x, In x (best :: l) -> sel d (argmin d best l) <= sel d x.
Proof.
  revert best. induction l as [|y r IH]; intros best x Hx; simpl in *.
  - destruct Hx as [<-|[]]. lia.
  - destruct (sel d y <? sel d best) eqn:E.
    + apply Z.ltb_lt in E.
      destruct Hx as [<-|[<-|Hx]].
      * specialize (IH y y (or_introl eq_refl)). lia.
      * apply IH. now left.
      * apply IH. now right.
    + apply Z.ltb_ge in E.
      destruct Hx as [<-|[<-|Hx]].
      * apply IH. now left.
      * specialize (IH best best (or_introl eq_refl)). lia.
      * apply IH. now right.
Qed.

Lemma remove1_perm (x : Z) (l : list Z) :
  In x l -> Permutation l (x :: remove1 x l).
Proof.
  induction l as [|y r IH]; simpl; intros H; [contradiction|].
  destruct (y =? x) eqn:E.
  - apply Z.eqb_eq in E. subst. reflexivity.
  - apply Z.eqb_neq in E. destruct H as [H|H]; [congruence|].
    rewrite perm_swap. constructor. now apply IH.
Qed.

#[export, refine] Instance scanQueue_Laws : DistQueueLaws scanQueue := {|
  elems := items;
  qinv := fun _ _ => True
|}.
Proof.
  - intros q0 d H. simpl. auto.
  - intros q0 d _. reflexivity.
  - intros q0 d u c _ Hu Hn. simpl. rewrite store_in by exact Hu. simpl.
    eexists. split; [reflexivity|]. split; auto. simpl.
    rewrite Permutation_app_comm. reflexivity.
  - intros q0 d u c _ Hu Hin Hc. simpl. rewrite store_in by exact Hu. simpl.
    eexists. split; [reflexivity|]. split; auto.
  - intros q0 d _ Hne. simpl. destruct (items q0) as [|x r] eqn:E; [congruence|].
    eexists. eexists. split; [reflexivity|]. cbn [items].
    split; [|split; auto].
    + apply remove1_perm. apply argmin_In.
    + apply argmin_le.
Defined.

#[export] Instance scanQueue_ZeroLaws : ZeroQueueLaws scanQueue.
Proof. reflexivity. Qed.

(* ------------------------------------------------------------------ *)
(** ** Paths over edges of non-negative cost *)

Lemma path_weight_snoc (g : Iterator) (p : list Z) (u w c d : Z) :
  path_weight g (p ++ [u]) d -> In (w, c) (Edges g u) -> 0 <= c ->
  path_weight g (p ++ [u; w]) (d + c).
Proof.
  revert d. induction p as [|a p IH]; intros d H He Hc; simpl in *.
  - inversion H; subst.
    replace (0 + c) with (c + 0) by lia.
    apply pw_cons; auto. constructor.
  - destruct p as [|b p]; simpl in *.
    + inversion H; subst.
      replace (c0 + d0 + c) with (c0 + (d0 + c)) by lia.
      apply pw_cons; auto; try (apply (IH d0); auto).
    + inversion H; subst.
      replace (c0 + d0 + c) with (c0 + (d0 + c)) by lia.
      apply pw_cons; auto; try (apply (IH d0); auto).
Qed.

Lemma rpath_path (g : Iterator) (v0 : Z) (l : list Z) (d : Z) :
  rpath g v0 l d -> path_weight g (rev l) d /\ first_is (rev l) v0.
Proof.
  induction 1 as [|u l d w c H [IH1 IH2] He Hc].
  - split; [constructor | reflexivity].
  - split.
    + simpl in *. rewrite <- app_assoc. simpl.
      apply path_weight_snoc; auto.
    + unfold first_is in *. simpl in *.
      destruct (rev l ++ [u]) as [|a r] eqn:E; simpl in *; [discriminate|auto].
Qed.

Lemma rpath_cons_front (g : Iterator) (v0 u c : Z) (l : list Z) (d : Z) :
  rpath g v0 l d -> In (v0, c) (Edges g u) -> 0 <= c ->
  rpath g u (l ++ [u]) (c + d).
Proof.
  intros H He Hc. induction H as [|x l d w c' H IH He' Hc'].
  - simpl. replace (c + 0) with (0 + c) by lia.
    apply rp_step; auto. constructor.
  - simpl in *. replace (c + (d + c')) with (c + d + c') by lia.
    apply rp_step; auto.
Qed.

Lemma path_rpath (g : Iterator) (p : list Z) (d : Z) :
  path_weight g p d -> forall v0, first_is p v0 -> rpath g v0 (rev p) d.
Proof.
  induction 1 as [u|u w l c d He Hc H IH]; intros v0 Hf.
  - inversion Hf; subst. constructor.
  - inversion Hf; subst.
    change (rev (v0 :: w :: l)) with (rev (w :: l) ++ [v0]).
    apply rpath_cons_front with (v0 := w); auto. apply IH. reflexivity.
Qed.

Lemma rpath_last (g : Iterator) (v0 : Z) (l : list Z) (d : Z) :
  rpath g v0 l d -> exists w r, l = w :: r.
Proof. destruct 1; eauto. Qed.

Lemma no_overflow_rpath (g : Iterator) (v0 : Z) (l : list Z) (d : Z) :
  no_overflow g v0 -> rpath g v0 l d ->
  Z.of_nat (length l) <= Order g + 1 -> d <= max_int64.
Proof.
  intros Hno H Hl. apply rpath_path in H. destruct H as [H1 H2].
  apply (Hno (rev l)); auto. now rewrite length_rev.
Qed.

Lemma rpath_nonneg (g : Iterator) (v0 : Z) (l : list Z) (d : Z) :
  rpath g v0 l d -> 0 <= d.
Proof. induction 1; lia. Qed.

(** A bound on the costs that rules overflow out. *)
Lemma path_weight_bound (g : Iterator) (M : Z) (p : list Z) (d : Z) :
  0 <= M ->
  (forall u w c, In (w, c) (Edges g u) -> c <= M) ->
  path_weight g p d -> d <= (Z.of_nat (length p) - 1) * M.
Proof.
  intros HM Hb. induction 1 as [u|u w l c d He Hc H IH].
  - simpl. lia.
  - specialize (Hb _ _ _ He). cbn [length] in *. nia.
Qed.

Lemma bounded_no_overflow (g : Iterator) (v0 M : Z) :
  0 <= M ->
  (forall u w c, In (w, c) (Edges g u) -> c <= M) ->
  Order g * M <= max_int64 ->
  no_overflow g v0.
Proof.
  intros HM Hb Hn p d Hp _ Hl.
  pose proof (path_weight_bound HM Hb Hp) as H.
  assert (0 <= Z.of_nat (length p) - 1).
  { destruct Hp; cbn [length]; lia. }
  nia.
Qed.

(* ------------------------------------------------------------------ *)
(** ** Vertices popped before a given one *)

Lemma older_In (l : list Z) (u y : Z) : In y (older l u) -> In y l.
Proof.
  induction l as [|x r IH]; simpl; auto.
  destruct (x =? u); auto.
Qed.

Lemma older_shorter (l : list Z) (y : Z) :
  In y l -> (length (older l y) < length l)%nat.
Proof.
  induction l as [|x r IH]; simpl; [tauto|].
  intros H. destruct (x =? y) eqn:E; [lia|].
  apply Z.eqb_neq in E. destruct H as [H|H]; [congruence|].
  specialize (IH H). lia.
Qed.

Lemma older_length (l : list Z) (u y : Z) :
  NoDup l -> In y (older l u) ->
  (length (older l y) < length (older l u))%nat.
Proof.
  induction l as [|x r IH]; simpl; [tauto|].
  intros Hnd Hy. inversion Hnd as [|? ? Hx Hr]; subst.
  destruct (x =? u) eqn:E.
  - assert (x <> y) by (intros ->; tauto).
    apply Z.eqb_neq in H. rewrite H. now apply older_shorter.
  - assert (x <> y).
    { intros ->. apply Hx. eapply older_In; eauto. }
    apply Z.eqb_neq in H. rewrite H. auto.
Qed.

Lemma bounded_nodup_length (l : list Z) (n : Z) :
  0 <= n -> NoDup l -> (forall u, In u l -> 0 <= u < n) ->
  Z.of_nat (length l) <= n.
Proof.
  intros Hn Hnd Hr.
  assert (NoDup (map Z.to_nat l)) as Hm.
  { apply Injective_map_NoDup_in; auto.
    intros x y Hx Hy E. apply Hr in Hx. apply Hr in Hy. lia. }
  assert (incl (map Z.to_nat l) (seq 0 (Z.to_nat n))) as Hi.
  { intros k Hk. apply in_map_iff in Hk. destruct Hk as [u [<- Hu]].
    apply Hr in Hu. apply in_seq. lia. }
  pose proof (NoDup_incl_length Hm Hi) as H.
  rewrite length_map, length_seq in H. lia.
Qed.

(* ------------------------------------------------------------------ *)
(** ** The invariant of the search

    [popped] are the vertices popped so far (the last one first), [cur] the
    edges of the last popped vertex that [Visit] has not presented yet,
    [d] and [par] the contents of [dist] and [parent], and [E] the vertices
    in the queue. *)

Ltac inv_fields I :=
  let I' := fresh "I" in pose proof I as I'; destruct I'.

Section Invariant.

Variable g : Iterator.
Variable v0 : Z.

Lemma Inv_perm popped cur d par E E' :
  Permutation E E' -> Inv g v0 popped cur d par E -> Inv g v0 popped cur d par E'.
Proof.
  intros HP I.
  assert (forall u, In u E' <-> In u E) as HE.
  { intros u. split; apply Permutation_in; auto. now symmetry. }
  destruct I. constructor; auto.
  - eapply Permutation_NoDup; eauto.
  - intros u Hu. rewrite HE. auto.
  - intros u Hu. rewrite HE in Hu. auto.
  - intros u Hu Hn. apply inv_undisc0; auto. now rewrite <- HE.
  - intros u y Hu Hy. rewrite HE in Hy. auto.
  - intros u w c Hu He Hc.
    destruct (inv_closed0 u w c Hu He Hc) as [H|[H1 H2]]; auto.
    right. split; auto. now rewrite HE.
  - destruct inv_source0 as (H1 & H2 & H3). rewrite HE. auto.
  - intros u Hu. rewrite HE in Hu. auto.
Qed.

Lemma Inv_init :
  0 <= v0 < Order g ->
  Inv g v0 [] [] (upd (repeat (-1) (Z.to_nat (Order g))) v0 0)
     (repeat (-1) (Z.to_nat (Order g))) [v0].
Proof.
  intros Hv0.
  assert (len (repeat (-1) (Z.to_nat (Order g))) = Order g) as Hl
    by (apply len_repeat; lia).
  constructor.
  - now rewrite len_upd.
  - exact Hl.
  - constructor.
  - repeat constructor. simpl. tauto.
  - intros u [].
  - intros u [[]|[<-|[]]]. split; auto.
    rewrite sel_upd_same; [lia|]. now rewrite Hl.
  - intros u Hu Hn.
    rewrite sel_upd_other; try lia; [|intros ->; simpl in Hn; tauto].
    now apply sel_repeat.
  - intros x u [].
  - intros u y [].
  - intros u w c [].
  - split; [|split]; simpl; auto.
    + rewrite sel_upd_same; auto. now rewrite Hl.
    + now apply sel_repeat.
  - intros u [[]|[<-|[]]] Hne. congruence.
Qed.

Lemma Inv_pop popped d par E x E' :
  Inv g v0 popped [] d par E ->
  Permutation E (x :: E') ->
  (forall y, In y E -> sel d x <= sel d y) ->
  Inv g v0 (x :: popped) (Edges g x) d par E'.
Proof.
  intros I HP Hmin.
  apply (Inv_perm HP) in I. destruct I.
  assert (forall y, In y (x :: E') -> sel d x <= sel d y) as Hmin'.
  { intros y Hy. apply Hmin. eapply Permutation_in; [symmetry|]; eauto. }
  inversion inv_nodup_queue0 as [|? ? HxE HndE]; subst.
  constructor; auto.
  - constructor; auto. intros Hx. apply (inv_disjoint0 x Hx). now left.
  - intros u [<-|Hu]; auto. intros Hu'. apply (inv_disjoint0 u Hu). now right.
  - intros u Hu. apply inv_disc0. simpl in *. tauto.
  - intros u Hu Hn. apply inv_undisc0; auto. simpl in *. tauto.
  - intros y u Hy Hu. simpl in Hu. destruct (x =? y) eqn:E0.
    + apply Z.eqb_eq in E0. subst y. apply inv_front0; simpl; auto.
    + apply Z.eqb_neq in E0. destruct Hy as [Hy|Hy]; [congruence|].
      apply inv_sorted0; auto.
  - intros u y [<-|Hu] Hy.
    + apply Hmin'. now right.
    + apply inv_front0; simpl; auto.
  - intros u w c [<-|Hu] He Hc.
    + left. eauto.
    + destruct (inv_closed0 u w c Hu He Hc) as [(rest & _ & [])|[H1 H2]].
      right. split; auto. simpl in *. tauto.
  - destruct inv_source0 as (H1 & H2 & H3). simpl in *. tauto.
  - intros u Hu Hne.
    destruct (inv_tree0 u) as (c & T1 & T2 & T3 & T4 & T5); auto.
    { simpl in *. tauto. }
    exists c. split; [now right|]. split; auto. split; auto. split; auto.
    intros Hup. simpl. destruct (x =? u) eqn:E0; auto.
    apply Z.eqb_neq in E0. destruct Hup as [Hup|Hup]; [congruence|auto].
Qed.

Lemma Inv_skip x rest w c cur d par E :
  Inv g v0 (x :: rest) ((w, c) :: cur) d par E -> c < 0 ->
  Inv g v0 (x :: rest) cur d par E.
Proof.
  intros I Hc. destruct I. constructor; auto.
  intros u w' c' Hu He Hc'.
  destruct (inv_closed0 u w' c' Hu He Hc') as [(r & H1 & [H2|H2])|H]; auto.
  - inversion H2; subst. lia.
  - left. eauto.
Qed.

Lemma Inv_keep x rest w c cur d par E :
  Inv g v0 (x :: rest) ((w, c) :: cur) d par E ->
  (In w (x :: rest) \/ In w E) -> sel d w <= sel d x + c ->
  Inv g v0 (x :: rest) cur d par E.
Proof.
  intros I Hw Hle. destruct I. constructor; auto.
  intros u w' c' Hu He Hc'.
  destruct (inv_closed0 u w' c' Hu He Hc') as [(r & H1 & [H2|H2])|H]; auto.
  - inversion H2; subst. inversion H1; subst. right. auto.
  - left. eauto.
Qed.

Lemma Inv_relax x rest w c cur d par E E' :
  Inv g v0 (x :: rest) ((w, c) :: cur) d par E ->
  In (w, c) (Edges g x) -> 0 <= c -> 0 <= w < Order g ->
  ~ In w (x :: rest) ->
  (forall u, In u E' <-> u = w \/ In u E) -> NoDup E' ->
  (In w E -> sel d x + c < sel d w) ->
  Inv g v0 (x :: rest) cur (upd d w (sel d x + c)) (upd par w x) E'.
Proof.
  intros I He Hc Hw Hwp HE' Hnd Hlt.
  destruct I.
  set (alt := sel d x + c).
  assert (0 <= x < Order g /\ 0 <= sel d x) as [Hx Hdx]
    by (apply inv_disc0; simpl; auto).
  assert (sel (upd d w alt) w = alt) as Fdw
    by (apply sel_upd_same; lia).
  assert (sel (upd par w x) w = x) as Fpw
    by (apply sel_upd_same; lia).
  assert (forall u, 0 <= u -> u <> w -> sel (upd d w alt) u = sel d u) as Fd
    by (intros; apply sel_upd_other; lia).
  assert (forall u, 0 <= u -> u <> w -> sel (upd par w x) u = sel par u) as Fp
    by (intros; apply sel_upd_other; lia).
  assert (forall u, In u (x :: rest) -> 0 <= u /\ u <> w) as Pp.
  { intros u Hu. split; [apply inv_disc0; auto|]. intros ->. tauto. }
  assert (forall u, In u E -> 0 <= u) as Pe.
  { intros u Hu. apply inv_disc0; auto. }
  assert (forall u, In u (x :: rest) -> sel d u <= sel d x) as Hmax.
  { intros u [<-|Hu]; [lia|]. apply inv_sorted0; simpl; auto.
    now rewrite Z.eqb_refl. }
  constructor.
  - now rewrite len_upd.
  - now rewrite len_upd.
  - assumption.
  - assumption.
  - intros u Hu Hu'. apply HE' in Hu'. destruct Hu' as [->|Hu']; [tauto|].
    eapply inv_disjoint0; eauto.
  - intros u Hu.
    assert (u = w \/ (u <> w /\ (In u (x :: rest) \/ In u E))) as [->|[Hne Hd]].
    { destruct (Z.eq_dec u w); auto. right. split; auto.
      destruct Hu as [Hu|Hu]; auto. apply HE' in Hu. tauto. }
    + split; auto. rewrite Fdw. unfold alt. lia.
    + destruct (inv_disc0 u Hd). rewrite Fd; auto; lia.
  - intros u Hu Hn.
    assert (u <> w) by (intros ->; apply Hn; right; apply HE'; auto).
    rewrite Fd; try lia. apply inv_undisc0; auto.
    intros [H1|H1]; apply Hn; auto. right. apply HE'. auto.
  - intros y u Hy Hu.
    destruct (Pp y Hy). destruct (Pp u (@older_In _ _ _ Hu)).
    rewrite !Fd; auto.
  - intros u y Hu Hy. destruct (Pp u Hu).
    rewrite (Fd u); auto.
    destruct (Z.eq_dec y w) as [->|Hne].
    + rewrite Fdw. specialize (Hmax u Hu). unfold alt. lia.
    + apply HE' in Hy. destruct Hy as [->|Hy]; [congruence|].
      rewrite Fd; auto.
  - intros u w' c' Hu He' Hc'. destruct (Pp u Hu).
    rewrite (Fd u); auto.
    destruct (inv_closed0 u w' c' Hu He' Hc') as [(r & H1 & [H2|H2])|[H1 H2]].
    + inversion H2; subst. inversion H1; subst.
      right. split; [right; apply HE'; auto|]. rewrite Fdw. unfold alt. lia.
    + left. eauto.
    + right. split.
      * destruct H1; auto. right. apply HE'. auto.
      * destruct (Z.eq_dec w' w) as [->|Hne].
        -- rewrite Fdw. destruct H1 as [H1|H1]; [tauto|].
           specialize (Hlt H1). unfold alt. lia.
        -- rewrite Fd; auto. destruct H1 as [H1|H1]; [apply Pp|apply Pe]; auto.
  - destruct inv_source0 as (S1 & S2 & S3).
    assert (v0 <> w).
    { intros ->. destruct S3 as [S3|S3]; [tauto|].
      specialize (Hlt S3). lia. }
    assert (0 <= v0) by (destruct S3 as [S3|S3]; [apply Pp|apply Pe]; auto).
    rewrite Fd, Fp; auto. split; auto. split; auto.
    destruct S3; auto. right. apply HE'. auto.
  - intros u Hu Hne.
    destruct (Z.eq_dec u w) as [->|Hnw].
    + exists c. rewrite Fpw, Fdw. destruct (Pp x (or_introl eq_refl)).
      rewrite Fd; auto. split; [simpl; auto|]. split; auto. split; auto.
      split; auto. tauto.
    + assert (In u (x :: rest) \/ In u E) as Hd.
      { destruct Hu as [Hu|Hu]; auto. apply HE' in Hu. tauto. }
      assert (0 <= u) by (apply inv_disc0; auto).
      destruct (inv_tree0 u Hd Hne) as (c0 & T1 & T2 & T3 & T4 & T5).
      exists c0. rewrite Fp; auto. destruct (Pp _ T1).
      rewrite !Fd; auto.
Qed.

Lemma tree_walk popped cur d par E :
  Inv g v0 popped cur d par E ->
  forall (k : nat) (u : Z), In u popped -> (length (older popped u) <= k)%nat ->
  exists l, rpath g v0 (u :: l) (sel d u) /\ chain par (u :: l) /\
            (length (u :: l) <= length (older popped u) + 1)%nat.
Proof.
  intros I. inv_fields I.
  assert (forall u, In u popped -> 0 <= u < len par) as Hr.
  { intros u Hu. rewrite inv_len_parent0. apply inv_disc0. auto. }
  assert (forall u, In u popped -> u = v0 ->
            exists l, rpath g v0 (u :: l) (sel d u) /\ chain par (u :: l) /\
                      (length (u :: l) <= length (older popped u) + 1)%nat) as Hbase.
  { intros u Hu ->. exists []. destruct inv_source0 as (S1 & S2 & _).
    rewrite S1. split; [constructor|]. split; [|simpl; lia].
    simpl. auto. }
  induction k as [|k IH]; intros u Hu Hk;
    (destruct (Z.eq_dec u v0) as [E0|E0]; [now apply Hbase|]);
    destruct (inv_tree0 u (or_introl Hu) E0) as (c & T1 & T2 & T3 & T4 & T5);
    specialize (T5 Hu);
    pose proof (@older_length _ _ _ inv_nodup_popped0 T5) as Hlt.
  - lia.
  - destruct (IH (sel par u) T1) as (l & W1 & W2 & W3); [lia|].
    exists (sel par u :: l). split; [|split].
    + rewrite T4. apply rp_step; auto.
    + split; auto.
    + cbn [length] in *. lia.
Qed.

Lemma disc_walk popped cur d par E u :
  Inv g v0 popped cur d par E -> In u popped \/ In u E ->
  exists l, rpath g v0 (u :: l) (sel d u).
Proof.
  intros I Hu. inv_fields I. destruct (Z.eq_dec u v0) as [->|Hne].
  - exists []. destruct inv_source0 as (S1 & _). rewrite S1. constructor.
  - destruct (inv_tree0 u Hu Hne) as (c & T1 & T2 & T3 & T4 & _).
    destruct (@tree_walk _ _ _ _ _ I (length popped) _ T1) as (l & W & _).
    { pose proof (@older_shorter _ _ T1). lia. }
    exists (sel par u :: l). rewrite T4. apply rp_step; auto.
Qed.

Lemma frontier popped cur d par E :
  Inv g v0 popped cur d par E ->
  forall l dd, rpath g v0 l dd -> forall u r, l = u :: r ->
  ((In u popped \/ In u E) /\ sel d u <= dd) \/
  (exists b, (In b E \/ exists rest, popped = b :: rest /\ cur <> []) /\
             sel d b <= dd).
Proof.
  intros I. inv_fields I.
  induction 1 as [|u l dd w c H IH He Hc]; intros u' r Heq.
  - inversion Heq; subst. left. destruct inv_source0 as (S1 & _ & S3).
    split; auto. lia.
  - inversion Heq; subst.
    destruct (IH u l eq_refl) as [[[Hu|Hu] Hd]|(b & Hb & Hd)].
    + destruct (inv_closed0 u u' c Hu He Hc) as [(rest & H1 & H2)|[H1 H2]].
      * right. exists u. split; [|lia]. right. exists rest. split; auto.
        intros ->. contradiction.
      * left. split; auto. lia.
    + right. exists u. split; auto. lia.
    + right. exists b. split; auto. lia.
Qed.

(** The distance of a popped vertex is least among the paths to it. *)
Lemma popped_optimal popped cur d par E u r dd :
  Inv g v0 popped cur d par E -> In u popped -> rpath g v0 (u :: r) dd ->
  sel d u <= dd.
Proof.
  intros I Hu H. inv_fields I.
  destruct (frontier I H eq_refl) as [[_ Hd]|(b & [Hb|(rest & -> & _)] & Hd)]; auto.
  - pose proof (inv_front0 u b Hu Hb). lia.
  - destruct Hu as [<-|Hu]; auto.
    assert (sel d u <= sel d b); [|lia].
    apply inv_sorted0; simpl; auto. now rewrite Z.eqb_refl.
Qed.

(** When the queue is empty every vertex that can be reached was popped. *)
Lemma search_complete popped d par u r dd :
  Inv g v0 popped [] d par [] -> rpath g v0 (u :: r) dd -> In u popped.
Proof.
  intros I H.
  destruct (frontier I H eq_refl) as [[[Hu|[]] _]|(b & [[]|(rest & _ & Hc)] & _)];
    auto. congruence.
Qed.

Hypothesis Hno : no_overflow g v0.

Lemma alt_fits x rest w c cur d par E :
  Inv g v0 (x :: rest) cur d par E -> In (w, c) (Edges g x) -> 0 <= c ->
  min_int64 <= sel d x + c <= max_int64.
Proof.
  intros I He Hc. inv_fields I.
  assert (0 <= sel d x) by (apply inv_disc0; simpl; auto).
  split; [unfold min_int64; lia|].
  destruct (@tree_walk _ _ _ _ _ I (length rest) x) as (l & W1 & _ & W3).
  { simpl; auto. }
  { simpl. rewrite Z.eqb_refl. lia. }
  simpl in W3. rewrite Z.eqb_refl in W3.
  assert (0 <= Order g).
  { assert (0 <= x < Order g) by (apply inv_disc0; simpl; auto). lia. }
  assert (Z.of_nat (length (x :: rest)) <= Order g) as Hn.
  { apply bounded_nodup_length; auto.
    intros u Hu. apply inv_disc0. auto. }
  apply (no_overflow_rpath (l := w :: x :: l) Hno).
  - apply rp_step; auto.
  - cbn [length] in *. lia.
Qed.

End Invariant.

(* ------------------------------------------------------------------ *)
(** ** The ghost log *)

Lemma pops_app (l1 l2 : list event) : pops (l1 ++ l2) = pops l1 ++ pops l2.
Proof.
  induction l1 as [|[u d|u w c d] r IH]; simpl; auto. now rewrite IH.
Qed.

Lemma frozen_cons (log : list event) (d : list Z) (e : event) :
  frozen log d ->
  (forall u, In u (pops log) -> sel (snapshot e) u = sel d u) ->
  frozen (e :: log) (snapshot e).
Proof.
  intros F H l2 u d0 l1 Heq. destruct l2 as [|e' l2]; simpl in Heq.
  - inversion Heq; subst. simpl. auto.
  - inversion Heq; subst e' log.
    destruct (F l2 u d0 l1 eq_refl) as [F1 F2].
    assert (sel (snapshot e) u = sel d0 u) as Hs.
    { rewrite H; auto. rewrite pops_app. apply in_or_app. right. simpl. auto. }
    split; auto.
Qed.

Lemma frozen_nil (d : list Z) : frozen [] d.
Proof. intros [|e l2] u d0 l1 H; discriminate. Qed.

(* ------------------------------------------------------------------ *)
(** ** The loops of the reconstruction *)

Lemma followParents_chain (par : list Z) (l : list Z) :
  forall (fuel : nat) (u : Z) (acc : list Z),
  chain par (u :: l) -> (length (u :: l) <= fuel)%nat ->
  followParents fuel par u acc = Done (acc ++ u :: l).
Proof.
  induction l as [|x l IH]; intros fuel u acc (Hu & Hp & Hc) Hf;
    (destruct fuel as [|fuel]; [simpl in Hf; lia|]); simpl.
  - destruct (u =? -1) eqn:E; [apply Z.eqb_eq in E; lia|].
    rewrite index_in by auto. simpl. rewrite Hp.
    destruct fuel; reflexivity.
  - destruct (u =? -1) eqn:E; [apply Z.eqb_eq in E; lia|].
    rewrite index_in by auto. simpl. rewrite Hp.
    rewrite IH; auto.
    + now rewrite <- app_assoc.
    + simpl in *. lia.
Qed.

Lemma set_nth_app (l m : list Z) (k : nat) (x : Z) :
  set_nth (l ++ m) (length l + k) x = l ++ set_nth m k x.
Proof. induction l as [|y l IH]; simpl; auto. now rewrite IH. Qed.

Lemma nth_app_skip (l m : list Z) (k : nat) :
  nth (length l + k) (l ++ m) 0 = nth k m 0.
Proof. induction l as [|y l IH]; simpl; auto. Qed.

(** The swap loop reverses the slice: after [k] rounds the first and the
    last [k] entries have changed places. *)
Lemma swapLoop_rev_aux (mid : list Z) :
  forall (fuel : nat) (l r : list Z),
  (length mid <= 2 * fuel)%nat ->
  swapLoop fuel (l ++ mid ++ r) (len l) (len l + len mid - 1)
  = Done (l ++ rev mid ++ r).
Proof.
  remember (length mid) as n eqn:Hn. revert mid Hn.
  induction n as [n IH] using lt_wf_ind. intros mid Hn fuel l r Hf.
  destruct mid as [|a mid].
  - destruct fuel; simpl; rewrite Z.add_0_r;
      (destruct (len l <? len l - 1) eqn:E; [apply Z.ltb_lt in E; lia|]);
      reflexivity.
  - destruct (rev mid) as [|b mid'] eqn:Er.
    + apply (f_equal (@rev Z)) in Er. rewrite rev_involutive in Er. subst mid.
      unfold len. simpl.
      destruct fuel; simpl;
        (destruct (_ <? _) eqn:E; [apply Z.ltb_lt in E; lia|]); reflexivity.
    + apply (f_equal (@rev Z)) in Er. rewrite rev_involutive in Er.
      simpl in Er. subst mid.
      assert (length (a :: rev mid' ++ [b]) = S (S (length mid'))) as Hlen.
      { cbn [length]. rewrite length_app, length_rev. simpl. lia. }
      rewrite Hlen in *.
      destruct fuel as [|fuel]; [lia|].
      set (m := rev mid') in *.
      assert (length m = length mid') as Hm by apply length_rev.
      assert (len (a :: m ++ [b]) = len m + 2) as Hlm.
      { unfold len. rewrite Hlen. lia. }
      set (whole := l ++ (a :: m ++ [b]) ++ r).
      assert (len whole = len l + len m + 2 + len r) as Hw.
      { unfold whole, len. rewrite !length_app, Hlen. lia. }
      assert (0 <= len l /\ 0 <= len m /\ 0 <= len r) as (P1 & P2 & P3)
        by (unfold len; lia).
      assert (Z.to_nat (len l) = (length l + 0)%nat) as N1 by (unfold len; lia).
      assert (Z.to_nat (len l + len (a :: m ++ [b]) - 1)
              = (length l + S (length m + 0))%nat) as N2
        by (rewrite Hlm; unfold len; lia).
      assert (sel whole (len l) = a) as Sa.
      { unfold sel, whole. rewrite N1, nth_app_skip. reflexivity. }
      assert (sel whole (len l + len (a :: m ++ [b]) - 1) = b) as Sb.
      { unfold sel, whole. rewrite N2, nth_app_skip. cbn [app nth].
        rewrite <- app_assoc. rewrite nth_app_skip. reflexivity. }
      assert (upd (upd whole (len l) b) (len l + len (a :: m ++ [b]) - 1) a
              = (l ++ [b]) ++ m ++ (a :: r)) as Hupd.
      { unfold upd, whole. rewrite N1, N2.
        rewrite set_nth_app. cbn [app set_nth]. rewrite set_nth_app.
        cbn [set_nth]. rewrite <- app_assoc. rewrite set_nth_app.
        cbn [app set_nth]. rewrite <- app_assoc. reflexivity. }
      cbn [swapLoop].
      destruct (len l <? len l + len (a :: m ++ [b]) - 1) eqn:E;
        [|apply Z.ltb_ge in E; lia].
      rewrite index_in by lia. cbn [bind].
      rewrite index_in by lia. cbn [bind].
      rewrite store_in by lia. cbn [bind].
      rewrite store_in by (rewrite len_upd; lia). cbn [bind].
      rewrite Sa, Sb, Hupd.
      replace (len l + 1) with (len (l ++ [b]))
        by (unfold len; rewrite length_app; simpl; lia).
      replace (len l + len (a :: m ++ [b]) - 1 - 1)
        with (len (l ++ [b]) + len m - 1)
        by (rewrite Hlm; unfold len; rewrite length_app; simpl; lia).
      rewrite (IH (length m)) by lia.
      cbn [rev]. rewrite rev_app_distr. cbn [rev app].
      rewrite <- !app_assoc. reflexivity.
Qed.

Lemma swapLoop_rev (fuel : nat) (path : list Z) :
  (length path <= 2 * fuel)%nat ->
  swapLoop fuel path 0 (len path - 1) = Done (rev path).
Proof.
  intros H.
  pose proof (@swapLoop_rev_aux path fuel [] [] H) as E.
  simpl in E. rewrite !app_nil_r in E. exact E.
Qed.

(* ------------------------------------------------------------------ *)
(** ** The search keeps the invariant *)

Section Correctness.

Context {Q : Type} {DQ : DistQueue Q} {L : DistQueueLaws Q}.
Variable g : Iterator.
Variable v0 : Z.
Hypothesis Hwf : wf_graph g.
Hypothesis Hv0 : 0 <= v0 < Order g.
Hypothesis Hno : no_overflow g v0.

Lemma setup_inv (q0 : Q) :
  elems q0 = [] ->
  exists p, setup g q0 v0 = Done p /\ PInv g v0 [] [] p /\
            dist p = upd (repeat (-1) (Z.to_nat (Order g))) v0 0 /\
            parent p = repeat (-1) (Z.to_nat (Order g)).
Proof.
  intros H0. unfold setup.
  rewrite make_filled_ok by lia. cbn [bind].
  destruct (@SetDist_law _ _ L q0 (repeat (-1) (Z.to_nat (Order g))) H0) as [S1 S2].
  destruct (@Push_law _ _ L _ _ v0 0 S2) as (q1 & P1 & P2 & P3).
  { rewrite len_repeat; lia. }
  { rewrite S1. simpl. tauto. }
  rewrite P1. cbn [bind]. eexists. split; [reflexivity|].
  split; [|split; reflexivity]. split; cbn [dist parent q]; auto.
  apply Inv_perm with (E := [v0]).
  - rewrite S1 in P2. now symmetry.
  - now apply Inv_init.
Qed.

Lemma Do_inv x rest w c cur (p : pathFinder Q) :
  PInv g v0 (x :: rest) ((w, c) :: cur) p -> v p = x -> In (w, c) (Edges g x) ->
  exists p', Do p w c = Done (p', false) /\ PInv g v0 (x :: rest) cur p' /\ v p' = x /\
             (forall u, In u (x :: rest) -> sel (dist p') u = sel (dist p) u).
Proof.
  intros [I HQ] Hv He. inv_fields I. unfold Do.
  destruct (c <? 0) eqn:Ec.
  - apply Z.ltb_lt in Ec. exists p. split; auto.
    split; [split; auto; eapply Inv_skip; eauto|]. auto.
  - apply Z.ltb_ge in Ec.
    assert (0 <= x < Order g /\ 0 <= sel (dist p) x) as [Hx Hdx]
      by (apply inv_disc0; simpl; auto).
    assert (0 <= w < Order g) as Hw by (eapply Hwf; eauto).
    assert (min_int64 <= sel (dist p) x + c <= max_int64) as Hfit
      by (eapply alt_fits; eauto).
    rewrite Hv. rewrite index_in by lia. cbn [bind].
    rewrite wrap64_small by auto.
    rewrite index_in by lia. cbn [bind].
    set (alt := sel (dist p) x + c) in *.
    assert (forall u, In u (x :: rest) -> u <> w ->
              sel (upd (dist p) w alt) u = sel (dist p) u) as Hsame.
    { intros u Hu Hne. apply sel_upd_other; auto; try lia.
      apply inv_disc0; auto. }
    destruct (sel (dist p) w =? -1) eqn:E1.
    + apply Z.eqb_eq in E1.
      assert (~ (In w (x :: rest) \/ In w (elems (q p)))) as Hnd.
      { intros Hd. apply inv_disc0 in Hd. lia. }
      rewrite store_in by lia. cbn [bind].
      destruct (@Push_law _ _ L _ _ w alt HQ) as (q1 & P1 & P2 & P3); [lia|tauto|].
      rewrite P1. cbn [bind]. eexists. split; [reflexivity|].
      split; [split|split]; cbn [dist parent q v]; auto.
      * eapply Inv_relax; eauto; try tauto.
        -- intros u. split; intros Hu.
           ++ apply (Permutation_in _ P2) in Hu. simpl in Hu.
              destruct Hu; auto.
           ++ apply (Permutation_in _ (Permutation_sym P2)). simpl.
              destruct Hu; auto.
        -- apply (Permutation_NoDup (Permutation_sym P2)).
           constructor; [tauto|auto].
      * intros u Hu. apply Hsame; auto. intros ->. tauto.
    + apply Z.eqb_neq in E1.
      assert (In w (x :: rest) \/ In w (elems (q p))) as Hd.
      { destruct (in_dec Z.eq_dec w (x :: rest)); auto.
        destruct (in_dec Z.eq_dec w (elems (q p))); auto.
        exfalso. apply E1. apply inv_undisc0; auto. tauto. }
      destruct (alt <? sel (dist p) w) eqn:E2.
      * apply Z.ltb_lt in E2.
        assert (~ In w (x :: rest)) as Hnp.
        { intros Hp.
          assert (sel (dist p) w <= sel (dist p) x); [|lia].
          destruct Hp as [<-|Hp]; [lia|].
          apply inv_sorted0; simpl; auto. now rewrite Z.eqb_refl. }
        assert (In w (elems (q p))) as Hq by tauto.
        rewrite store_in by lia. cbn [bind].
        destruct (@Fix_law _ _ L _ _ w alt HQ) as (q1 & P1 & P2 & P3);
          [lia|auto|lia|].
        rewrite P1. cbn [bind]. eexists. split; [reflexivity|].
        split; [split|split]; cbn [dist parent q v]; auto.
        -- eapply Inv_relax; eauto.
           ++ intros u. split; intros Hu.
              ** right. apply (Permutation_in _ P2). auto.
              ** apply (Permutation_in _ (Permutation_sym P2)).
                 destruct Hu as [->|Hu]; auto.
           ++ apply (Permutation_NoDup (Permutation_sym P2)). auto.
        -- intros u Hu. apply Hsame; auto. intros ->. tauto.
      * apply Z.ltb_ge in E2. exists p. split; auto.
        split; [split; auto|auto].
        eapply Inv_keep; eauto.
Qed.

Lemma visit_inv x rest :
  forall cur (p : pathFinder Q) log,
  PInv g v0 (x :: rest) cur p -> v p = x -> incl cur (Edges g x) ->
  pops log = x :: rest -> frozen log (dist p) ->
  exists p' log', visit_edges cur logDo (p, log) = Done (p', log') /\
     PInv g v0 (x :: rest) [] p' /\ pops log' = x :: rest /\ frozen log' (dist p').
Proof.
  induction cur as [|[w c] cur IH]; intros p log HI Hv Hin Hp HF.
  - simpl. eauto 10.
  - destruct (Do_inv HI Hv) as (p' & D1 & D2 & D3 & D4).
    { apply Hin. now left. }
    simpl. unfold logDo at 1. cbn [fst snd]. rewrite D1. cbn [bind].
    apply IH; auto.
    + intros e He. apply Hin. now right.
    + change (dist p') with (snapshot (EvRelax (v p) w c (dist p'))).
      apply frozen_cons with (d := dist p); auto.
      intros u Hu. simpl. apply D4. now rewrite <- Hp.
Qed.

Lemma mainLoop_inv (target : option Z) :
  forall fuel popped (p : pathFinder Q) log,
  PInv g v0 popped [] p -> pops log = popped -> frozen log (dist p) ->
  (forall w, target = Some w -> ~ In w popped) ->
  (Z.to_nat (Order g) - length popped <= fuel)%nat ->
  exists p' log' popped' cur,
    mainLoop fuel g target p log = Done (p', log') /\
    PInv g v0 popped' cur p' /\ pops log' = popped' /\ frozen log' (dist p') /\
    finished g target popped' cur p'.
Proof.
  induction fuel as [|fuel IH]; intros popped p log [I HQ] Hp HF Ht Hfuel;
    inv_fields I;
    pose proof (Len_law _ _ HQ) as HL;
    destruct (elems (q p)) as [|y E0] eqn:EE.
  1, 3: exists p, log, popped, []; cbn [mainLoop]; rewrite HL; simpl;
    (split; [reflexivity|]);
    (split; [split; auto; rewrite EE; auto|]);
    split; auto; split; auto; left; auto.
  - exfalso.
    assert (Z.of_nat (length (y :: popped)) <= Order g).
    { apply bounded_nodup_length; [lia| |].
      - constructor; auto. intros Hy. apply (inv_disjoint0 y Hy). now left.
      - intros u [<-|Hu]; apply inv_disc0; simpl; auto. }
    cbn [length] in *. lia.
  - assert (Z.of_nat (length (y :: popped)) <= Order g) as Hlen.
    { apply bounded_nodup_length; [lia| |].
      - constructor; auto. intros Hy. apply (inv_disjoint0 y Hy). now left.
      - intros u [<-|Hu]; apply inv_disc0; simpl; auto. }
    destruct (@Pop_law _ _ L _ _ HQ) as (u & q1 & P1 & P2 & P3 & P4).
    { rewrite EE. discriminate. }
    rewrite EE in P2, P3.
    pose proof (Inv_pop I P2 P3) as I1.
    cbn [mainLoop]. rewrite HL. cbn [length].
    destruct (Z.of_nat (S (length E0)) >? 0) eqn:EL;
      [|rewrite Z.gtb_ltb in EL; apply Z.ltb_ge in EL; lia].
    rewrite P1. cbn [bind].
    assert (frozen (EvPop u (dist p) :: log) (dist p)) as HF1.
    { change (dist p) with (snapshot (EvPop u (dist p))) at 2.
      apply frozen_cons with (d := dist p); auto. }
    destruct (match target with Some w => u =? w | None => false end) eqn:ET.
    + destruct target as [w|]; [|discriminate]. apply Z.eqb_eq in ET. subst w.
      eexists. eexists. exists (u :: popped), (Edges g u).
      split; [reflexivity|]. split; [split; cbn [dist parent q]; auto|].
      split; [simpl; congruence|]. split; auto.
      right. eauto.
    + destruct (@visit_inv u popped (Edges g u)
                  {| dist := dist p; parent := parent p; q := q1; v := u |}
                  (EvPop u (dist p) :: log))
        as (p2 & log2 & V1 & V2 & V3 & V4); auto.
      { split; auto. }
      { apply incl_refl. }
      { simpl. congruence. }
      unfold Visit. rewrite V1. cbn [bind].
      apply IH with (popped := u :: popped); auto.
      * intros w Hw [<-|Hin]; [|eapply Ht; eauto].
        subst target. now rewrite Z.eqb_refl in ET.
      * cbn [length] in *. lia.
Qed.

End Correctness.

(* ------------------------------------------------------------------ *)
(** ** What a finished search has computed *)

Section Results.

Context {Q : Type} {DQ : DistQueue Q} {L : DistQueueLaws Q}.
Variable g : Iterator.
Variable v0 : Z.
Hypothesis Hwf : wf_graph g.
Hypothesis Hv0 : 0 <= v0 < Order g.
Hypothesis Hno : no_overflow g v0.

Lemma search_ok (q0 : Q) (target : option Z) (fuel : nat) :
  elems q0 = [] -> (Z.to_nat (Order g) <= fuel)%nat ->
  exists p log popped cur,
    search fuel g q0 target v0 = Done (p, log) /\
    PInv g v0 popped cur p /\ pops log = popped /\ frozen log (dist p) /\
    finished g target popped cur p.
Proof.
  intros H0 Hf. unfold search.
  destruct (@setup_inv _ _ L g v0 Hv0 q0 H0) as (p0 & S1 & S2 & _).
  rewrite S1. cbn [bind].
  apply mainLoop_inv with (popped := []); auto.
  - apply frozen_nil.
  - simpl. lia.
Qed.

(** Paths written forwards, for the statements. *)
Lemma path_to_rpath (p : list Z) (d w : Z) :
  path_weight g p d -> first_is p v0 -> last_is p w ->
  exists l, rpath g v0 (w :: l) d.
Proof.
  intros H Hf Hl. pose proof (path_rpath H Hf) as R.
  unfold last_is in Hl. destruct (rev p) as [|a l]; [discriminate|].
  inversion Hl; subst. eauto.
Qed.

Lemma rpath_to_path (l : list Z) (d w : Z) :
  rpath g v0 (w :: l) d ->
  path_weight g (rev (w :: l)) d /\ first_is (rev (w :: l)) v0 /\
  last_is (rev (w :: l)) w.
Proof.
  intros H. destruct (rpath_path H) as [H1 H2]. split; auto. split; auto.
  unfold last_is. now rewrite rev_involutive.
Qed.

(** After the whole search: the distances of the vertices that were
    reached are weights of paths and are least, and the other vertices
    cannot be reached. *)
Lemma finished_all popped (p : pathFinder Q) :
  PInv g v0 popped [] p -> elems (q p) = [] ->
  forall w, 0 <= w < Order g ->
    (sel (dist p) w = -1 /\ ~ reachable g v0 w) \/
    (0 <= sel (dist p) w /\ In w popped /\
     (exists l, rpath g v0 (w :: l) (sel (dist p) w) /\ chain (parent p) (w :: l) /\
                (length (w :: l) <= Z.to_nat (Order g))%nat) /\
     (forall l dd, rpath g v0 (w :: l) dd -> sel (dist p) w <= dd)).
Proof.
  intros [I HQ] HE w Hw. rewrite HE in I. inv_fields I.
  destruct (in_dec Z.eq_dec w popped) as [Hin|Hout].
  - right. split; [apply inv_disc0; auto|]. split; auto. split.
    + destruct (@tree_walk _ _ _ _ _ _ _ I (length popped) w Hin)
        as (l & W1 & W2 & W3).
      { pose proof (older_shorter _ _ Hin). lia. }
      exists l. split; auto. split; auto.
      pose proof (older_shorter _ _ Hin).
      assert (Z.of_nat (length popped) <= Order g).
      { apply bounded_nodup_length; auto; try lia.
        intros u Hu. apply inv_disc0. auto. }
      lia.
    + intros l dd R. eapply popped_optimal; eauto.
  - left. split.
    + apply inv_undisc0; auto. simpl. tauto.
    + intros (pp & dd & P1 & P2 & P3).
      destruct (path_to_rpath P1 P2 P3) as (l & R).
      apply Hout. eapply search_complete; eauto.
Qed.

(** After the search for one target. *)
Lemma finished_target popped cur (p : pathFinder Q) (w : Z) :
  PInv g v0 popped cur p -> finished g (Some w) popped cur p ->
  0 <= w < Order g ->
    (sel (dist p) w = -1 /\ ~ reachable g v0 w) \/
    (0 <= sel (dist p) w /\
     (exists l, rpath g v0 (w :: l) (sel (dist p) w) /\ chain (parent p) (w :: l) /\
                (length (w :: l) <= Z.to_nat (Order g))%nat) /\
     (forall l dd, rpath g v0 (w :: l) dd -> sel (dist p) w <= dd)).
Proof.
  intros HI [(HE & -> & Hn)|(w' & rest & Ht & -> & ->)] Hw.
  - destruct (finished_all HI HE Hw) as [H|(H1 & H2 & H3 & H4)]; auto.
  - inversion Ht; subst w'. destruct HI as [I HQ]. inv_fields I.
    right. split; [apply inv_disc0; simpl; auto|]. split.
    + destruct (@tree_walk _ _ _ _ _ _ _ I (length rest) w (or_introl eq_refl))
        as (l & W1 & W2 & W3).
      { simpl. rewrite Z.eqb_refl. lia. }
      exists l. split; auto. split; auto.
      simpl in W3. rewrite Z.eqb_refl in W3.
      assert (Z.of_nat (length (w :: rest)) <= Order g).
      { apply bounded_nodup_length; auto; try lia.
        intros u Hu. apply inv_disc0. auto. }
      cbn [length] in *. lia.
    + intros l dd R. eapply popped_optimal; eauto. simpl. auto.
Qed.

End Results.

Section Reconstruction.

Context {Q : Type} {DQ : DistQueue Q} {L : DistQueueLaws Q}.
Variable g : Iterator.
Variable v0 : Z.
Hypothesis Hwf : wf_graph g.
Hypothesis Hv0 : 0 <= v0 < Order g.
Hypothesis Hno : no_overflow g v0.

(** The result of the search for one target, in full. *)
Lemma ShortestPathWithQueue_ok (q0 : Q) (w : Z) (fuel : nat) :
  elems q0 = [] -> 0 <= w < Order g -> (Z.to_nat (Order g) <= fuel)%nat ->
  exists path d,
    ShortestPathWithQueue fuel g q0 v0 w = Done (path, d) /\
    ((d = -1 /\ path = [] /\ ~ reachable g v0 w) \/
     (0 <= d /\ path_weight g path d /\ first_is path v0 /\ last_is path w /\
      forall p' d', path_weight g p' d' -> first_is p' v0 -> last_is p' w ->
                    d <= d')).
Proof.
  intros H0 Hw Hf.
  destruct (@search_ok _ _ L g v0 Hwf Hv0 Hno q0 (Some w) fuel H0 Hf)
    as (p & log & popped & cur & S1 & S2 & S3 & S4 & S5).
  unfold ShortestPathWithQueue, shortestPathWithQueue.
  rewrite S1. cbn [bind].
  assert (len (dist p) = Order g) as Hl by (destruct S2 as [I _]; apply I).
  rewrite index_in by lia. cbn [bind].
  destruct (finished_target Hv0 S2 S5 Hw)
    as [[E1 E2]|(E1 & (l & W1 & W2 & W3) & E3)].
  - rewrite E1. simpl. eexists. eexists. split; [reflexivity|]. left. auto.
  - destruct (sel (dist p) w =? -1) eqn:E; [apply Z.eqb_eq in E; lia|].
    rewrite (@followParents_chain (parent p) l fuel w [] W2) by lia.
    cbn [bind app].
    rewrite swapLoop_rev by lia. cbn [bind].
    eexists. eexists. split; [reflexivity|]. right.
    destruct (@rpath_to_path g v0 l _ w W1) as (R1 & R2 & R3).
    split; auto. split; auto. split; auto. split; auto.
    intros p' d' P1 P2 P3.
    destruct (@path_to_rpath g v0 p' d' w P1 P2 P3) as (l' & R). eauto.
Qed.

End Reconstruction.

Section AllTargets.

Context {dijkstraQueue : Type} {DQ : DistQueue dijkstraQueue}
        {ZQ : ZeroQueue dijkstraQueue}
        {L : DistQueueLaws dijkstraQueue} {ZL : ZeroQueueLaws dijkstraQueue}.
Variable g : Iterator.
Variable v0 : Z.
Hypothesis Hwf : wf_graph g.
Hypothesis Hv0 : 0 <= v0 < Order g.
Hypothesis Hno : no_overflow g v0.

(** The result of [ShortestPaths], in full. *)
Lemma ShortestPaths_ok (fuel : nat) :
  (Z.to_nat (Order g) <= fuel)%nat ->
  exists p log popped,
    search fuel g (zeroQueue : dijkstraQueue) None v0 = Done (p, log) /\
    ShortestPaths_log fuel g v0 = Done (parent p, dist p, rev log) /\
    ShortestPaths fuel g v0 = Done (parent p, dist p) /\
    PInv g v0 popped [] p /\ elems (q p) = [] /\
    pops log = popped /\ frozen log (dist p).
Proof.
  intros Hf.
  destruct (@search_ok _ _ L g v0 Hwf Hv0 Hno zeroQueue None fuel zero_empty Hf)
    as (p & log & popped & cur & S1 & S2 & S3 & S4 & S5).
  exists p, log, popped.
  unfold ShortestPaths, ShortestPaths_log. rewrite S1. cbn [bind].
  destruct S5 as [(E1 & -> & _)|(w & rest & Ht & _)]; [|discriminate].
  auto 10.
Qed.

Lemma ShortestPaths_dist (fuel : nat) :
  (Z.to_nat (Order g) <= fuel)%nat ->
  exists parent dist,
    ShortestPaths fuel g v0 = Done (parent, dist) /\
    forall w, 0 <= w < Order g ->
      (sel dist w = -1 /\ ~ reachable g v0 w) \/
      (0 <= sel dist w /\
       (exists l, rpath g v0 (w :: l) (sel dist w) /\ chain parent (w :: l) /\
                  (length (w :: l) <= Z.to_nat (Order g))%nat) /\
       (forall l dd, rpath g v0 (w :: l) dd -> sel dist w <= dd)).
Proof.
  intros Hf.
  destruct (ShortestPaths_ok Hf) as (p & log & popped & _ & _ & S & I & E & _).
  exists (parent p), (dist p). split; auto.
  intros w Hw.
  destruct (finished_all Hv0 I E Hw) as [H|(H1 & _ & H2 & H3)]; auto.
Qed.

End AllTargets.

(* ------------------------------------------------------------------ *)
(** ** Checks on graphs given by adjacency lists *)

Unset Implicit Arguments.

Lemma graph_of_edges (adj : list (list (Z * Z))) (u w c : Z) :
  In (w, c) (Edges (graph_of adj) u) ->
  exists es, In es adj /\ In (w, c) es.
Proof.
  simpl. destruct (u <? 0); [contradiction|].
  intros H. destruct (nth_in_or_default (Z.to_nat u) adj []) as [Hn|Hn].
  - eauto.
  - rewrite Hn in H. contradiction.
Qed.

Lemma graph_of_all (f : Z * Z -> bool) (adj : list (list (Z * Z))) :
  forallb (forallb f) adj = true ->
  forall u w c, In (w, c) (Edges (graph_of adj) u) -> f (w, c) = true.
Proof.
  intros H u w c He. destruct (graph_of_edges adj u w c He) as (es & H1 & H2).
  rewrite forallb_forall in H. specialize (H es H1).
  rewrite forallb_forall in H. exact (H (w, c) H2).
Qed.

Lemma graph_of_nonneg (adj : list (list (Z * Z))) :
  forallb (forallb (fun e => 0 <=? snd e)) adj = true ->
  forall u w c, In (w, c) (Edges (graph_of adj) u) -> 0 <= c.
Proof.
  intros H u w c He. apply Z.leb_le.
  exact (graph_of_all (fun e => 0 <=? snd e) adj H u w c He).
Qed.

Lemma graph_of_wf (adj : list (list (Z * Z))) :
  adj_ok adj = true -> wf_graph (graph_of adj) /\ int64_costs (graph_of adj).
Proof.
  intros H. unfold adj_ok in H. rewrite forallb_forall in H.
  assert (forall u w c, In (w, c) (Edges (graph_of adj) u) ->
            0 <= w < Order (graph_of adj) /\ min_int64 <= c <= max_int64) as K.
  { intros u w c He. destruct (graph_of_edges adj u w c He) as (es & H1 & H2).
    specialize (H es H1). unfold edges_ok in H. rewrite forallb_forall in H.
    specialize (H (w, c) H2). simpl in H.
    rewrite !andb_true_iff, !Z.leb_le, Z.ltb_lt in H. simpl. lia. }
  split.
  - intros u w c _ He _. apply (K u w c He).
  - intros u w c _ He. apply (K u w c He).
Qed.

Lemma graph_of_no_overflow (adj : list (list (Z * Z))) (M v0 : Z) :
  adj_bounded M adj = true -> 0 <= M ->
  Z.of_nat (length adj) * M <= max_int64 ->
  no_overflow (graph_of adj) v0.
Proof.
  intros H HM Hn. apply bounded_no_overflow with (M := M); auto.
  intros u w c He. destruct (graph_of_edges adj u w c He) as (es & H1 & H2).
  unfold adj_bounded in H. rewrite forallb_forall in H.
  specialize (H es H1). rewrite forallb_forall in H.
  specialize (H (w, c) H2). simpl in H. now apply Z.leb_le.
Qed.

Lemma scenario1_wf : wf_graph scenario1.
Proof. apply graph_of_wf. reflexivity. Qed.

Lemma scenario1_no_overflow (v0 : Z) : no_overflow scenario1 v0.
Proof.
  apply graph_of_no_overflow with (M := 4); [reflexivity|lia|].
  unfold max_int64. simpl. lia.
Qed.

Lemma path_weight_nonneg (g : Iterator) (p : list Z) (d : Z) :
  path_weight g p d -> 0 <= d.
Proof. induction 1; lia. Qed.

(* ------------------------------------------------------------------ *)
(** ** Runs that every queue reproduces: the simulation *)

Lemma mem_In (u : Z) (l : list Z) : mem u l = true <-> In u l.
Proof.
  unfold mem. rewrite existsb_exists. split.
  - intros (x & Hx & E). apply Z.eqb_eq in E. now subst.
  - intros H. exists u. split; auto. apply Z.eqb_refl.
Qed.

Section Simulation.

Context {Q : Type} {DQ : DistQueue Q} {L : DistQueueLaws Q}.

Lemma sim_Do (pQ : pathFinder Q) (pS : pathFinder strictQueue) (w c : Z) :
  sim pQ pS -> follows sim_skip (Do pQ w c) (Do pS w c).
Proof.
  destruct pQ as [d par qQ u], pS as [dS parS qS uS].
  unfold sim. cbn [dist parent q v].
  intros (<- & <- & <- & HP & HN & HQ). unfold Do. cbn [dist parent q v].
  destruct (c <? 0).
  { simpl. eexists. split; [reflexivity|]. repeat split; auto. }
  destruct (index d u) as [dv| |]; cbn [bind follows]; auto.
  destruct (index d w) as [dw| |]; cbn [bind follows]; auto.
  set (alt := wrap64 (dv + c)).
  destruct (dw =? -1).
  - destruct (store par w u) as [par'| |]; cbn [bind follows]; auto.
    cbn [Push strictQueue_DistQueue].
    destruct (in_bounds d w && negb (mem w (sitems qS))) eqn:E;
      cbn [bind follows]; auto.
    apply andb_true_iff in E. destruct E as [E1 E2].
    apply in_bounds_iff in E1. apply negb_true_iff in E2.
    assert (~ In w (sitems qS)) as Hn.
    { intros Hin. apply mem_In in Hin. congruence. }
    destruct (@Push_law _ _ L qQ d w alt HQ E1) as (q1 & P1 & P2 & P3).
    { intros Hin. apply Hn. eapply Permutation_in; eauto. }
    rewrite P1. cbn [bind].
    eexists. split; [reflexivity|].
    split; [|reflexivity]. cbn [fst]. unfold sim. cbn [dist parent q v sitems].
    repeat split; auto.
    + apply (perm_trans P2). apply Permutation_cons_app.
      rewrite app_nil_r. exact HP.
    + apply (Permutation_NoDup (l := w :: sitems qS)).
      * apply Permutation_cons_app. now rewrite app_nil_r.
      * constructor; auto.
  - destruct (alt <? dw); cbn [follows].
    + destruct (store par w u) as [par'| |]; cbn [bind follows]; auto.
      cbn [Fix strictQueue_DistQueue].
      destruct (in_bounds d w && mem w (sitems qS) && (alt <=? sel d w)) eqn:E;
        cbn [bind follows]; auto.
      rewrite !andb_true_iff in E. destruct E as [[E1 E2] E3].
      apply in_bounds_iff in E1. apply mem_In in E2. apply Z.leb_le in E3.
      destruct (@Fix_law _ _ L qQ d w alt HQ E1) as (q1 & P1 & P2 & P3); auto.
      { eapply Permutation_in; [symmetry|]; eauto. }
      rewrite P1. cbn [bind].
      eexists. split; [reflexivity|].
      split; [|reflexivity]. cbn [fst]. unfold sim. cbn [dist parent q v sitems].
      repeat split; auto.
      apply (perm_trans P2). exact HP.
    + eexists. split; [reflexivity|]. repeat split; auto.
Qed.

Lemma sim_visit (es : list (Z * Z)) :
  forall (pQ : pathFinder Q) (pS : pathFinder strictQueue) (log : list event),
  sim pQ pS ->
  follows sim_log (visit_edges es logDo (pQ, log)) (visit_edges es logDo (pS, log)).
Proof.
  induction es as [|[w c] es IH]; intros pQ pS log HS; cbn [visit_edges].
  - simpl. eexists. split; [reflexivity|]. split; auto.
  - unfold logDo at 1 3. cbn [fst snd].
    pose proof (sim_Do pQ pS w c HS) as HD.
    destruct (Do pS w c) as [[pS' skip]| |]; cbn [bind follows] in *; auto.
    + destruct HD as ([pQ' skip'] & E & HS' & Hk). cbn [fst snd] in *. subst skip'.
      rewrite E. cbn [bind].
      assert (dist pQ' = dist pS' /\ v pQ = v pS) as [Ed Ev].
      { destruct HS' as (Ed & _). destruct HS as (_ & _ & Ev & _). auto. }
      rewrite Ed, Ev.
      destruct skip.
      * simpl. eexists. split; [reflexivity|]. split; auto.
      * apply IH. exact HS'.
    + rewrite HD. reflexivity.
Qed.

Lemma sim_mainLoop (g : Iterator) (target : option Z) :
  forall (fuel : nat) (pQ : pathFinder Q) (pS : pathFinder strictQueue)
         (log : list event),
  sim pQ pS ->
  follows sim_log (mainLoop fuel g target pQ log) (mainLoop fuel g target pS log).
Proof.
  induction fuel as [|fuel IH];
    intros [d par qQ u] [dS parS qS uS] log HS;
    pose proof HS as HS0; revert HS0;
    unfold sim at 1; cbn [dist parent q v];
    intros (<- & <- & <- & HP & HN & HQ);
    cbn [mainLoop dist parent q v]; rewrite (Len_law _ _ HQ);
    rewrite (Permutation_length HP);
    change (Len qS) with (Z.of_nat (length (sitems qS)));
    destruct (Z.of_nat (length (sitems qS)) >? 0) eqn:EL;
    try (simpl; eexists; split; [reflexivity|]; split; auto; fail).
  - reflexivity.
  - cbn [Pop strictQueue_DistQueue].
    destruct (sitems qS) as [|x r] eqn:EI; cbn [bind follows]; auto.
    set (m := argmin d x r).
    destruct (least_alone d m (x :: r)) eqn:EA; cbn [bind follows]; auto.
    destruct (@Pop_law _ _ L qQ d HQ) as (y & q1 & P1 & P2 & P3 & P4).
    { intros E0. rewrite E0 in HP. apply Permutation_nil in HP. discriminate. }
    assert (In m (x :: r)) as Hm by apply argmin_In.
    assert (y = m) as ->.
    { assert (In y (x :: r)) as Hy.
      { apply (Permutation_in _ HP). apply (Permutation_in _ (Permutation_sym P2)).
        simpl. auto. }
      unfold least_alone in EA. rewrite forallb_forall in EA.
      specialize (EA y Hy). apply orb_true_iff in EA.
      destruct EA as [EA|EA]; [now apply Z.eqb_eq in EA|].
      apply Z.ltb_lt in EA.
      assert (sel d y <= sel d m); [|lia].
      apply P3. apply (Permutation_in _ (Permutation_sym HP)). exact Hm. }
    rewrite P1. cbn [bind].
    assert (Permutation (elems q1) (remove1 m (x :: r))) as HP1.
    { apply Permutation_cons_inv with (a := m).
      apply (perm_trans (Permutation_sym P2)). apply (perm_trans HP).
      now apply remove1_perm. }
    assert (NoDup (remove1 m (x :: r))) as HN1.
    { pose proof (Permutation_NoDup (remove1_perm m (x :: r) Hm) HN) as K.
      now inversion K. }
    destruct (match target with Some w => m =? w | None => false end).
    + simpl. eexists. split; [reflexivity|]. split; [|reflexivity].
      cbn [fst]. unfold sim. cbn [dist parent q v sitems]. repeat split; auto.
    + unfold Visit.
      match goal with
      | |- follows _ (bind (visit_edges ?es _ (?a, ?l)) _)
                     (bind (visit_edges _ _ (?b, _)) _) =>
          assert (sim a b) as HS1
            by (unfold sim; cbn [dist parent q v sitems]; repeat split; auto);
          pose proof (sim_visit es a b l HS1) as HV;
          destruct (visit_edges es logDo (b, l)) as [[pS2 l2]| |];
          cbn [bind follows] in *; auto
      end.
      * destruct HV as ([pQ2 l2'] & E & HS2 & El). cbn [fst snd] in *. subst l2'.
        rewrite E. cbn [bind]. apply IH. exact HS2.
      * rewrite HV. reflexivity.
Qed.

Lemma sim_setup (g : Iterator) (q0 : Q) (v0 : Z) :
  elems q0 = [] ->
  follows sim (setup g q0 v0) (setup g (zeroQueue : strictQueue) v0).
Proof.
  intros H0. unfold setup.
  destruct (make_filled (Order g) (-1)) as [d0| |]; cbn [bind follows]; auto.
  cbn [Push SetDist strictQueue_DistQueue zeroQueue strictQueue_Zero sitems].
  destruct (in_bounds d0 v0 && negb (mem v0 [])) eqn:E; cbn [bind follows]; auto.
  apply andb_true_iff in E. destruct E as [E1 _]. apply in_bounds_iff in E1.
  destruct (@SetDist_law _ _ L q0 d0 H0) as [S1 S2].
  destruct (@Push_law _ _ L _ _ v0 0 S2 E1) as (q1 & P1 & P2 & P3).
  { rewrite S1. simpl. tauto. }
  rewrite P1. cbn [bind]. eexists. split; [reflexivity|].
  repeat split; cbn [dist parent q v sitems]; auto.
  - rewrite P2, S1. reflexivity.
  - simpl. repeat constructor. simpl. tauto.
Qed.

Lemma sim_search (fuel : nat) (g : Iterator) (q0 : Q) (target : option Z)
    (v0 : Z) :
  elems q0 = [] ->
  follows sim_log (search fuel g q0 target v0)
                  (search fuel g (zeroQueue : strictQueue) target v0).
Proof.
  intros H0. unfold search. pose proof (sim_setup g q0 v0 H0) as HS.
  destruct (setup g (zeroQueue : strictQueue) v0) as [pS| |];
    cbn [bind follows] in *; auto.
  - destruct HS as (pQ & E & HS). rewrite E. cbn [bind].
    now apply sim_mainLoop.
  - rewrite HS. reflexivity.
Qed.

End Simulation.

Section Transfer.

Context {Q : Type} {DQ : DistQueue Q} {L : DistQueueLaws Q}.

Lemma transfer_ShortestPathWithQueue (fuel : nat) (g : Iterator) (q0 : Q)
    (v0 w : Z) (r : outcome (list Z * Z)) :
  elems q0 = [] ->
  ShortestPathWithQueue fuel g (zeroQueue : strictQueue) v0 w = r ->
  r <> Panic ->
  ShortestPathWithQueue fuel g q0 v0 w = r.
Proof.
  intros H0 <- Hr. revert Hr.
  unfold ShortestPathWithQueue, shortestPathWithQueue.
  pose proof (sim_search fuel g q0 (Some w) v0 H0) as HS.
  destruct (search fuel g (zeroQueue : strictQueue) (Some w) v0)
    as [[pS log]| |]; cbn [bind follows] in *.
  - destruct HS as ([pQ log'] & E & (Hd & Hp & _) & _). cbn [fst] in *.
    rewrite E. cbn [bind]. now rewrite Hd, Hp.
  - congruence.
  - now rewrite HS.
Qed.

Context {ZQ : ZeroQueue Q} {ZL : ZeroQueueLaws Q}.

Lemma transfer_ShortestPaths_log (fuel : nat) (g : Iterator) (v0 : Z)
    (r : outcome (list Z * list Z * list event)) :
  ShortestPaths_log (dijkstraQueue := strictQueue) fuel g v0 = r ->
  r <> Panic ->
  ShortestPaths_log (dijkstraQueue := Q) fuel g v0 = r.
Proof.
  intros <- Hr. revert Hr. unfold ShortestPaths_log.
  pose proof (sim_search fuel g (zeroQueue : Q) None v0 zero_empty) as HS.
  destruct (search fuel g (zeroQueue : strictQueue) None v0)
    as [[pS log]| |]; cbn [bind follows] in *.
  - destruct HS as ([pQ log'] & E & (Hd & Hp & _) & El). cbn [fst snd] in *.
    rewrite E. cbn [bind]. now rewrite Hd, Hp, El.
  - congruence.
  - now rewrite HS.
Qed.

Lemma transfer_ShortestPaths (fuel : nat) (g : Iterator) (v0 : Z)
    (r : outcome (list Z * list Z)) :
  ShortestPaths (dijkstraQueue := strictQueue) fuel g v0 = r ->
  r <> Panic ->
  ShortestPaths (dijkstraQueue := Q) fuel g v0 = r.
Proof.
  intros <- Hr. revert Hr. unfold ShortestPaths.
  destruct (ShortestPaths_log (dijkstraQueue := strictQueue) fuel g v0)
    as [[r l]| |] eqn:E; cbn [bind]; intros Hr.
  - rewrite (transfer_ShortestPaths_log fuel g v0 _ E); [reflexivity|discriminate].
  - congruence.
  - rewrite (transfer_ShortestPaths_log fuel g v0 _ E); [reflexivity|discriminate].
Qed.

Lemma transfer_ShortestPath (fuel : nat) (g : Iterator) (v0 w : Z)
    (r : outcome (list Z * Z)) :
  ShortestPath (dijkstraQueue := strictQueue) fuel g v0 w = r ->
  r <> Panic ->
  ShortestPath (dijkstraQueue := Q) fuel g v0 w = r.
Proof.
  intros E Hr. unfold ShortestPath.
  apply transfer_ShortestPathWithQueue; auto; apply zero_empty.
Qed.

End Transfer.

(* ------------------------------------------------------------------ *)
(** ** The claims *)

(** C1 (as amended).  When no sum of the search leaves [int64]
    ([no_overflow]: the paths from the source with at most [Order] edges
    have a weight that fits), [ShortestPaths g v] returns, and for every
    vertex [w] with [dist[w] != -1], [dist[w]] is the weight of a path
    from [v] to [w] over edges of non-negative cost, and no such path
    weighs less. *)
Theorem ShortestPaths_optimal
    {dijkstraQueue : Type} {DQ : DistQueue dijkstraQueue}
    {ZQ : ZeroQueue dijkstraQueue} {L : DistQueueLaws dijkstraQueue}
    {ZL : ZeroQueueLaws dijkstraQueue}
    (g : Iterator) (v0 : Z) (fuel : nat) :
  wf_graph g -> 0 <= v0 < Order g -> no_overflow g v0 ->
  (Z.to_nat (Order g) <= fuel)%nat ->
  exists parent dist,
    ShortestPaths fuel g v0 = Done (parent, dist) /\
    forall w, 0 <= w < Order g -> sel dist w <> -1 ->
      (exists p, path_weight g p (sel dist w) /\ first_is p v0 /\ last_is p w) /\
      (forall p d, path_weight g p d -> first_is p v0 -> last_is p w ->
                   sel dist w <= d).
Proof.
  intros Hwf Hv0 Hno Hf.
  destruct (@ShortestPaths_dist _ _ _ L ZL g v0 Hwf Hv0 Hno fuel Hf)
    as (parent & dist & S & H).
  exists parent, dist. split; auto.
  intros w Hw Hd.
  destruct (H w Hw) as [[E _]|(_ & (l & W & _) & Hopt)]; [contradiction|].
  split.
  - exists (rev (w :: l)). now apply rpath_to_path.
  - intros p d P1 P2 P3.
    destruct (path_to_rpath P1 P2 P3) as (l' & R). eauto.
Qed.

Lemma ShortestPaths_optimal_witness :
  exists parent dist,
    ShortestPaths (dijkstraQueue := scanQueue) 5 scenario1 0 = Done (parent, dist) /\
    forall w, 0 <= w < Order scenario1 -> sel dist w <> -1 ->
      (exists p, path_weight scenario1 p (sel dist w) /\ first_is p 0 /\ last_is p w) /\
      (forall p d, path_weight scenario1 p d -> first_is p 0 -> last_is p w ->
                   sel dist w <= d).
Proof.
  apply (ShortestPaths_optimal (dijkstraQueue := scanQueue)).
  - exact scenario1_wf.
  - simpl. lia.
  - apply scenario1_no_overflow.
  - simpl. lia.
Defined.

(** C1 fails as stated: on [overflow3] the sum for vertex 2 wraps around,
    and [dist[2]] is negative, which no path weighs.  This is so with
    every queue that satisfies the contract. *)
Lemma ShortestPaths_optimal_counterexample :
  wf_graph overflow3 /\ int64_costs overflow3 /\
  every_queue (fun Q DQ ZQ =>
    @ShortestPaths Q DQ ZQ 10 overflow3 0
    = Done ([-1; 0; 1], [0; max_int64; min_int64 + 1])) /\
  sel [0; max_int64; min_int64 + 1] 2 <> -1 /\
  forall p, ~ path_weight overflow3 p (sel [0; max_int64; min_int64 + 1] 2).
Proof.
  split; [apply graph_of_wf; reflexivity|].
  split; [apply graph_of_wf; reflexivity|].
  split.
  { intros Q DQ ZQ L ZL.
    apply transfer_ShortestPaths; [vm_compute; reflexivity|discriminate]. }
  split; [vm_compute; discriminate|].
  intros p H. apply path_weight_nonneg in H. vm_compute in H. auto.
Qed.

(** *** Negative costs *)

Lemma filter_remove_nth {A : Type} (f : A -> bool) (l : list A) (k : nat) (e : A) :
  nth_error l k = Some e -> f e = false ->
  filter f (remove_nth k l) = filter f l.
Proof.
  revert k. induction l as [|a l IH]; intros [|k] H Hf; simpl in H; try discriminate.
  - inversion H; subst. unfold remove_nth. simpl. now rewrite Hf.
  - change (remove_nth (S k) (a :: l)) with (a :: remove_nth k l).
    simpl. rewrite (IH k H Hf). reflexivity.
Qed.

Section Skipping.

Context {Q : Type} {DQ : DistQueue Q}.

Lemma Do_negative (p : pathFinder Q) (w c : Z) :
  c < 0 -> Do p w c = Done (p, false).
Proof.
  intros H. unfold Do. destruct (c <? 0) eqn:E; auto.
  apply Z.ltb_ge in E. lia.
Qed.

Lemma visit_nonneg (es : list (Z * Z)) :
  forall (p : pathFinder Q) (log log' : list event),
  result_of (visit_edges es logDo (p, log))
  = result_of (visit_edges (filter nonneg_cost es) logDo (p, log')).
Proof.
  induction es as [|[w c] es IH]; intros p log log'; [reflexivity|].
  cbn [filter]. unfold nonneg_cost at 1. cbn [snd].
  destruct (0 <=? c) eqn:E.
  - cbn [visit_edges]. unfold logDo at 1 3. cbn [fst snd].
    destruct (Do p w c) as [[p' skip]| |]; cbn [bind]; auto.
    destruct skip; auto.
  - apply Z.leb_gt in E. cbn [visit_edges]. unfold logDo at 1. cbn [fst snd].
    rewrite Do_negative by auto. cbn [bind]. apply IH.
Qed.

Lemma mainLoop_same_nonneg (g g' : Iterator) (target : option Z) :
  (forall u, filter nonneg_cost (Edges g u) = filter nonneg_cost (Edges g' u)) ->
  forall (fuel : nat) (p : pathFinder Q) (log log' : list event),
  result_of (mainLoop fuel g target p log)
  = result_of (mainLoop fuel g' target p log').
Proof.
  intros Hg. induction fuel as [|fuel IH]; intros p log log'; cbn [mainLoop].
  - destruct (Len (q p) >? 0); reflexivity.
  - destruct (Len (q p) >? 0); [|reflexivity].
    destruct (Pop (q p) (dist p)) as [[u q']| |]; cbn [bind]; auto.
    destruct (match target with Some w => u =? w | None => false end); auto.
    unfold Visit.
    set (p1 := {| dist := dist p; parent := parent p; q := q'; v := u |}).
    pose proof (visit_nonneg (Edges g u) p1 (EvPop u (dist p) :: log) []) as E1.
    pose proof (visit_nonneg (Edges g' u) p1 (EvPop u (dist p) :: log') []) as E2.
    rewrite Hg in E1. rewrite <- E2 in E1. clear E2.
    destruct (visit_edges (Edges g u) logDo (p1, EvPop u (dist p) :: log))
      as [[p2 l2]| |];
    destruct (visit_edges (Edges g' u) logDo (p1, EvPop u (dist p) :: log'))
      as [[p3 l3]| |]; cbn in E1; try discriminate; cbn [bind]; auto.
    inversion E1; subst. apply IH.
Qed.

End Skipping.

Lemma ShortestPaths_result
    {dijkstraQueue : Type} {DQ : DistQueue dijkstraQueue}
    {ZQ : ZeroQueue dijkstraQueue} (fuel : nat) (g : Iterator) (v0 : Z) :
  ShortestPaths fuel g v0
  = (p <- result_of (search fuel g (zeroQueue : dijkstraQueue) None v0) ;;
     Done (parent p, dist p)).
Proof.
  unfold ShortestPaths, ShortestPaths_log, result_of.
  destruct (search fuel g zeroQueue None v0) as [[p log]| |]; reflexivity.
Qed.

(** C2.  An edge of cost [c < 0] is skipped: [Do] returns the state it was
    given ([dist], [parent] and the queue are unchanged, nothing is pushed
    or fixed), and [ShortestPaths] computes the same slices on the graph
    without that edge. *)
Theorem negative_edge_skipped
    {dijkstraQueue : Type} {DQ : DistQueue dijkstraQueue}
    {ZQ : ZeroQueue dijkstraQueue}
    (g : Iterator) (u w c : Z) (k : nat) :
  nth_error (Edges g u) k = Some (w, c) -> c < 0 ->
  (forall p : pathFinder dijkstraQueue, Do p w c = Done (p, false)) /\
  (forall (fuel : nat) (v0 : Z),
     ShortestPaths fuel (remove_edge g u k) v0 = ShortestPaths fuel g v0).
Proof.
  intros Hk Hc. split.
  - intros p. now apply Do_negative.
  - intros fuel v0. rewrite !ShortestPaths_result. f_equal.
    unfold search, setup. cbn [Order remove_edge].
    destruct (make_filled (Order g) (-1)) as [d0| |]; cbn [bind]; auto.
    destruct (Push (SetDist zeroQueue d0) d0 v0 0) as [[q2 d1]| |];
      cbn [bind]; auto.
    apply mainLoop_same_nonneg.
    intros x. cbn [Edges remove_edge]. destruct (x =? u) eqn:E; auto.
    apply Z.eqb_eq in E. subst x.
    apply filter_remove_nth with (e := (w, c)); auto.
    unfold nonneg_cost. simpl. apply Z.leb_gt. lia.
Qed.

Lemma negative_edge_skipped_witness :
  (forall p : pathFinder scanQueue, Do p 3 (-1) = Done (p, false)) /\
  (forall (fuel : nat) (v0 : Z),
     ShortestPaths (dijkstraQueue := scanQueue) fuel (remove_edge scenario4 0 1) v0
     = ShortestPaths (dijkstraQueue := scanQueue) fuel scenario4 v0).
Proof.
  apply (negative_edge_skipped (dijkstraQueue := scanQueue) scenario4 0 3 (-1) 1).
  - reflexivity.
  - lia.
Defined.

Example scenario4_run :
  ShortestPaths (dijkstraQueue := scanQueue) 10 scenario4 0
  = Done ([-1; 2; 0; 1; -1], [0; 2; 1; 3; -1]).
Proof. vm_compute. reflexivity. Qed.

(** *** Popped vertices *)

(** C3 (as amended).  When no sum of the search leaves [int64], the search
    (for all targets, [target = None], or for one) returns, and in its log
    every event after the pop of a vertex [u], and the final [dist], have
    the entry [dist[u]] that [u] was popped with ([frozen]; the log has the
    newest event first). *)
Theorem popped_dist_never_changes
    {Q : Type} {DQ : DistQueue Q} {L : DistQueueLaws Q}
    (g : Iterator) (q0 : Q) (target : option Z) (v0 : Z) (fuel : nat) :
  wf_graph g -> 0 <= v0 < Order g -> no_overflow g v0 ->
  elems q0 = [] -> (Z.to_nat (Order g) <= fuel)%nat ->
  exists p log,
    search fuel g q0 target v0 = Done (p, log) /\
    forall later u d0 before, log = later ++ EvPop u d0 :: before ->
      sel (dist p) u = sel d0 u /\
      Forall (fun e => sel (snapshot e) u = sel d0 u) later.
Proof.
  intros Hwf Hv0 Hno H0 Hf.
  destruct (@search_ok _ _ L g v0 Hwf Hv0 Hno q0 target fuel H0 Hf)
    as (p & log & popped & cur & S1 & _ & _ & S4 & _).
  exists p, log. split; auto.
Qed.

Lemma popped_dist_never_changes_witness :
  exists p log,
    search (Q := scanQueue) 5 scenario1 zeroQueue None 0 = Done (p, log) /\
    forall later u d0 before, log = later ++ EvPop u d0 :: before ->
      sel (dist p) u = sel d0 u /\
      Forall (fun e => sel (snapshot e) u = sel d0 u) later.
Proof.
  apply (popped_dist_never_changes (Q := scanQueue) scenario1 zeroQueue None 0 5).
  - exact scenario1_wf.
  - simpl. lia.
  - apply scenario1_no_overflow.
  - reflexivity.
  - simpl. lia.
Defined.

(** C3 fails as stated: on [overflow4], whose costs are all non-negative,
    vertex 3 is popped with [dist[3] = -1] (the sum [2^64 - 1] wrapped
    around); the relaxation of its loop, the next event of the run, then
    finds it "not reached" and pushes it again with [dist[3] = 4], which is
    its final distance.  This is so with every queue that satisfies the
    contract. *)
Lemma popped_dist_never_changes_counterexample :
  wf_graph overflow4 /\ int64_costs overflow4 /\
  (forall u w c, In (w, c) (Edges overflow4 u) -> 0 <= c) /\
  every_queue (fun Q DQ ZQ =>
    exists parent dist trace d0 d1,
      @ShortestPaths_log Q DQ ZQ 10 overflow4 0 = Done (parent, dist, trace) /\
      nth_error trace 6 = Some (EvPop 3 d0) /\
      nth_error trace 7 = Some (EvRelax 3 3 5 d1) /\
      sel d0 3 = -1 /\ sel d1 3 = 4 /\ sel dist 3 = 4).
Proof.
  split; [apply graph_of_wf; reflexivity|].
  split; [apply graph_of_wf; reflexivity|].
  split.
  - apply graph_of_nonneg. reflexivity.
  - intros Q DQ ZQ L ZL. do 5 eexists. split.
    + apply transfer_ShortestPaths_log; [vm_compute; reflexivity|discriminate].
    + vm_compute. auto 10.
Qed.

Lemma pops_rev (log : list event) : pops (rev log) = rev (pops log).
Proof.
  induction log as [|[u d|u w c d] r IH]; simpl; auto;
    rewrite pops_app, IH; simpl; auto. now rewrite app_nil_r.
Qed.

Lemma sorted_snoc (l : list Z) (a : Z) :
  StronglySorted Z.le l -> Forall (fun b => b <= a) l ->
  StronglySorted Z.le (l ++ [a]).
Proof.
  induction 1 as [|b l S IH F]; intros Ha; simpl.
  - repeat constructor.
  - inversion Ha; subst. constructor; auto.
    apply Forall_app. split; auto.
Qed.

Lemma older_sorted (f : Z -> Z) (l : list Z) :
  NoDup l ->
  (forall x u, In x l -> In u (older l x) -> f u <= f x) ->
  StronglySorted Z.le (map f (rev l)).
Proof.
  induction l as [|x r IH]; intros Hnd H; simpl; [constructor|].
  inversion Hnd as [|? ? Hx Hr]; subst.
  rewrite map_app. simpl. apply sorted_snoc.
  - apply IH; auto. intros y u Hy Hu. apply H; simpl; auto.
    destruct (x =? y) eqn:E; auto. apply Z.eqb_eq in E. subst. contradiction.
  - apply Forall_forall. intros b Hb. apply in_map_iff in Hb.
    destruct Hb as (u & <- & Hu). apply in_rev in Hu.
    apply H; simpl; auto. now rewrite Z.eqb_refl.
Qed.

(** C8 (as amended).  When no sum of the search leaves [int64],
    [ShortestPaths] returns and the vertices, in the order in which they
    were popped, have non-decreasing final distances. *)
Theorem pop_order_monotone
    {dijkstraQueue : Type} {DQ : DistQueue dijkstraQueue}
    {ZQ : ZeroQueue dijkstraQueue} {L : DistQueueLaws dijkstraQueue}
    {ZL : ZeroQueueLaws dijkstraQueue}
    (g : Iterator) (v0 : Z) (fuel : nat) :
  wf_graph g -> 0 <= v0 < Order g -> no_overflow g v0 ->
  (Z.to_nat (Order g) <= fuel)%nat ->
  exists parent dist trace,
    ShortestPaths_log fuel g v0 = Done (parent, dist, trace) /\
    StronglySorted Z.le (map (sel dist) (pops trace)).
Proof.
  intros Hwf Hv0 Hno Hf.
  destruct (@ShortestPaths_ok _ _ _ L ZL g v0 Hwf Hv0 Hno fuel Hf)
    as (p & log & popped & _ & S & _ & [I _] & _ & P & _).
  exists (parent p), (dist p), (rev log). split; auto.
  rewrite pops_rev, P. inv_fields I.
  apply older_sorted; auto.
Qed.

Lemma pop_order_monotone_witness :
  exists parent dist trace,
    ShortestPaths_log (dijkstraQueue := scanQueue) 5 scenario1 0
      = Done (parent, dist, trace) /\
    StronglySorted Z.le (map (sel dist) (pops trace)).
Proof.
  apply (pop_order_monotone (dijkstraQueue := scanQueue) scenario1 0 5).
  - exact scenario1_wf.
  - simpl. lia.
  - apply scenario1_no_overflow.
  - simpl. lia.
Defined.

(** C8 fails as stated: on [overflow3], whose costs are non-negative, the
    vertices are popped in the order 0, 1, 2 and the final distance of 2,
    a sum that wrapped around, is below that of 1.  This is so with every
    queue that satisfies the contract. *)
Lemma pop_order_monotone_counterexample :
  wf_graph overflow3 /\ int64_costs overflow3 /\
  (forall u w c, In (w, c) (Edges overflow3 u) -> 0 <= c) /\
  every_queue (fun Q DQ ZQ =>
    exists parent dist trace,
      @ShortestPaths_log Q DQ ZQ 10 overflow3 0 = Done (parent, dist, trace) /\
      pops trace = [0; 1; 2] /\ sel dist 2 < sel dist 1).
Proof.
  split; [apply graph_of_wf; reflexivity|].
  split; [apply graph_of_wf; reflexivity|].
  split.
  - apply graph_of_nonneg. reflexivity.
  - intros Q DQ ZQ L ZL. do 3 eexists. split.
    + apply transfer_ShortestPaths_log; [vm_compute; reflexivity|discriminate].
    + split; [reflexivity|]. vm_compute. reflexivity.
Qed.

(** *** The search for one target *)

Lemma scenario1_unreachable : ~ reachable scenario1 0 4.
Proof.
  intros (p & d & P1 & P2 & P3).
  destruct (path_to_rpath P1 P2 P3) as (l & R).
  inversion R as [|u l' d' w c R' He Hc]; subst.
  destruct (graph_of_edges _ u 4 c He) as (es & H1 & H2).
  simpl in H1.
  repeat (destruct H1 as [<-|H1];
          [simpl in H2; repeat (destruct H2 as [H2|H2]; [discriminate|]); contradiction|]).
  contradiction.
Qed.

Lemma scenario1_reachable : reachable scenario1 0 3.
Proof.
  exists [0; 2; 1; 3], (1 + (1 + (1 + 0))). split; [|split; reflexivity].
  repeat (apply pw_cons; [simpl; auto|lia|]). constructor.
Qed.

(** C4 (as amended).  For valid vertices [v] and [w], with [w] reachable
    from [v] over edges of non-negative cost, and when no sum of the
    search leaves [int64], [ShortestPath g v w] returns a path that starts
    at [v], ends at [w], joins consecutive vertices by edges of the graph,
    and whose costs add up to the distance returned. *)
Theorem ShortestPath_path_consistent
    {dijkstraQueue : Type} {DQ : DistQueue dijkstraQueue}
    {ZQ : ZeroQueue dijkstraQueue} {L : DistQueueLaws dijkstraQueue}
    {ZL : ZeroQueueLaws dijkstraQueue}
    (g : Iterator) (v0 w : Z) (fuel : nat) :
  wf_graph g -> 0 <= v0 < Order g -> 0 <= w < Order g ->
  reachable g v0 w -> no_overflow g v0 ->
  (Z.to_nat (Order g) <= fuel)%nat ->
  exists path d,
    ShortestPath fuel g v0 w = Done (path, d) /\
    first_is path v0 /\ last_is path w /\ path_weight g path d.
Proof.
  intros Hwf Hv0 Hw Hr Hno Hf.
  destruct (@ShortestPathWithQueue_ok _ _ L g v0 Hwf Hv0 Hno zeroQueue w fuel
              zero_empty Hw Hf) as (path & d & S & [(_ & _ & Hn)|(_ & P1 & P2 & P3 & _)]).
  - contradiction.
  - exists path, d. auto.
Qed.

Lemma ShortestPath_path_consistent_witness :
  exists path d,
    ShortestPath (dijkstraQueue := scanQueue) 5 scenario1 0 3 = Done (path, d) /\
    first_is path 0 /\ last_is path 3 /\ path_weight scenario1 path d.
Proof.
  apply (ShortestPath_path_consistent (dijkstraQueue := scanQueue) scenario1 0 3 5).
  - exact scenario1_wf.
  - simpl. lia.
  - simpl. lia.
  - exact scenario1_reachable.
  - apply scenario1_no_overflow.
  - simpl. lia.
Defined.

(** C4 fails as stated: on [overflow4] vertex 3 is reachable from 0, and
    [ShortestPath] returns the empty path and the distance -1, because the
    sum for vertex 3 wraps around to -1.  This is so with every queue that
    satisfies the contract. *)
Lemma ShortestPath_path_consistent_counterexample :
  wf_graph overflow4 /\ int64_costs overflow4 /\ reachable overflow4 0 3 /\
  every_queue (fun Q DQ ZQ =>
    @ShortestPath Q DQ ZQ 10 overflow4 0 3 = Done ([], -1)).
Proof.
  split; [apply graph_of_wf; reflexivity|].
  split; [apply graph_of_wf; reflexivity|].
  split.
  - exists [0; 1; 2; 3], (max_int64 + (max_int64 + (1 + 0))).
    split; [|split; reflexivity].
    repeat (apply pw_cons; [simpl; auto|unfold max_int64; lia|]). constructor.
  - intros Q DQ ZQ L ZL.
    apply transfer_ShortestPath; [vm_compute; reflexivity|discriminate].
Qed.

(** C5 (as amended).  For valid vertices [v] and [w], with [w] not
    reachable from [v] over edges of non-negative cost, and when no sum of
    the search leaves [int64], the final [dist[w]] is -1 and
    [ShortestPath g v w] returns the empty path with the distance -1. *)
Theorem unreachable_target
    {dijkstraQueue : Type} {DQ : DistQueue dijkstraQueue}
    {ZQ : ZeroQueue dijkstraQueue} {L : DistQueueLaws dijkstraQueue}
    {ZL : ZeroQueueLaws dijkstraQueue}
    (g : Iterator) (v0 w : Z) (fuel : nat) :
  wf_graph g -> 0 <= v0 < Order g -> 0 <= w < Order g ->
  ~ reachable g v0 w -> no_overflow g v0 ->
  (Z.to_nat (Order g) <= fuel)%nat ->
  (exists parent dist,
     ShortestPaths fuel g v0 = Done (parent, dist) /\ sel dist w = -1) /\
  ShortestPath fuel g v0 w = Done ([], -1).
Proof.
  intros Hwf Hv0 Hw Hr Hno Hf. split.
  - destruct (@ShortestPaths_dist _ _ _ L ZL g v0 Hwf Hv0 Hno fuel Hf)
      as (parent & dist & S & H).
    exists parent, dist. split; auto.
    destruct (H w Hw) as [[E _]|(_ & (l & W & _) & _)]; auto.
    exfalso. apply Hr. exists (rev (w :: l)), (sel dist w).
    now apply rpath_to_path.
  - destruct (@ShortestPathWithQueue_ok _ _ L g v0 Hwf Hv0 Hno zeroQueue w fuel
                zero_empty Hw Hf)
      as (path & d & S & [(-> & -> & _)|(_ & P1 & P2 & P3 & _)]); auto.
    exfalso. apply Hr. exists path, d. auto.
Qed.

Lemma unreachable_target_witness :
  (exists parent dist,
     ShortestPaths (dijkstraQueue := scanQueue) 5 scenario1 0 = Done (parent, dist) /\
     sel dist 4 = -1) /\
  ShortestPath (dijkstraQueue := scanQueue) 5 scenario1 0 4 = Done ([], -1).
Proof.
  apply (unreachable_target (dijkstraQueue := scanQueue) scenario1 0 4 5).
  - exact scenario1_wf.
  - simpl. lia.
  - simpl. lia.
  - exact scenario1_unreachable.
  - apply scenario1_no_overflow.
  - simpl. lia.
Defined.

Lemma overflow5_unreachable : ~ reachable overflow5 0 4.
Proof.
  intros (p & d & P1 & P2 & P3).
  destruct (path_to_rpath P1 P2 P3) as (l & R).
  inversion R as [|u l' d' w c R' He Hc]; subst.
  destruct (graph_of_edges _ u 4 c He) as (es & H1 & H2).
  simpl in H1.
  repeat (destruct H1 as [<-|H1];
          [simpl in H2; repeat (destruct H2 as [H2|H2]; [discriminate|]); contradiction|]).
  contradiction.
Qed.

Lemma mainLoop_S {Q : Type} {DQ : DistQueue Q} (fuel : nat) (g : Iterator)
    (target : option Z) :
  mainLoop (S fuel) g target = loopBody g target (mainLoop fuel g target).
Proof. reflexivity. Qed.

(** Once vertex 3 is in the queue with [dist[3] = -1], a round pops it,
    relaxes its loop of cost 0 and pushes it again. *)
Lemma overflow5_step
    (k : pathFinder strictQueue -> list event ->
         outcome (pathFinder strictQueue * list event))
    (par3 vv : Z) (log : list event) :
  loopBody overflow5 (Some 4) k
    {| dist := [0; max_int64; -2; -1; -1]; parent := [-1; 0; 1; par3; -1];
       q := {| sitems := [3] |}; v := vv |} log
  = k {| dist := [0; max_int64; -2; -1; -1]; parent := [-1; 0; 1; 3; -1];
         q := {| sitems := [3] |}; v := 3 |}
      (EvRelax 3 3 0 [0; max_int64; -2; -1; -1]
       :: EvPop 3 [0; max_int64; -2; -1; -1] :: log).
Proof. vm_compute. reflexivity. Qed.

Lemma overflow5_round (fuel : nat) :
  forall (par3 vv : Z) (log : list event),
  mainLoop fuel overflow5 (Some 4)
    {| dist := [0; max_int64; -2; -1; -1]; parent := [-1; 0; 1; par3; -1];
       q := {| sitems := [3] |}; v := vv |} log
  = OutOfFuel.
Proof.
  induction fuel as [|fuel IH]; intros par3 vv log; [reflexivity|].
  rewrite mainLoop_S, overflow5_step. apply IH.
Qed.

(** The first three rounds pop 0, 1 and 2 and leave vertex 3 in the queue
    with [dist[3] = -1]. *)
Lemma overflow5_start
    (k : pathFinder strictQueue -> list event ->
         outcome (pathFinder strictQueue * list event)) :
  exists log,
    (p <- setup overflow5 (zeroQueue : strictQueue) 0 ;;
     loopBody overflow5 (Some 4)
       (loopBody overflow5 (Some 4) (loopBody overflow5 (Some 4) k)) p [])
    = k {| dist := [0; max_int64; -2; -1; -1]; parent := [-1; 0; 1; 2; -1];
           q := {| sitems := [3] |}; v := 2 |} log.
Proof. eexists. vm_compute. reflexivity. Qed.

Lemma overflow5_never_returns (fuel : nat) :
  ShortestPath (dijkstraQueue := strictQueue) fuel overflow5 0 4 = OutOfFuel.
Proof.
  unfold ShortestPath, ShortestPathWithQueue, shortestPathWithQueue, search.
  destruct fuel as [|[|[|fuel]]]; [vm_compute; reflexivity ..|].
  rewrite !mainLoop_S.
  destruct (overflow5_start (mainLoop fuel overflow5 (Some 4))) as (log & E).
  rewrite E, overflow5_round. reflexivity.
Qed.

(** C5 fails as stated: on [overflow5] vertex 4 is not reachable from 0,
    and [ShortestPath] does not return, whatever the fuel: [dist[3]] wraps
    around to -1, so vertex 3 is pushed again each time its loop of cost 0
    is relaxed.  This is so with every queue that satisfies the contract. *)
Lemma unreachable_target_counterexample :
  wf_graph overflow5 /\ int64_costs overflow5 /\ ~ reachable overflow5 0 4 /\
  every_queue (fun Q DQ ZQ =>
    forall fuel : nat, @ShortestPath Q DQ ZQ fuel overflow5 0 4 = OutOfFuel).
Proof.
  split; [apply graph_of_wf; reflexivity|].
  split; [apply graph_of_wf; reflexivity|].
  split; [exact overflow5_unreachable|].
  intros Q DQ ZQ L ZL fuel.
  apply transfer_ShortestPath; [apply overflow5_never_returns|discriminate].
Qed.

(** *** The early return *)

Lemma Do_keeps_v {Q : Type} {DQ : DistQueue Q} (p p' : pathFinder Q)
    (w c : Z) (b : bool) :
  Do p w c = Done (p', b) -> v p' = v p.
Proof.
  unfold Do. destruct (c <? 0); [intros H; inversion H; auto|].
  destruct (index (dist p) (v p)) as [dv| |]; cbn [bind]; try discriminate.
  destruct (index (dist p) w) as [dw| |]; cbn [bind]; try discriminate.
  destruct (dw =? -1).
  - destruct (store (parent p) w (v p)); cbn [bind]; try discriminate.
    destruct (Push (q p) (dist p) w (wrap64 (dv + c))) as [[q' d']| |];
      cbn [bind]; try discriminate.
    intros H; inversion H; auto.
  - destruct (wrap64 (dv + c) <? dw); [|intros H; inversion H; auto].
    destruct (store (parent p) w (v p)); cbn [bind]; try discriminate.
    destruct (Fix (q p) (dist p) w (wrap64 (dv + c))) as [[q' d']| |];
      cbn [bind]; try discriminate.
    intros H; inversion H; auto.
Qed.

Lemma visit_quiet {Q : Type} {DQ : DistQueue Q} (w : Z) (es : list (Z * Z)) :
  forall (p p' : pathFinder Q) (log log' : list event),
  v p <> w -> quiet w log ->
  visit_edges es logDo (p, log) = Done (p', log') ->
  quiet w log'.
Proof.
  induction es as [|[x c] es IH]; intros p p' log log' Hv Hq H; simpl in H.
  - inversion H; subst; auto.
  - unfold logDo at 1 in H. cbn [fst snd] in H.
    destruct (Do p x c) as [[p1 skip]| |] eqn:ED; cbn [bind] in H;
      try discriminate.
    assert (quiet w (EvRelax (v p) x c (dist p1) :: log)) as Hq1.
    { destruct Hq as [Q1 Q2]. split; auto.
      intros y c' d [E|HIn]; [inversion E; congruence|].
      eapply Q2; eauto. }
    destruct skip.
    + inversion H; subst; auto.
    + eapply IH; [| |exact H]; auto.
      rewrite (Do_keeps_v p p1 x c false ED). auto.
Qed.

Lemma mainLoop_quiet {Q : Type} {DQ : DistQueue Q} (g : Iterator) (w : Z) :
  forall (fuel : nat) (p p' : pathFinder Q) (log log' : list event),
  quiet w log ->
  mainLoop fuel g (Some w) p log = Done (p', log') ->
  quiet w log' \/ exists d l, log' = EvPop w d :: l /\ quiet w l.
Proof.
  induction fuel as [|fuel IH]; intros p p' log log' Hq H; cbn [mainLoop] in H.
  - destruct (Len (q p) >? 0); [discriminate|]. inversion H; subst; auto.
  - destruct (Len (q p) >? 0); [|inversion H; subst; auto].
    destruct (Pop (q p) (dist p)) as [[u q']| |]; cbn [bind] in H;
      try discriminate.
    destruct (u =? w) eqn:E.
    + apply Z.eqb_eq in E. subst u. inversion H; subst. right. eauto.
    + apply Z.eqb_neq in E. unfold Visit in H.
      destruct (visit_edges (Edges g u) logDo
                  ({| dist := dist p; parent := parent p; q := q'; v := u |},
                   EvPop u (dist p) :: log)) as [[p2 l2]| |] eqn:EV;
        cbn [bind] in H; try discriminate.
      apply (IH p2 p' l2 log'); auto.
      eapply visit_quiet; [| |exact EV]; auto.
      destruct Hq as [Q1 Q2]. split.
      * simpl. intros [E1|E1]; auto.
      * intros y c d [E1|E1]; [discriminate|]. eapply Q2; eauto.
Qed.

(** In the search for [w], the pop of [w] is the last event, and no edge
    of [w] is relaxed: this holds for every run that returns. *)
Lemma target_pop_is_last {Q : Type} {DQ : DistQueue Q} (g : Iterator)
    (q0 : Q) (v0 w : Z) (fuel : nat) (p : pathFinder Q) (log : list event) :
  search fuel g q0 (Some w) v0 = Done (p, log) ->
  (forall later d0 before, log = later ++ EvPop w d0 :: before ->
     later = [] /\ ~ In w (pops before)) /\
  (forall x c d, ~ In (EvRelax w x c d) log).
Proof.
  unfold search. destruct (setup g q0 v0) as [p0| |]; cbn [bind];
    try discriminate.
  intros H.
  assert (quiet w []) as Q0 by (split; simpl; auto).
  destruct (mainLoop_quiet g w fuel p0 p [] log Q0 H)
    as [[Q1 Q2]|(d & l & -> & Q1 & Q2)].
  - split; auto. intros later d0 before E. exfalso. apply Q1.
    rewrite E, pops_app. apply in_or_app. right. simpl. auto.
  - split.
    + intros [|e later] d0 before E; simpl in E.
      * inversion E; subst. auto.
      * inversion E; subst. exfalso. apply Q1.
        rewrite pops_app. apply in_or_app. right. simpl. auto.
    + intros x c d0 [E|E]; [discriminate|]. eapply Q2; eauto.
Qed.

(** C6 (as amended).  In the search for one target [w], the pop of [w] is
    the last event of the run: nothing is popped after it and no edge of
    [w] is relaxed.  When no sum of the search leaves [int64], the run
    returns and the distance returned for [w] is the final [dist[w]] of
    [ShortestPaths]. *)
Theorem early_exit_at_target
    {dijkstraQueue : Type} {DQ : DistQueue dijkstraQueue}
    {ZQ : ZeroQueue dijkstraQueue} {L : DistQueueLaws dijkstraQueue}
    {ZL : ZeroQueueLaws dijkstraQueue}
    (g : Iterator) (v0 w : Z) (fuel : nat) :
  wf_graph g -> 0 <= v0 < Order g -> 0 <= w < Order g ->
  no_overflow g v0 -> (Z.to_nat (Order g) <= fuel)%nat ->
  exists p log path d parent dist,
    search fuel g (zeroQueue : dijkstraQueue) (Some w) v0 = Done (p, log) /\
    (forall later d0 before, log = later ++ EvPop w d0 :: before ->
       later = [] /\ ~ In w (pops before)) /\
    (forall x c d1, ~ In (EvRelax w x c d1) log) /\
    ShortestPathWithQueue fuel g (zeroQueue : dijkstraQueue) v0 w
      = Done (path, d) /\
    ShortestPaths fuel g v0 = Done (parent, dist) /\
    d = sel dist w.
Proof.
  intros Hwf Hv0 Hw Hno Hf.
  destruct (@search_ok _ _ L g v0 Hwf Hv0 Hno zeroQueue (Some w) fuel
              zero_empty Hf) as (p & log & _ & _ & S1 & _).
  destruct (target_pop_is_last g zeroQueue v0 w fuel p log S1) as [T1 T2].
  destruct (@ShortestPathWithQueue_ok _ _ L g v0 Hwf Hv0 Hno zeroQueue w fuel
              zero_empty Hw Hf) as (path & d & S2 & HS).
  destruct (@ShortestPaths_dist _ _ _ L ZL g v0 Hwf Hv0 Hno fuel Hf)
    as (parent & dist & S3 & HD).
  exists p, log, path, d, parent, dist.
  repeat (split; auto).
  destruct HS as [(-> & _ & Hn)|(_ & P1 & P2 & P3 & Hopt)];
    destruct (HD w Hw) as [[E Hn']|(_ & (l & W & _) & Hopt')].
  - now rewrite E.
  - exfalso. apply Hn. exists (rev (w :: l)), (sel dist w).
    now apply rpath_to_path.
  - exfalso. apply Hn'. exists path, d. auto.
  - destruct (path_to_rpath P1 P2 P3) as (l' & R).
    destruct (@rpath_to_path g v0 l (sel dist w) w W) as (R1 & R2 & R3).
    specialize (Hopt _ _ R1 R2 R3). specialize (Hopt' _ _ R). lia.
Qed.

Lemma early_exit_at_target_witness :
  exists p log path d parent dist,
    search 5 scenario1 (zeroQueue : scanQueue) (Some 1) 0 = Done (p, log) /\
    (forall later d0 before, log = later ++ EvPop 1 d0 :: before ->
       later = [] /\ ~ In 1 (pops before)) /\
    (forall x c d1, ~ In (EvRelax 1 x c d1) log) /\
    ShortestPathWithQueue 5 scenario1 (zeroQueue : scanQueue) 0 1
      = Done (path, d) /\
    ShortestPaths (dijkstraQueue := scanQueue) 5 scenario1 0
      = Done (parent, dist) /\
    d = sel dist 1.
Proof.
  apply (early_exit_at_target (dijkstraQueue := scanQueue) scenario1 0 1 5).
  - exact scenario1_wf.
  - simpl. lia.
  - simpl. lia.
  - apply scenario1_no_overflow.
  - simpl. lia.
Defined.

(** C6 fails as stated: on [overflow4] the search for vertex 3 stops when 3
    is popped with [dist[3] = -1] (a sum that wrapped around) and returns
    the distance -1, while the final [dist[3]] of [ShortestPaths] is 4.
    This is so with every queue that satisfies the contract. *)
Lemma early_exit_at_target_counterexample :
  wf_graph overflow4 /\ int64_costs overflow4 /\
  every_queue (fun Q DQ ZQ =>
    ShortestPathWithQueue 10 overflow4 (zeroQueue : Q) 0 3 = Done ([], -1) /\
    @ShortestPaths Q DQ ZQ 10 overflow4 0
      = Done ([-1; 0; 1; 3], [0; max_int64; -2; 4])) /\
  sel [0; max_int64; -2; 4] 3 = 4.
Proof.
  split; [apply graph_of_wf; reflexivity|].
  split; [apply graph_of_wf; reflexivity|].
  split; [|reflexivity].
  intros Q DQ ZQ L ZL. split.
  - apply (transfer_ShortestPath (Q := Q));
      [vm_compute; reflexivity|discriminate].
  - apply transfer_ShortestPaths; [vm_compute; reflexivity|discriminate].
Qed.

(** *** Source and target equal *)

(** C9.  For a valid vertex [v], [ShortestPath g v v] returns the path
    [[v]] and the distance 0. *)
Theorem ShortestPath_same_vertex
    {dijkstraQueue : Type} {DQ : DistQueue dijkstraQueue}
    {ZQ : ZeroQueue dijkstraQueue} {L : DistQueueLaws dijkstraQueue}
    {ZL : ZeroQueueLaws dijkstraQueue}
    (g : Iterator) (v0 : Z) (fuel : nat) :
  0 <= v0 < Order g -> (1 <= fuel)%nat ->
  ShortestPath fuel g v0 v0 = Done ([v0], 0).
Proof.
  intros Hv0 Hf.
  destruct (@setup_inv _ _ L g v0 Hv0 zeroQueue zero_empty)
    as (p0 & S1 & [I HQ] & _).
  inv_fields I.
  destruct inv_source0 as (D0 & P0 & [[]|Hin]).
  assert (forall u, In u (elems (q p0)) -> u = v0) as Honly.
  { intros u Hu. destruct (Z.eq_dec u v0) as [|Hne]; auto.
    destruct (inv_tree0 u (or_intror Hu) Hne) as (c & [] & _). }
  unfold ShortestPath, ShortestPathWithQueue, shortestPathWithQueue, search.
  rewrite S1. cbn [bind].
  destruct fuel as [|fuel]; [lia|]. cbn [mainLoop].
  rewrite (Len_law _ _ HQ).
  destruct (elems (q p0)) as [|y E0] eqn:EE; [contradiction|].
  cbn [length].
  destruct (Z.of_nat (S (length E0)) >? 0) eqn:EL;
    [|rewrite Z.gtb_ltb in EL; apply Z.ltb_ge in EL; lia].
  destruct (@Pop_law _ _ L _ _ HQ) as (u & q1 & P1 & P2 & _).
  { rewrite EE. discriminate. }
  rewrite P1. cbn [bind].
  assert (u = v0) as ->.
  { apply Honly. rewrite <- EE. apply (Permutation_in _ (Permutation_sym P2)).
    simpl. auto. }
  rewrite Z.eqb_refl. cbn [bind dist parent].
  rewrite index_in by lia. cbn [bind]. rewrite D0. simpl (0 =? -1).
  cbn iota. cbn [followParents].
  destruct (v0 =? -1) eqn:E1; [apply Z.eqb_eq in E1; lia|].
  rewrite index_in by lia. cbn [bind]. rewrite P0.
  assert (followParents fuel (parent p0) (-1) ([] ++ [v0]) = Done [v0]) as ->
    by (destruct fuel; reflexivity).
  cbn [bind]. reflexivity.
Qed.

Lemma ShortestPath_same_vertex_witness :
  ShortestPath (dijkstraQueue := scanQueue) 1 scenario1 2 2 = Done ([2], 0).
Proof.
  apply (ShortestPath_same_vertex (dijkstraQueue := scanQueue) scenario1 2 1).
  - simpl. lia.
  - lia.
Defined.

(** *** The parent links *)

(** C10 (as amended).  When no sum of the search leaves [int64],
    [ShortestPaths] returns, from every vertex [w] with [dist[w] != -1]
    the parent links lead to the mark -1 in at most [Order] steps, and
    [ShortestPath], whose reconstruction follows these links, returns for
    every valid target. *)
Theorem parent_links_reach_source
    {dijkstraQueue : Type} {DQ : DistQueue dijkstraQueue}
    {ZQ : ZeroQueue dijkstraQueue} {L : DistQueueLaws dijkstraQueue}
    {ZL : ZeroQueueLaws dijkstraQueue}
    (g : Iterator) (v0 : Z) (fuel : nat) :
  wf_graph g -> 0 <= v0 < Order g -> no_overflow g v0 ->
  (Z.to_nat (Order g) <= fuel)%nat ->
  exists parent dist,
    ShortestPaths fuel g v0 = Done (parent, dist) /\
    (forall w, 0 <= w < Order g -> sel dist w <> -1 ->
       exists path, followParents (Z.to_nat (Order g)) parent w [] = Done path /\
                    last_is path v0) /\
    (forall w, 0 <= w < Order g ->
       exists path d, ShortestPath fuel g v0 w = Done (path, d)).
Proof.
  intros Hwf Hv0 Hno Hf.
  destruct (@ShortestPaths_dist _ _ _ L ZL g v0 Hwf Hv0 Hno fuel Hf)
    as (parent & dist & S & H).
  exists parent, dist. split; auto. split.
  - intros w Hw Hd.
    destruct (H w Hw) as [[E _]|(_ & (l & W & C & Hl) & _)]; [contradiction|].
    exists (w :: l). split.
    + apply (@followParents_chain parent l (Z.to_nat (Order g)) w [] C). lia.
    + destruct (rpath_path W) as [_ F]. exact F.
  - intros w Hw.
    destruct (@ShortestPathWithQueue_ok _ _ L g v0 Hwf Hv0 Hno zeroQueue w fuel
                zero_empty Hw Hf) as (path & d & S' & _).
    exists path, d. exact S'.
Qed.

Lemma parent_links_reach_source_witness :
  exists parent dist,
    ShortestPaths (dijkstraQueue := scanQueue) 5 scenario1 0 = Done (parent, dist) /\
    (forall w, 0 <= w < Order scenario1 -> sel dist w <> -1 ->
       exists path, followParents (Z.to_nat (Order scenario1)) parent w [] = Done path /\
                    last_is path 0) /\
    (forall w, 0 <= w < Order scenario1 ->
       exists path d,
         ShortestPath (dijkstraQueue := scanQueue) 5 scenario1 0 w = Done (path, d)).
Proof.
  apply (parent_links_reach_source (dijkstraQueue := scanQueue) scenario1 0 5).
  - exact scenario1_wf.
  - simpl. lia.
  - apply scenario1_no_overflow.
  - simpl. lia.
Defined.

Lemma follow_self_loop (parent : list Z) (u : Z) :
  0 <= u < len parent -> sel parent u = u ->
  forall (fuel : nat) (acc : list Z), followParents fuel parent u acc = OutOfFuel.
Proof.
  intros Hu Hp. induction fuel as [|fuel IH]; intros acc; cbn [followParents];
    (destruct (u =? -1) eqn:E; [apply Z.eqb_eq in E; lia|]); auto.
  rewrite index_in by auto. cbn [bind]. rewrite Hp. apply IH.
Qed.

Lemma followParents_S (fuel : nat) (parent : list Z) (u : Z) (acc : list Z) :
  followParents (S fuel) parent u acc
  = if u =? -1 then Done acc
    else u' <- index parent u ;; followParents fuel parent u' (acc ++ [u]).
Proof. reflexivity. Qed.

Lemma overflow6_search
    (k : pathFinder strictQueue -> list event ->
         outcome (pathFinder strictQueue * list event)) :
  exists q1 v1 log,
    (p <- setup overflow6 (zeroQueue : strictQueue) 0 ;;
     loopBody overflow6 (Some 4)
       (loopBody overflow6 (Some 4)
          (loopBody overflow6 (Some 4)
             (loopBody overflow6 (Some 4)
                (loopBody overflow6 (Some 4)
                   (loopBody overflow6 (Some 4) k))))) p [])
    = Done ({| dist := [0; max_int64; -2; 4; 5]; parent := [-1; 0; 1; 3; 3];
               q := q1; v := v1 |}, log).
Proof. do 3 eexists. vm_compute. reflexivity. Qed.

Lemma overflow6_never_returns (fuel : nat) :
  ShortestPath (dijkstraQueue := strictQueue) fuel overflow6 0 4 = OutOfFuel.
Proof.
  unfold ShortestPath, ShortestPathWithQueue, shortestPathWithQueue, search.
  destruct fuel as [|[|[|[|[|[|fuel]]]]]]; [vm_compute; reflexivity ..|].
  rewrite !mainLoop_S.
  destruct (overflow6_search (mainLoop fuel overflow6 (Some 4)))
    as (q1 & v1 & log & E).
  rewrite E. cbn [bind dist parent].
  rewrite index_in by (vm_compute; split; congruence). cbn [bind].
  change (sel [0; max_int64; -2; 4; 5] 4 =? -1) with false. cbn iota.
  rewrite followParents_S. change (4 =? -1) with false. cbn iota.
  rewrite index_in by (vm_compute; split; congruence). cbn [bind].
  change (sel [-1; 0; 1; 3; 3] 4) with 3.
  rewrite follow_self_loop; [reflexivity|vm_compute; split; congruence|reflexivity].
Qed.

(** C10 fails as stated: on [overflow4], whose costs are non-negative,
    vertex 3 is pushed a second time from its own loop, so that
    [parent[3] = 3] while [dist[3] = 4]: the links from 3 never lead to -1.
    On [overflow6] the reconstruction of the path to vertex 4 runs into
    this loop, and [ShortestPath] does not return, whatever the fuel.
    This is so with every queue that satisfies the contract. *)
Lemma parent_links_reach_source_counterexample :
  wf_graph overflow4 /\ int64_costs overflow4 /\
  every_queue (fun Q DQ ZQ =>
    @ShortestPaths Q DQ ZQ 10 overflow4 0
    = Done ([-1; 0; 1; 3], [0; max_int64; -2; 4])) /\
  sel [0; max_int64; -2; 4] 3 <> -1 /\
  (forall (fuel : nat),
     followParents fuel [-1; 0; 1; 3] 3 [] = OutOfFuel) /\
  wf_graph overflow6 /\ int64_costs overflow6 /\
  every_queue (fun Q DQ ZQ =>
    forall fuel : nat, @ShortestPath Q DQ ZQ fuel overflow6 0 4 = OutOfFuel).
Proof.
  split; [apply graph_of_wf; reflexivity|].
  split; [apply graph_of_wf; reflexivity|].
  split.
  { intros Q DQ ZQ L ZL.
    apply transfer_ShortestPaths; [vm_compute; reflexivity|discriminate]. }
  split; [vm_compute; discriminate|].
  split.
  { intros fuel. apply follow_self_loop; [vm_compute; split; congruence|reflexivity]. }
  split; [apply graph_of_wf; reflexivity|].
  split; [apply graph_of_wf; reflexivity|].
  intros Q DQ ZQ L ZL fuel.
  apply transfer_ShortestPath; [apply overflow6_never_returns|discriminate].
Qed.

(** *** Initialisation and relaxation *)

(** C7.  Before the main loop every vertex has [dist = -1] and
    [parent = -1], except that the push of the source sets
    [dist[v0] = 0] and puts [v0] in the queue.  For an edge of cost
    [d >= 0] from [u = p.v] to [w], with [alt = dist[u] + d] (an [int64]
    sum): if [dist[w] == -1], [Do] sets [parent[w] = u] and pushes [w]
    with cost [alt], which sets [dist[w] = alt]; else if [alt < dist[w]],
    [Do] sets [parent[w] = u] and fixes [w] to [alt], which sets
    [dist[w] = alt]; else nothing changes.  (The queue is asked as its
    contract allows: [w] is pushed only when it is not in the queue, and
    fixed only when it is.) *)
Theorem relaxation_engine_steps
    {Q : Type} {DQ : DistQueue Q} {L : DistQueueLaws Q}
    (g : Iterator) (q0 : Q) (v0 : Z) (p : pathFinder Q) (w d : Z) :
  elems q0 = [] -> 0 <= v0 < Order g ->
  qinv (q p) (dist p) -> len (parent p) = len (dist p) ->
  0 <= v p < len (dist p) -> 0 <= w < len (dist p) -> 0 <= d ->
  (sel (dist p) w = -1 -> ~ In w (elems (q p))) ->
  (sel (dist p) w <> -1 -> wrap64 (sel (dist p) (v p) + d) < sel (dist p) w ->
   In w (elems (q p))) ->
  (exists p0,
     setup g q0 v0 = Done p0 /\
     len (dist p0) = Order g /\ len (parent p0) = Order g /\
     (forall i, 0 <= i < Order g ->
        sel (parent p0) i = -1 /\
        sel (dist p0) i = if i =? v0 then 0 else -1) /\
     Permutation (elems (q p0)) [v0]) /\
  (let alt := wrap64 (sel (dist p) (v p) + d) in
   exists p',
     Do p w d = Done (p', false) /\ v p' = v p /\
     if sel (dist p) w =? -1 then
       parent p' = upd (parent p) w (v p) /\ sel (parent p') w = v p /\
       Push (q p) (dist p) w alt = Done (q p', dist p') /\
       dist p' = upd (dist p) w alt /\ sel (dist p') w = alt /\
       Permutation (elems (q p')) (w :: elems (q p))
     else if alt <? sel (dist p) w then
       parent p' = upd (parent p) w (v p) /\ sel (parent p') w = v p /\
       Fix (q p) (dist p) w alt = Done (q p', dist p') /\
       dist p' = upd (dist p) w alt /\ sel (dist p') w = alt /\
       Permutation (elems (q p')) (elems (q p))
     else p' = p).
Proof.
  intros H0 Hv0 HQ Hlen Hv Hw Hd Hpush Hfix. split.
  - destruct (@setup_inv _ _ L g v0 Hv0 q0 H0) as (p0 & S1 & [I HQ0] & D & P).
    exists p0. split; auto. inv_fields I. split; auto. split; auto. split.
    + intros i Hi. rewrite D, P. split; [apply sel_repeat; lia|].
      destruct (i =? v0) eqn:E.
      * apply Z.eqb_eq in E. subst i. apply sel_upd_same.
        rewrite len_repeat; lia.
      * apply Z.eqb_neq in E. rewrite sel_upd_other by lia.
        apply sel_repeat; lia.
    + apply NoDup_Permutation; auto.
      * repeat constructor. simpl. tauto.
      * intros u. simpl. split.
        -- intros Hu. destruct (Z.eq_dec u v0) as [|Hne]; auto.
           destruct (inv_tree0 u (or_intror Hu) Hne) as (c & [] & _).
        -- intros [<-|[]]. destruct inv_source0 as (_ & _ & [[]|Hin]). auto.
  - intros alt. unfold Do.
    destruct (d <? 0) eqn:Ed; [apply Z.ltb_lt in Ed; lia|].
    rewrite !index_in by lia. cbn [bind]. fold alt.
    destruct (sel (dist p) w =? -1) eqn:E1.
    + apply Z.eqb_eq in E1.
      rewrite store_in by lia. cbn [bind].
      destruct (@Push_law _ _ L (q p) (dist p) w alt HQ Hw (Hpush E1))
        as (q1 & P1 & P2 & P3).
      rewrite P1. cbn [bind]. eexists. split; [reflexivity|].
      cbn [dist parent q v]. repeat (split; auto).
      * apply sel_upd_same. lia.
      * apply sel_upd_same. lia.
    + apply Z.eqb_neq in E1. destruct (alt <? sel (dist p) w) eqn:E2.
      * apply Z.ltb_lt in E2.
        rewrite store_in by lia. cbn [bind].
        destruct (@Fix_law _ _ L (q p) (dist p) w alt HQ Hw (Hfix E1 E2))
          as (q1 & P1 & P2 & P3); [lia|].
        rewrite P1. cbn [bind]. eexists. split; [reflexivity|].
        cbn [dist parent q v]. repeat (split; auto).
        -- apply sel_upd_same. lia.
        -- apply sel_upd_same. lia.
      * exists p. auto.
Qed.

(** The state of the search on [scenario1] before the first round, for
    the edge of cost 4 from 0 to 1. *)
Lemma relaxation_engine_steps_witness :
  let p := {| dist := [0; -1; -1; -1; -1]; parent := [-1; -1; -1; -1; -1];
              q := {| items := [0] |}; v := 0 |} in
  (exists p0,
     setup scenario1 (zeroQueue : scanQueue) 0 = Done p0 /\
     len (dist p0) = Order scenario1 /\ len (parent p0) = Order scenario1 /\
     (forall i, 0 <= i < Order scenario1 ->
        sel (parent p0) i = -1 /\
        sel (dist p0) i = if i =? 0 then 0 else -1) /\
     Permutation (elems (q p0)) [0]) /\
  (let alt := wrap64 (sel (dist p) (v p) + 4) in
   exists p',
     Do p 1 4 = Done (p', false) /\ v p' = v p /\
     if sel (dist p) 1 =? -1 then
       parent p' = upd (parent p) 1 (v p) /\ sel (parent p') 1 = v p /\
       Push (q p) (dist p) 1 alt = Done (q p', dist p') /\
       dist p' = upd (dist p) 1 alt /\ sel (dist p') 1 = alt /\
       Permutation (elems (q p')) (1 :: elems (q p))
     else if alt <? sel (dist p) 1 then
       parent p' = upd (parent p) 1 (v p) /\ sel (parent p') 1 = v p /\
       Fix (q p) (dist p) 1 alt = Done (q p', dist p') /\
       dist p' = upd (dist p) 1 alt /\ sel (dist p') 1 = alt /\
       Permutation (elems (q p')) (elems (q p))
     else p' = p).
Proof.
  apply (relaxation_engine_steps (Q := scanQueue) scenario1 zeroQueue 0
           {| dist := [0; -1; -1; -1; -1]; parent := [-1; -1; -1; -1; -1];
              q := {| items := [0] |}; v := 0 |} 1 4).
  - reflexivity.
  - simpl. lia.
  - exact I.
  - reflexivity.
  - simpl. unfold len. simpl. lia.
  - unfold len. simpl. lia.
  - lia.
  - simpl. intros _ [H|[]]. discriminate.
  - simpl. intros H. exfalso. apply H. reflexivity.
Defined.

(** The improvement step on a concrete state: vertex 1 is in the queue
    with distance 4 and is reached from vertex 2 with [alt = 1 + 1]. *)
Example relaxation_improves :
  Do {| dist := [0; 4; 1; -1; -1]; parent := [-1; 0; 0; -1; -1];
        q := {| items := [1] |}; v := 2 |} 1 1
  = Done ({| dist := [0; 2; 1; -1; -1]; parent := [-1; 2; 0; -1; -1];
             q := {| items := [1] |}; v := 2 |}, false).
Proof. vm_compute. reflexivity. Qed.


(* ------------------------------------------------------------------ *)
(** * Further properties of the search *)

(** ** Slices and paths *)


Lemma rpath_valid (g : Iterator) (v0 : Z) (l : list Z) (d : Z) :
  wf_graph g -> 0 <= v0 < Order g -> rpath g v0 l d ->
  forall u, In u l -> 0 <= u < Order g.
Proof.
  intros Hwf Hv0 R. induction R as [|u l d w c R IH He Hc]; intros x Hx.
  - destruct Hx as [<-|[]]. auto.
  - destruct Hx as [<-|Hx]; auto.
    eapply Hwf; [|exact He|exact Hc]. apply IH. now left.
Qed.

Lemma reachable_valid (g : Iterator) (v0 w : Z) :
  wf_graph g -> 0 <= v0 < Order g -> reachable g v0 w -> 0 <= w < Order g.
Proof.
  intros Hwf Hv0 (p & d & P1 & P2 & P3).
  destruct (path_to_rpath P1 P2 P3) as (l & R).
  eapply rpath_valid; eauto. now left.
Qed.

(* ------------------------------------------------------------------ *)
(** ** What one call of [Do] writes *)

Section Effects.

Context {Q : Type} {DQ : DistQueue Q} {L : DistQueueLaws Q}.
Variable g : Iterator.
Variable v0 : Z.
Hypothesis Hwf : wf_graph g.
Hypothesis Hv0 : 0 <= v0 < Order g.
Hypothesis Hno : no_overflow g v0.

(** [Do] leaves the two slices as they are, or it writes the entries of a
    vertex [w] that was not popped yet: a first distance, or a lower one. *)
Lemma Do_effect (x : Z) (rest : list Z) (w c : Z) (cur : list (Z * Z))
    (p p' : pathFinder Q) (b : bool) :
  PInv g v0 (x :: rest) ((w, c) :: cur) p -> v p = x ->
  In (w, c) (Edges g x) ->
  Do p w c = Done (p', b) ->
  (dist p' = dist p /\ parent p' = parent p) \/
  (~ In w (x :: rest) /\ 0 <= w < Order g /\ 0 <= c /\
   (sel (dist p) w = -1 \/ sel (dist p) x + c < sel (dist p) w) /\
   dist p' = upd (dist p) w (sel (dist p) x + c) /\
   parent p' = upd (parent p) w x).
Proof.
  intros [I HQ] Hv He. inv_fields I. unfold Do.
  destruct (c <? 0) eqn:Ec.
  - intros H. inversion H; subst p' b. left. auto.
  - apply Z.ltb_ge in Ec.
    assert (0 <= x < Order g /\ 0 <= sel (dist p) x) as [Hx Hdx]
      by (apply inv_disc0; simpl; auto).
    assert (0 <= w < Order g) as Hw by (eapply Hwf; eauto).
    assert (min_int64 <= sel (dist p) x + c <= max_int64) as Hfit
      by (eapply alt_fits; eauto).
    rewrite Hv. rewrite index_in by lia. cbn [bind].
    rewrite wrap64_small by auto.
    rewrite index_in by lia. cbn [bind].
    destruct (sel (dist p) w =? -1) eqn:E1.
    + apply Z.eqb_eq in E1.
      assert (~ (In w (x :: rest) \/ In w (elems (q p)))) as Hnd.
      { intros Hd. apply inv_disc0 in Hd. lia. }
      rewrite store_in by lia. cbn [bind].
      destruct (@Push_law _ _ L _ _ w (sel (dist p) x + c) HQ)
        as (q1 & P1 & _); [lia|tauto|].
      rewrite P1. cbn [bind]. intros H. inversion H; subst p' b.
      cbn [dist parent]. right. repeat split; auto; tauto || lia.
    + apply Z.eqb_neq in E1.
      destruct (sel (dist p) x + c <? sel (dist p) w) eqn:E2.
      * apply Z.ltb_lt in E2.
        assert (~ In w (x :: rest)) as Hnp.
        { intros Hp.
          assert (sel (dist p) w <= sel (dist p) x); [|lia].
          destruct Hp as [<-|Hp]; [lia|].
          apply inv_sorted0; simpl; auto. now rewrite Z.eqb_refl. }
        assert (In w (elems (q p))) as Hq.
        { destruct (in_dec Z.eq_dec w (elems (q p))); auto.
          exfalso. apply E1. apply inv_undisc0; auto. tauto. }
        rewrite store_in by lia. cbn [bind].
        destruct (@Fix_law _ _ L _ _ w (sel (dist p) x + c) HQ)
          as (q1 & P1 & _); [lia|auto|lia|].
        rewrite P1. cbn [bind]. intros H. inversion H; subst p' b.
        cbn [dist parent]. right. repeat split; auto; tauto || lia.
      * intros H. inversion H; subst p' b. left. auto.
Qed.

End Effects.

(* ------------------------------------------------------------------ *)
(** ** Properties of the log and the slices that every step keeps *)

Section Keeps.

Context {Q : Type} {DQ : DistQueue Q} {L : DistQueueLaws Q}.
Variable g : Iterator.
Variable v0 : Z.
Hypothesis Hwf : wf_graph g.
Hypothesis Hv0 : 0 <= v0 < Order g.
Hypothesis Hno : no_overflow g v0.

(** [J log d par]: a property of the log and the two slices that a pop
    keeps, that a call of [Do] which writes nothing keeps, and that a
    write of [Do] keeps. *)
Variable J : list event -> list Z -> list Z -> Prop.
Hypothesis J_pop : forall log d par u,
  J log d par -> ~ In u (pops log) -> J (EvPop u d :: log) d par.
Hypothesis J_same : forall log d par x w c,
  J log d par -> J (EvRelax x w c d :: log) d par.
Hypothesis J_write : forall log x rest d par w c,
  J log d par -> pops log = x :: rest ->
  len d = Order g -> len par = Order g ->
  ~ In w (x :: rest) -> 0 <= w < Order g -> 0 <= x < Order g ->
  0 <= c -> 0 <= sel d x ->
  (sel d w = -1 \/ sel d x + c < sel d w) ->
  J (EvRelax x w c (upd d w (sel d x + c)) :: log)
    (upd d w (sel d x + c)) (upd par w x).

Lemma visit_keeps (x : Z) (rest : list Z) :
  forall (cur : list (Z * Z)) (p : pathFinder Q) (log : list event)
         (p' : pathFinder Q) (log' : list event),
  PInv g v0 (x :: rest) cur p -> v p = x -> incl cur (Edges g x) ->
  pops log = x :: rest ->
  J log (dist p) (parent p) ->
  visit_edges cur logDo (p, log) = Done (p', log') ->
  J log' (dist p') (parent p').
Proof.
  induction cur as [|[w c] cur IH]; intros p log p' log' HI Hv Hin Hp HJ H.
  - simpl in H. inversion H; subst; auto.
  - assert (In (w, c) (Edges g x)) as He by (apply Hin; now left).
    destruct (Do_inv Hwf Hv0 Hno HI Hv He) as (p1 & D1 & D2 & D3 & _).
    simpl in H. unfold logDo at 1 in H. cbn [fst snd] in H.
    rewrite D1 in H. cbn [bind] in H.
    eapply IH; [exact D2|exact D3| | | |exact H].
    + intros e Hin'. apply Hin. now right.
    + exact Hp.
    + pose proof D1 as D4. eapply Do_effect in D4; eauto.
      destruct D4 as [[E1 E2]|(F1 & F2 & F3 & F4 & F5 & F6)].
      * rewrite E1, E2. apply J_same. auto.
      * destruct HI as [I _]. inv_fields I.
        assert (0 <= x < Order g /\ 0 <= sel (dist p) x) as [Hx Hdx]
          by (apply inv_disc0; simpl; auto).
        rewrite F5, F6, Hv. eapply J_write; eauto.
Qed.

Lemma mainLoop_keeps (target : option Z) :
  forall (fuel : nat) (popped : list Z) (p : pathFinder Q) (log : list event)
         (p' : pathFinder Q) (log' : list event),
  PInv g v0 popped [] p -> pops log = popped -> frozen log (dist p) ->
  J log (dist p) (parent p) ->
  mainLoop fuel g target p log = Done (p', log') ->
  J log' (dist p') (parent p').
Proof.
  induction fuel as [|fuel IH]; intros popped p log p' log' [I HQ] Hp HF HJ H;
    cbn [mainLoop] in H;
    pose proof (Len_law _ _ HQ) as HL;
    destruct (Len (q p) >? 0) eqn:EL;
    try discriminate;
    try (inversion H; subst p' log'; exact HJ).
  inv_fields I.
  destruct (@Pop_law _ _ L _ _ HQ) as (u & q1 & P1 & P2 & P3 & P4).
  { intros EE. rewrite EE in HL. simpl in HL. rewrite HL in EL. discriminate. }
  pose proof (Inv_pop I P2 P3) as I1.
  assert (~ In u popped) as Hnew.
  { intros Hu. apply (inv_disjoint0 u Hu).
    apply (Permutation_in _ (Permutation_sym P2)). now left. }
  rewrite P1 in H. cbn [bind] in H.
  destruct (match target with Some w => u =? w | None => false end).
  - inversion H; subst p' log'. cbn [dist parent].
    apply J_pop; auto. now rewrite Hp.
  - assert (frozen (EvPop u (dist p) :: log) (dist p)) as HF1.
    { change (dist p) with (snapshot (EvPop u (dist p))) at 2.
      apply frozen_cons with (d := dist p); auto. }
    destruct (@visit_inv _ _ L g v0 Hwf Hv0 Hno u popped (Edges g u)
                {| dist := dist p; parent := parent p; q := q1; v := u |}
                (EvPop u (dist p) :: log))
      as (p2 & log2 & V1 & V2 & V3 & V4); auto.
    { split; auto. }
    { apply incl_refl. }
    { simpl. congruence. }
    unfold Visit in H. rewrite V1 in H. cbn [bind] in H.
    apply (IH (u :: popped) p2 log2 p' log'); auto.
    eapply visit_keeps with (x := u) (rest := popped);
      [| | | | |exact V1]; auto.
    + split; auto.
    + apply incl_refl.
    + simpl. congruence.
    + cbn [dist parent]. apply J_pop; auto. now rewrite Hp.
Qed.

Lemma search_keeps (q0 : Q) (target : option Z) (fuel : nat)
    (p : pathFinder Q) (log : list event) :
  elems q0 = [] ->
  J [] (upd (repeat (-1) (Z.to_nat (Order g))) v0 0)
       (repeat (-1) (Z.to_nat (Order g))) ->
  search fuel g q0 target v0 = Done (p, log) ->
  J log (dist p) (parent p).
Proof.
  intros H0 HJ. unfold search.
  destruct (@setup_inv _ _ L g v0 Hv0 q0 H0) as (p0 & S1 & S2 & S3 & S4).
  rewrite S1. cbn [bind]. intros H.
  apply (mainLoop_keeps target fuel [] p0 [] p log S2 eq_refl);
    [apply frozen_nil| |exact H].
  now rewrite S3, S4.
Qed.

End Keeps.

(* ------------------------------------------------------------------ *)
(** ** The slices at the end of the search *)

Section Final.

Context {Q : Type} {DQ : DistQueue Q} {L : DistQueueLaws Q}.
Variable g : Iterator.
Variable v0 : Z.
Hypothesis Hwf : wf_graph g.
Hypothesis Hv0 : 0 <= v0 < Order g.
Hypothesis Hno : no_overflow g v0.

(** A vertex without a distance has no parent. *)
Lemma undiscovered_parent (q0 : Q) (target : option Z) (fuel : nat)
    (p : pathFinder Q) (log : list event) :
  elems q0 = [] ->
  search fuel g q0 target v0 = Done (p, log) ->
  forall u, 0 <= u < Order g -> sel (dist p) u = -1 -> sel (parent p) u = -1.
Proof.
  intros H0 H.
  apply (@search_keeps _ _ L g v0 Hwf Hv0 Hno
           (fun _ d par => forall u, 0 <= u < Order g ->
                                     sel d u = -1 -> sel par u = -1))
    with (4 := H0) (6 := H).
  - auto.
  - auto.
  - intros lg x rest d par w c HJ _ Hd Hp Hn Hw Hx Hc Hdx Hlt u Hu E.
    destruct (Z.eq_dec u w) as [->|Hne].
    + rewrite sel_upd_same in E by lia. lia.
    + rewrite sel_upd_other in E by lia.
      rewrite sel_upd_other by lia. auto.
  - intros u Hu _. apply sel_repeat. auto.
Qed.

End Final.

Section FinalAll.

Context {dijkstraQueue : Type} {DQ : DistQueue dijkstraQueue}
        {ZQ : ZeroQueue dijkstraQueue}
        {L : DistQueueLaws dijkstraQueue} {ZL : ZeroQueueLaws dijkstraQueue}.
Variable g : Iterator.
Variable v0 : Z.
Hypothesis Hwf : wf_graph g.
Hypothesis Hv0 : 0 <= v0 < Order g.
Hypothesis Hno : no_overflow g v0.

(** What is known of the slices that [ShortestPaths] returns. *)
Lemma ShortestPaths_final (fuel : nat) :
  (Z.to_nat (Order g) <= fuel)%nat ->
  exists parent dist log popped,
    ShortestPaths_log fuel g v0 = Done (parent, dist, rev log) /\
    ShortestPaths fuel g v0 = Done (parent, dist) /\
    Inv g v0 popped [] dist parent [] /\ pops log = popped /\
    (forall u, 0 <= u < Order g -> sel dist u = -1 -> sel parent u = -1) /\
    (forall u, 0 <= u < Order g ->
       (In u popped <-> reachable g v0 u) /\
       (In u popped <-> sel dist u <> -1)).
Proof.
  intros Hf.
  destruct (@ShortestPaths_ok _ _ _ L ZL g v0 Hwf Hv0 Hno fuel Hf)
    as (p & log & popped & S1 & S2 & S3 & HI & HE & Hp & _).
  exists (parent p), (dist p), log, popped.
  split; auto. split; auto.
  pose proof HI as [I _]. rewrite HE in I.
  split; auto. split; auto. split.
  - exact (@undiscovered_parent _ _ L g v0 Hwf Hv0 Hno zeroQueue None fuel
             p log zero_empty S1).
  - intros u Hu. inv_fields I.
    destruct (finished_all Hv0 HI HE Hu)
      as [[E1 E2]|(E1 & E2 & (l & W & _) & _)].
    + assert (~ In u popped) as Hn.
      { intros Hin. destruct (inv_disc0 u (or_introl Hin)). lia. }
      split; split; intros; tauto.
    + assert (reachable g v0 u) as Hr.
      { exists (rev (u :: l)), (sel (dist p) u). now apply rpath_to_path. }
      split; split; intros; auto. lia.
Qed.

End FinalAll.

(* ------------------------------------------------------------------ *)
(** ** The result of [ShortestPaths] *)

(** X1.  [ShortestPaths] returns two slices of [Order()] entries.  The
    entries of the source are [dist[v] = 0] and [parent[v] = -1]; every
    distance is -1 or lies between 0 and the largest [int64], and every
    parent is -1 or a vertex. *)
Theorem ShortestPaths_shape
    {dijkstraQueue : Type} {DQ : DistQueue dijkstraQueue}
    {ZQ : ZeroQueue dijkstraQueue} {L : DistQueueLaws dijkstraQueue}
    {ZL : ZeroQueueLaws dijkstraQueue}
    (g : Iterator) (v0 : Z) (fuel : nat) :
  wf_graph g -> 0 <= v0 < Order g -> no_overflow g v0 ->
  (Z.to_nat (Order g) <= fuel)%nat ->
  exists parent dist,
    ShortestPaths fuel g v0 = Done (parent, dist) /\
    len parent = Order g /\ len dist = Order g /\
    sel dist v0 = 0 /\ sel parent v0 = -1 /\
    forall w, 0 <= w < Order g ->
      (sel dist w = -1 \/ 0 <= sel dist w <= max_int64) /\
      (sel parent w = -1 \/ 0 <= sel parent w < Order g).
Proof.
  intros Hwf Hv0 Hno Hf.
  destruct (@ShortestPaths_final _ _ _ L ZL g v0 Hwf Hv0 Hno fuel Hf)
    as (parent & dist & log & popped & _ & S & I & _ & Hpar & Hpop).
  exists parent, dist. inv_fields I.
  destruct inv_source0 as (D0 & P0 & _).
  repeat (split; auto).
  - destruct (Z.eq_dec (sel dist w) (-1)) as [E|E]; [now left|right].
    assert (In w popped) as Hin by (apply (Hpop w H); auto).
    destruct (@tree_walk _ _ _ _ _ _ _ I (length popped) w Hin)
      as (l & W1 & _ & W3).
    { pose proof (older_shorter _ _ Hin). lia. }
    split; [apply (rpath_nonneg W1)|].
    apply (no_overflow_rpath Hno W1).
    pose proof (older_shorter _ _ Hin).
    assert (Z.of_nat (length popped) <= Order g).
    { apply bounded_nodup_length; auto; try lia.
      intros u Hu. apply inv_disc0. auto. }
    lia.
  - destruct (Z.eq_dec (sel dist w) (-1)) as [E|E]; [left; auto|].
    assert (In w popped) as Hin by (apply (Hpop w H); auto).
    destruct (Z.eq_dec w v0) as [->|Hne]; [now left|right].
    destruct (inv_tree0 w (or_introl Hin) Hne) as (c & T1 & _).
    apply inv_disc0. auto.
Qed.

Lemma ShortestPaths_shape_witness :
  exists parent dist,
    ShortestPaths (dijkstraQueue := scanQueue) 5 scenario1 0
      = Done (parent, dist) /\
    len parent = Order scenario1 /\ len dist = Order scenario1 /\
    sel dist 0 = 0 /\ sel parent 0 = -1 /\
    forall w, 0 <= w < Order scenario1 ->
      (sel dist w = -1 \/ 0 <= sel dist w <= max_int64) /\
      (sel parent w = -1 \/ 0 <= sel parent w < Order scenario1).
Proof.
  apply (ShortestPaths_shape (dijkstraQueue := scanQueue) scenario1 0 5).
  - exact scenario1_wf.
  - simpl. lia.
  - apply scenario1_no_overflow.
  - simpl. lia.
Defined.

(** X2.  In the result of [ShortestPaths], the parent of a vertex [w]
    with a distance, other than the source, is a vertex [u] with a
    distance, and the graph has an edge from [u] to [w] of a cost
    [c >= 0] with [dist[w] = dist[u] + c]: the parent is the predecessor
    of [w] on a path of weight [dist[w]]. *)
Theorem parent_edge_is_tight
    {dijkstraQueue : Type} {DQ : DistQueue dijkstraQueue}
    {ZQ : ZeroQueue dijkstraQueue} {L : DistQueueLaws dijkstraQueue}
    {ZL : ZeroQueueLaws dijkstraQueue}
    (g : Iterator) (v0 : Z) (fuel : nat) :
  wf_graph g -> 0 <= v0 < Order g -> no_overflow g v0 ->
  (Z.to_nat (Order g) <= fuel)%nat ->
  exists parent dist,
    ShortestPaths fuel g v0 = Done (parent, dist) /\
    forall w, 0 <= w < Order g -> w <> v0 -> sel dist w <> -1 ->
      0 <= sel parent w < Order g /\ 0 <= sel dist (sel parent w) /\
      exists c, In (w, c) (Edges g (sel parent w)) /\ 0 <= c /\
                sel dist w = sel dist (sel parent w) + c.
Proof.
  intros Hwf Hv0 Hno Hf.
  destruct (@ShortestPaths_final _ _ _ L ZL g v0 Hwf Hv0 Hno fuel Hf)
    as (parent & dist & log & popped & _ & S & I & _ & _ & Hpop).
  exists parent, dist. split; auto.
  intros w Hw Hne Hd. inv_fields I.
  assert (In w popped) as Hin by (apply (Hpop w Hw); auto).
  destruct (inv_tree0 w (or_introl Hin) Hne) as (c & T1 & T2 & T3 & T4 & _).
  destruct (inv_disc0 _ (or_introl T1)) as [V1 V2].
  split; auto. split; auto. exists c. auto.
Qed.

Lemma parent_edge_is_tight_witness :
  exists parent dist,
    ShortestPaths (dijkstraQueue := scanQueue) 5 scenario1 0
      = Done (parent, dist) /\
    forall w, 0 <= w < Order scenario1 -> w <> 0 -> sel dist w <> -1 ->
      0 <= sel parent w < Order scenario1 /\ 0 <= sel dist (sel parent w) /\
      exists c, In (w, c) (Edges scenario1 (sel parent w)) /\ 0 <= c /\
                sel dist w = sel dist (sel parent w) + c.
Proof.
  apply (parent_edge_is_tight (dijkstraQueue := scanQueue) scenario1 0 5).
  - exact scenario1_wf.
  - simpl. lia.
  - apply scenario1_no_overflow.
  - simpl. lia.
Defined.

(** X3.  In the result of [ShortestPaths], [dist[w]] is -1 exactly when
    [w] cannot be reached from the source over edges of non-negative
    cost, and [parent[w]] is -1 exactly when [w] is the source or cannot
    be reached. *)
Theorem unreached_entries
    {dijkstraQueue : Type} {DQ : DistQueue dijkstraQueue}
    {ZQ : ZeroQueue dijkstraQueue} {L : DistQueueLaws dijkstraQueue}
    {ZL : ZeroQueueLaws dijkstraQueue}
    (g : Iterator) (v0 : Z) (fuel : nat) :
  wf_graph g -> 0 <= v0 < Order g -> no_overflow g v0 ->
  (Z.to_nat (Order g) <= fuel)%nat ->
  exists parent dist,
    ShortestPaths fuel g v0 = Done (parent, dist) /\
    forall w, 0 <= w < Order g ->
      (sel dist w = -1 <-> ~ reachable g v0 w) /\
      (sel parent w = -1 <-> w = v0 \/ ~ reachable g v0 w).
Proof.
  intros Hwf Hv0 Hno Hf.
  destruct (@ShortestPaths_final _ _ _ L ZL g v0 Hwf Hv0 Hno fuel Hf)
    as (parent & dist & log & popped & _ & S & I & _ & Hpar & Hpop).
  exists parent, dist. split; auto.
  intros w Hw. inv_fields I.
  destruct (Hpop w Hw) as [P1 P2].
  destruct inv_source0 as (_ & P0 & _).
  destruct (in_dec Z.eq_dec w popped) as [Hin|Hout].
  - assert (sel dist w <> -1) as Hd by (apply P2; auto).
    assert (reachable g v0 w) as Hr by (apply P1; auto).
    split; [tauto|].
    destruct (Z.eq_dec w v0) as [->|Hne]; [tauto|].
    destruct (inv_tree0 w (or_introl Hin) Hne) as (c & T1 & _).
    destruct (inv_disc0 _ (or_introl T1)) as [V1 _].
    split; [lia|tauto].
  - assert (sel dist w = -1) as Hd.
    { destruct (Z.eq_dec (sel dist w) (-1)); auto. exfalso. tauto. }
    assert (~ reachable g v0 w) as Hr by tauto.
    split; [tauto|]. split; auto.
Qed.

Lemma unreached_entries_witness :
  exists parent dist,
    ShortestPaths (dijkstraQueue := scanQueue) 5 scenario1 0
      = Done (parent, dist) /\
    forall w, 0 <= w < Order scenario1 ->
      (sel dist w = -1 <-> ~ reachable scenario1 0 w) /\
      (sel parent w = -1 <-> w = 0 \/ ~ reachable scenario1 0 w).
Proof.
  apply (unreached_entries (dijkstraQueue := scanQueue) scenario1 0 5).
  - exact scenario1_wf.
  - simpl. lia.
  - apply scenario1_no_overflow.
  - simpl. lia.
Defined.

(** X4.  No edge improves on the result of [ShortestPaths]: for every
    edge of cost [c >= 0] from a vertex [u] with a distance to a vertex
    [w], [w] has a distance too and [dist[w] <= dist[u] + c]. *)
Theorem no_edge_improves
    {dijkstraQueue : Type} {DQ : DistQueue dijkstraQueue}
    {ZQ : ZeroQueue dijkstraQueue} {L : DistQueueLaws dijkstraQueue}
    {ZL : ZeroQueueLaws dijkstraQueue}
    (g : Iterator) (v0 : Z) (fuel : nat) :
  wf_graph g -> 0 <= v0 < Order g -> no_overflow g v0 ->
  (Z.to_nat (Order g) <= fuel)%nat ->
  exists parent dist,
    ShortestPaths fuel g v0 = Done (parent, dist) /\
    forall u w c, 0 <= u < Order g -> In (w, c) (Edges g u) -> 0 <= c ->
      sel dist u <> -1 ->
      0 <= sel dist w <= sel dist u + c.
Proof.
  intros Hwf Hv0 Hno Hf.
  destruct (@ShortestPaths_final _ _ _ L ZL g v0 Hwf Hv0 Hno fuel Hf)
    as (parent & dist & log & popped & _ & S & I & _ & _ & Hpop).
  exists parent, dist. split; auto.
  intros u w c Hu He Hc Hd. inv_fields I.
  assert (In u popped) as Hin by (apply (Hpop u Hu); auto).
  destruct (inv_closed0 u w c Hin He Hc)
    as [(rest & _ & [])|[[Hw|[]] Hle]].
  destruct (inv_disc0 w (or_introl Hw)). lia.
Qed.

Lemma no_edge_improves_witness :
  exists parent dist,
    ShortestPaths (dijkstraQueue := scanQueue) 5 scenario1 0
      = Done (parent, dist) /\
    forall u w c, 0 <= u < Order scenario1 ->
      In (w, c) (Edges scenario1 u) -> 0 <= c ->
      sel dist u <> -1 ->
      0 <= sel dist w <= sel dist u + c.
Proof.
  apply (no_edge_improves (dijkstraQueue := scanQueue) scenario1 0 5).
  - exact scenario1_wf.
  - simpl. lia.
  - apply scenario1_no_overflow.
  - simpl. lia.
Defined.

(** X5.  In a run of [ShortestPaths], the main loop pops each vertex that
    can be reached from the source exactly once and no other vertex, so
    it makes at most [Order()] rounds. *)
Theorem reachable_vertices_popped_once
    {dijkstraQueue : Type} {DQ : DistQueue dijkstraQueue}
    {ZQ : ZeroQueue dijkstraQueue} {L : DistQueueLaws dijkstraQueue}
    {ZL : ZeroQueueLaws dijkstraQueue}
    (g : Iterator) (v0 : Z) (fuel : nat) :
  wf_graph g -> 0 <= v0 < Order g -> no_overflow g v0 ->
  (Z.to_nat (Order g) <= fuel)%nat ->
  exists parent dist trace,
    ShortestPaths_log fuel g v0 = Done (parent, dist, trace) /\
    NoDup (pops trace) /\
    (forall w, In w (pops trace) <-> reachable g v0 w) /\
    Z.of_nat (length (pops trace)) <= Order g.
Proof.
  intros Hwf Hv0 Hno Hf.
  destruct (@ShortestPaths_final _ _ _ L ZL g v0 Hwf Hv0 Hno fuel Hf)
    as (parent & dist & log & popped & S & _ & I & Hp & _ & Hpop).
  exists parent, dist, (rev log). split; auto.
  rewrite pops_rev, Hp. inv_fields I.
  assert (forall u, In u popped -> 0 <= u < Order g) as Hval.
  { intros u Hu. apply inv_disc0. auto. }
  split; [apply NoDup_rev; auto|]. split.
  - intros w. rewrite <- in_rev. split; intros H.
    + destruct (Hpop w (Hval w H)) as [[P _] _]. auto.
    + assert (0 <= w < Order g) as Hw by (eapply reachable_valid; eauto).
      destruct (Hpop w Hw) as [[_ P] _]. auto.
  - rewrite length_rev. apply bounded_nodup_length; auto. lia.
Qed.

Lemma reachable_vertices_popped_once_witness :
  exists parent dist trace,
    ShortestPaths_log (dijkstraQueue := scanQueue) 5 scenario1 0
      = Done (parent, dist, trace) /\
    NoDup (pops trace) /\
    (forall w, In w (pops trace) <-> reachable scenario1 0 w) /\
    Z.of_nat (length (pops trace)) <= Order scenario1.
Proof.
  apply (reachable_vertices_popped_once (dijkstraQueue := scanQueue)
           scenario1 0 5).
  - exact scenario1_wf.
  - simpl. lia.
  - apply scenario1_no_overflow.
  - simpl. lia.
Defined.

(* ------------------------------------------------------------------ *)
(** ** Targets and queues *)

(** X6.  A target that is not a vertex makes [ShortestPathWithQueue]
    panic: the search runs to its end, and [distances[w]] is then read out
    of range. *)
Theorem target_out_of_range
    {Q : Type} {DQ : DistQueue Q} {L : DistQueueLaws Q}
    (g : Iterator) (q0 : Q) (v0 w : Z) (fuel : nat) :
  wf_graph g -> 0 <= v0 < Order g -> no_overflow g v0 ->
  (Z.to_nat (Order g) <= fuel)%nat -> elems q0 = [] ->
  ~ (0 <= w < Order g) ->
  (exists parent dist,
     shortestPathWithQueue fuel g q0 v0 w = Done (parent, dist) /\
     len dist = Order g) /\
  ShortestPathWithQueue fuel g q0 v0 w = Panic.
Proof.
  intros Hwf Hv0 Hno Hf H0 Hw.
  destruct (@search_ok _ _ L g v0 Hwf Hv0 Hno q0 (Some w) fuel H0 Hf)
    as (p & log & popped & cur & S1 & [I _] & _).
  inv_fields I.
  unfold ShortestPathWithQueue, shortestPathWithQueue.
  rewrite S1. cbn [bind]. split; [eauto|].
  unfold index. destruct (in_bounds (dist p) w) eqn:E; auto.
  apply in_bounds_iff in E. rewrite inv_len_dist0 in E. contradiction.
Qed.

Lemma target_out_of_range_witness :
  (exists parent dist,
     shortestPathWithQueue 5 scenario1 (zeroQueue : scanQueue) 0 (-1)
       = Done (parent, dist) /\
     len dist = Order scenario1) /\
  ShortestPathWithQueue 5 scenario1 (zeroQueue : scanQueue) 0 (-1) = Panic.
Proof.
  apply (target_out_of_range (Q := scanQueue) scenario1 zeroQueue 0 (-1) 5).
  - exact scenario1_wf.
  - simpl. lia.
  - apply scenario1_no_overflow.
  - simpl. lia.
  - reflexivity.
  - simpl. lia.
Defined.



(* ------------------------------------------------------------------ *)
(** ** The path that is returned *)

Lemma chain_valid (par : list Z) (l : list Z) :
  chain par l -> forall x, In x l -> 0 <= x < len par.
Proof.
  induction l as [|u l IH]; intros C x Hx; [contradiction|].
  destruct C as (V & _ & C). destruct Hx as [<-|Hx]; auto.
Qed.

Lemma chain_unique (par : list Z) :
  forall (l1 l2 : list Z) (u : Z),
  chain par (u :: l1) -> chain par (u :: l2) -> l1 = l2.
Proof.
  induction l1 as [|a l1 IH]; intros [|b l2] u C1 C2; auto;
    destruct C1 as (V1 & E1 & C1); destruct C2 as (V2 & E2 & C2).
  - destruct C2 as (Vb & _). lia.
  - destruct C1 as (Va & _). lia.
  - assert (a = b) as -> by congruence. f_equal. eapply IH; eauto.
Qed.

Lemma chain_suffix (par : list Z) (a b : list Z) :
  chain par (a ++ b) -> chain par b.
Proof.
  induction a as [|u a IH]; auto.
  intros C. apply IH. destruct C as (_ & _ & C). exact C.
Qed.

(** A chain of parent links does not meet a vertex twice. *)
Lemma chain_NoDup (par : list Z) (l : list Z) : chain par l -> NoDup l.
Proof.
  induction l as [|u l IH]; intros C; constructor.
  - intros Hin. destruct (in_split _ _ Hin) as (a & b & E).
    assert (chain par (u :: b)) as Cb.
    { destruct C as (_ & _ & C). rewrite E in C.
      apply (chain_suffix par a (u :: b) C). }
    pose proof (chain_unique par _ _ _ C Cb) as E2.
    rewrite E2 in E at 1.
    apply (f_equal (@length Z)) in E. rewrite length_app in E.
    simpl in E. lia.
  - apply IH. destruct C as (_ & _ & C). exact C.
Qed.

Lemma chain_agree (par par' : list Z) (l : list Z) :
  len par' = len par -> (forall x, In x l -> sel par' x = sel par x) ->
  chain par l -> chain par' l.
Proof.
  intros Hl. induction l as [|u l IH]; intros H C; [exact I|].
  destruct C as (V & E & C). split; [lia|]. split.
  - rewrite (H u (or_introl eq_refl)). exact E.
  - apply IH; auto. intros x Hx. apply H. now right.
Qed.

Lemma chain_popped (g : Iterator) (v0 : Z) (popped : list Z)
    (cur : list (Z * Z)) (d par E : list Z) :
  Inv g v0 popped cur d par E ->
  forall (l : list Z) (u : Z), chain par (u :: l) -> In u popped ->
  forall x, In x (u :: l) -> In x popped.
Proof.
  intros I. inv_fields I.
  induction l as [|a l IH]; intros u C Hu x Hx.
  - destruct Hx as [<-|[]]. exact Hu.
  - destruct Hx as [<-|Hx]; auto.
    destruct C as (V & E1 & C).
    apply (IH a); auto.
    assert (u <> v0) as Hne.
    { intros ->. destruct inv_source0 as (_ & P0 & _).
      destruct C as (Va & _). lia. }
    destruct (inv_tree0 u (or_introl Hu) Hne) as (c & T1 & _).
    now rewrite <- E1.
Qed.

Section PathShape.

Context {Q : Type} {DQ : DistQueue Q} {L : DistQueueLaws Q}.
Variable g : Iterator.
Variable v0 : Z.
Hypothesis Hwf : wf_graph g.
Hypothesis Hv0 : 0 <= v0 < Order g.
Hypothesis Hno : no_overflow g v0.

(** The path of [ShortestPathWithQueue], as the parent links of the
    vertices that the search popped. *)
Lemma ShortestPathWithQueue_chain (q0 : Q) (w : Z) (fuel : nat) :
  elems q0 = [] -> 0 <= w < Order g -> (Z.to_nat (Order g) <= fuel)%nat ->
  exists p log path d,
    search fuel g q0 (Some w) v0 = Done (p, log) /\
    ShortestPathWithQueue fuel g q0 v0 w = Done (path, d) /\
    len (parent p) = Order g /\ d = sel (dist p) w /\
    ((d = -1 /\ path = [] /\ ~ reachable g v0 w) \/
     (0 <= d /\
      exists l, path = rev (w :: l) /\ chain (parent p) (w :: l) /\
                (length (w :: l) <= Z.to_nat (Order g))%nat /\
                (forall x, In x (w :: l) -> In x (pops log)) /\
                (forall b x a, w :: l = b ++ x :: a ->
                   rpath g v0 (x :: a) (sel (dist p) x)))).
Proof.
  intros H0 Hw Hf.
  destruct (@search_ok _ _ L g v0 Hwf Hv0 Hno q0 (Some w) fuel H0 Hf)
    as (p & log & popped & cur & S1 & S2 & S3 & S4 & S5).
  exists p, log.
  unfold ShortestPathWithQueue, shortestPathWithQueue.
  rewrite S1. cbn [bind].
  pose proof S2 as [I _]. inv_fields I.
  rewrite index_in by lia. cbn [bind].
  destruct S5 as [(HE & -> & Hn)|(w' & rest & Ht & -> & ->)].
  - destruct (finished_all Hv0 S2 HE Hw) as [[E1 E2]|(_ & E2 & _)].
    + rewrite E1. simpl. eexists. eexists. split; [reflexivity|].
      split; [reflexivity|]. split; auto.
    + exfalso. apply (Hn w); auto.
  - inversion Ht; subst w'.
    assert (0 <= sel (dist p) w) as Hd by (apply inv_disc0; simpl; auto).
    destruct (@tree_walk _ _ _ _ _ _ _ I (length rest) w (or_introl eq_refl))
      as (l & W1 & W2 & W3).
    { simpl. rewrite Z.eqb_refl. lia. }
    assert ((length (w :: l) <= Z.to_nat (Order g))%nat) as Hlen.
    { simpl in W3. rewrite Z.eqb_refl in W3.
      assert (Z.of_nat (length (w :: rest)) <= Order g).
      { apply bounded_nodup_length; auto; try lia.
        intros u Hu. apply inv_disc0. auto. }
      cbn [length] in *. lia. }
    destruct (sel (dist p) w =? -1) eqn:E; [apply Z.eqb_eq in E; lia|].
    rewrite (@followParents_chain (parent p) l fuel w [] W2) by lia.
    cbn [bind app].
    rewrite swapLoop_rev by lia. cbn [bind].
    eexists. eexists. split; [reflexivity|]. split; [reflexivity|].
    split; auto. split; auto.
    assert (forall x, In x (w :: l) -> In x (w :: rest)) as Hpop.
    { apply (chain_popped g v0 _ _ _ _ _ I l w W2). now left. }
    right. split; auto. exists l. split; auto. split; auto. split; auto.
    split; [now rewrite S3|].
    intros b x a Es.
    assert (chain (parent p) (x :: a)) as Cx.
    { apply (chain_suffix (parent p) b). now rewrite <- Es. }
    assert (In x (w :: rest)) as Hx.
    { apply Hpop. rewrite Es. apply in_or_app. right. now left. }
    destruct (@tree_walk _ _ _ _ _ _ _ I (length (w :: rest)) x Hx)
      as (l' & X1 & X2 & _).
    { pose proof (older_shorter _ _ Hx). lia. }
    now rewrite (chain_unique (parent p) a l' x Cx X2).
Qed.

End PathShape.

(** X8.  The path that [ShortestPathWithQueue] returns meets no vertex
    twice; its elements are vertices, at most [Order()] of them. *)
Theorem returned_path_is_simple
    {Q : Type} {DQ : DistQueue Q} {L : DistQueueLaws Q}
    (g : Iterator) (q0 : Q) (v0 w : Z) (fuel : nat) :
  wf_graph g -> 0 <= v0 < Order g -> 0 <= w < Order g -> no_overflow g v0 ->
  (Z.to_nat (Order g) <= fuel)%nat -> elems q0 = [] ->
  exists path d,
    ShortestPathWithQueue fuel g q0 v0 w = Done (path, d) /\
    NoDup path /\ len path <= Order g /\
    forall x, In x path -> 0 <= x < Order g.
Proof.
  intros Hwf Hv0 Hw Hno Hf H0.
  destruct (@ShortestPathWithQueue_chain _ _ L g v0 Hwf Hv0 Hno q0 w fuel
              H0 Hw Hf)
    as (p & log & path & d & _ & S & Hl & _ &
        [(_ & -> & _)|(_ & l & -> & C & Hlen & _ & _)]).
  - exists [], d. split; auto. split; [constructor|].
    split; [unfold len; simpl; lia|]. intros x [].
  - exists (rev (w :: l)), d. split; auto.
    split; [apply NoDup_rev; eapply chain_NoDup; eauto|].
    split; [unfold len; rewrite length_rev; lia|].
    intros x Hx. apply in_rev in Hx. rewrite <- Hl.
    eapply chain_valid; eauto.
Qed.

Lemma returned_path_is_simple_witness :
  exists path d,
    ShortestPathWithQueue 5 scenario1 (zeroQueue : scanQueue) 0 3
      = Done (path, d) /\
    NoDup path /\ len path <= Order scenario1 /\
    forall x, In x path -> 0 <= x < Order scenario1.
Proof.
  apply (returned_path_is_simple (Q := scanQueue) scenario1 zeroQueue 0 3 5).
  - exact scenario1_wf.
  - simpl. lia.
  - simpl. lia.
  - apply scenario1_no_overflow.
  - simpl. lia.
  - reflexivity.
Defined.

(* ------------------------------------------------------------------ *)
(** ** The search for one target and the search for all *)

Section TargetAndAll.

Context {Q : Type} {DQ : DistQueue Q} {L : DistQueueLaws Q}.
Variable g : Iterator.
Variable v0 : Z.
Hypothesis Hwf : wf_graph g.
Hypothesis Hv0 : 0 <= v0 < Order g.
Hypothesis Hno : no_overflow g v0.

(** The entries of the popped vertices are left as they are by the rest of
    a visit and by the rounds that follow. *)
Lemma visit_entries_kept (x : Z) (rest : list Z) (cur : list (Z * Z))
    (p : pathFinder Q) (log : list event) (p' : pathFinder Q)
    (log' : list event) :
  PInv g v0 (x :: rest) cur p -> v p = x -> incl cur (Edges g x) ->
  pops log = x :: rest ->
  visit_edges cur logDo (p, log) = Done (p', log') ->
  forall y, In y (x :: rest) ->
    sel (dist p') y = sel (dist p) y /\ sel (parent p') y = sel (parent p) y.
Proof.
  intros HI Hv Hin Hp H.
  pose proof HI as [I _]. inv_fields I.
  enough (incl (x :: rest) (pops log') /\
          forall y, In y (x :: rest) ->
            sel (dist p') y = sel (dist p) y /\
            sel (parent p') y = sel (parent p) y) as [_ K] by exact K.
  apply (@visit_keeps _ _ L g v0 Hwf Hv0 Hno
           (fun lg d par => incl (x :: rest) (pops lg) /\
              forall y, In y (x :: rest) ->
                sel d y = sel (dist p) y /\ sel par y = sel (parent p) y))
    with (8 := H) (x := x) (rest := rest); auto.
  - intros lg x0 rest0 d par w c [J1 J2] Hlg _ _ Hn Hw _ _ _ _. split; auto.
    intros y Hy.
    assert (y <> w) as Hne.
    { intros ->. apply Hn. rewrite <- Hlg. apply J1. exact Hy. }
    assert (0 <= y) as Hy0 by (apply inv_disc0; auto).
    rewrite !sel_upd_other by lia. auto.
  - split; [rewrite Hp; apply incl_refl|auto].
Qed.

Lemma popped_entries_kept (target : option Z) (fuel : nat) (popped : list Z)
    (p : pathFinder Q) (log : list event) (p' : pathFinder Q)
    (log' : list event) :
  PInv g v0 popped [] p -> pops log = popped -> frozen log (dist p) ->
  mainLoop fuel g target p log = Done (p', log') ->
  forall y, In y popped ->
    sel (dist p') y = sel (dist p) y /\ sel (parent p') y = sel (parent p) y.
Proof.
  intros HI Hp HF H.
  pose proof HI as [I _]. inv_fields I.
  enough (incl popped (pops log') /\
          forall y, In y popped ->
            sel (dist p') y = sel (dist p) y /\
            sel (parent p') y = sel (parent p) y) as [_ K] by exact K.
  apply (@mainLoop_keeps _ _ L g v0 Hwf Hv0 Hno
           (fun lg d par => incl popped (pops lg) /\
              forall y, In y popped ->
                sel d y = sel (dist p) y /\ sel par y = sel (parent p) y))
    with (8 := H) (popped := popped); auto.
  - intros lg d par u [J1 J2] _. split; auto. simpl. now apply incl_tl.
  - intros lg x0 rest0 d par w c [J1 J2] Hlg _ _ Hn Hw _ _ _ _. split; auto.
    intros y Hy.
    assert (y <> w) as Hne.
    { intros ->. apply Hn. rewrite <- Hlg. apply J1. exact Hy. }
    assert (0 <= y) as Hy0 by (apply inv_disc0; auto).
    rewrite !sel_upd_other by lia. auto.
  - split; [rewrite Hp; apply incl_refl|auto].
Qed.

(** The search for [w] and the search for all targets, from the same
    state: the second one leaves the entries of the vertices that the
    first one popped as the first one returns them. *)
Lemma both_runs (w : Z) :
  forall (fuel : nat) (popped : list Z) (p : pathFinder Q) (log : list event),
  PInv g v0 popped [] p -> pops log = popped -> frozen log (dist p) ->
  ~ In w popped ->
  (Z.to_nat (Order g) - length popped <= fuel)%nat ->
  exists pt logt pf logf,
    mainLoop fuel g (Some w) p log = Done (pt, logt) /\
    mainLoop fuel g None p log = Done (pf, logf) /\
    forall y, In y (pops logt) ->
      sel (dist pf) y = sel (dist pt) y /\
      sel (parent pf) y = sel (parent pt) y.
Proof.
  induction fuel as [|fuel IH]; intros popped p log [I HQ] Hp HF Ht Hfuel;
    inv_fields I;
    pose proof (Len_law _ _ HQ) as HL;
    destruct (elems (q p)) as [|y E0] eqn:EE.
  1, 3: exists p, log, p, log; cbn [mainLoop]; rewrite HL; simpl; auto.
  - exfalso.
    assert (Z.of_nat (length (y :: popped)) <= Order g).
    { apply bounded_nodup_length; [lia| |].
      - constructor; auto. intros Hy. apply (inv_disjoint0 y Hy). now left.
      - intros u [<-|Hu]; apply inv_disc0; simpl; auto. }
    cbn [length] in *. lia.
  - assert (Z.of_nat (length (y :: popped)) <= Order g) as Hlen.
    { apply bounded_nodup_length; [lia| |].
      - constructor; auto. intros Hy. apply (inv_disjoint0 y Hy). now left.
      - intros u [<-|Hu]; apply inv_disc0; simpl; auto. }
    destruct (@Pop_law _ _ L _ _ HQ) as (u & q1 & P1 & P2 & P3 & P4).
    { rewrite EE. discriminate. }
    rewrite EE in P2, P3.
    pose proof (Inv_pop I P2 P3) as I1.
    cbn [mainLoop]. rewrite HL. cbn [length].
    destruct (Z.of_nat (S (length E0)) >? 0) eqn:EL;
      [|rewrite Z.gtb_ltb in EL; apply Z.ltb_ge in EL; lia].
    rewrite P1. cbn [bind].
    assert (frozen (EvPop u (dist p) :: log) (dist p)) as HF1.
    { change (dist p) with (snapshot (EvPop u (dist p))) at 2.
      apply frozen_cons with (d := dist p); auto. }
    set (p1 := {| dist := dist p; parent := parent p; q := q1; v := u |}).
    assert (PInv g v0 (u :: popped) (Edges g u) p1) as HI1 by (split; auto).
    destruct (@visit_inv _ _ L g v0 Hwf Hv0 Hno u popped (Edges g u) p1
                (EvPop u (dist p) :: log))
      as (p2 & log2 & V1 & V2 & V3 & V4); auto.
    { apply incl_refl. }
    { simpl. congruence. }
    unfold Visit. rewrite V1. cbn [bind].
    destruct (u =? w) eqn:E.
    + apply Z.eqb_eq in E. subst u.
      destruct (@mainLoop_inv _ _ L g v0 Hwf Hv0 Hno None fuel (w :: popped)
                  p2 log2 V2 V3 V4)
        as (pf & logf & poppedf & curf & M1 & _).
      { discriminate. }
      { cbn [length] in *. lia. }
      eexists. exists (EvPop w (dist p) :: log), pf, logf.
      split; [reflexivity|]. split; [exact M1|].
      intros x Hx. cbn [pops dist parent] in *. rewrite Hp in Hx.
      assert (pops (EvPop w (dist p) :: log) = w :: popped) as Hp1
        by (simpl; congruence).
      destruct (visit_entries_kept _ _ _ _ _ _ _ HI1 eq_refl (incl_refl _)
                  Hp1 V1 x Hx) as [A1 A2].
      destruct (popped_entries_kept None fuel _ _ _ _ _ V2 V3 V4 M1 x Hx)
        as [B1 B2].
      cbn [dist parent p1] in *. split; congruence.
    + apply Z.eqb_neq in E.
      apply IH with (popped := u :: popped); auto.
      * intros [<-|Hin]; auto.
      * cbn [length] in *. lia.
Qed.

Lemma both_searches (q0 : Q) (w : Z) (fuel : nat) :
  elems q0 = [] -> (Z.to_nat (Order g) <= fuel)%nat ->
  exists pt logt pf logf,
    search fuel g q0 (Some w) v0 = Done (pt, logt) /\
    search fuel g q0 None v0 = Done (pf, logf) /\
    forall y, In y (pops logt) ->
      sel (dist pf) y = sel (dist pt) y /\
      sel (parent pf) y = sel (parent pt) y.
Proof.
  intros H0 Hf. unfold search.
  destruct (@setup_inv _ _ L g v0 Hv0 q0 H0) as (p0 & S1 & S2 & _).
  rewrite S1. cbn [bind].
  apply both_runs with (popped := []); auto.
  - apply frozen_nil.
  - simpl. lia.
Qed.

End TargetAndAll.

(** X9.  [ShortestPath] returns the path that the [parent] slice of
    [ShortestPaths] holds for the target: with a distance other than -1,
    following [parent] from [w] down to -1, as the loop of
    [ShortestPathWithQueue] does, gives the returned path backwards, and
    the distance is [dist[w]]; with the distance -1 the path is empty. *)
Theorem ShortestPath_follows_parents
    {dijkstraQueue : Type} {DQ : DistQueue dijkstraQueue}
    {ZQ : ZeroQueue dijkstraQueue} {L : DistQueueLaws dijkstraQueue}
    {ZL : ZeroQueueLaws dijkstraQueue}
    (g : Iterator) (v0 w : Z) (fuel : nat) :
  wf_graph g -> 0 <= v0 < Order g -> 0 <= w < Order g -> no_overflow g v0 ->
  (Z.to_nat (Order g) <= fuel)%nat ->
  exists parent dist path d,
    ShortestPaths fuel g v0 = Done (parent, dist) /\
    ShortestPath fuel g v0 w = Done (path, d) /\
    d = sel dist w /\
    (d = -1 -> path = []) /\
    (d <> -1 -> followParents fuel parent w [] = Done (rev path)).
Proof.
  intros Hwf Hv0 Hw Hno Hf.
  destruct (@ShortestPathWithQueue_chain _ _ L g v0 Hwf Hv0 Hno zeroQueue w
              fuel zero_empty Hw Hf)
    as (pt & logt & path & d & T1 & T2 & T3 & T4 & T5).
  destruct (@both_searches _ _ L g v0 Hwf Hv0 Hno zeroQueue w fuel
              zero_empty Hf)
    as (pt' & logt' & pf & logf & B1 & B2 & B3).
  rewrite T1 in B1. inversion B1; subst pt' logt'. clear B1.
  destruct (@ShortestPaths_final _ _ _ L ZL g v0 Hwf Hv0 Hno fuel Hf)
    as (par & dst & log & popped & _ & S & I & _ & _ & Hpop).
  assert (par = parent pf /\ dst = dist pf) as [-> ->].
  { unfold ShortestPaths, ShortestPaths_log in S. rewrite B2 in S.
    cbn [bind] in S. inversion S. auto. }
  exists (parent pf), (dist pf), path, d.
  split; auto. split; auto.
  destruct T5 as [(E1 & -> & N)|(E1 & l & -> & C & Hlen & Hin & _)].
  - split; [|split; [auto|intros; lia]].
    destruct (Hpop w Hw) as [P1 P2].
    destruct (Z.eq_dec (sel (dist pf) w) (-1)) as [E|E]; [congruence|].
    exfalso. apply N. tauto.
  - destruct (B3 w (Hin w (or_introl eq_refl))) as [D1 _].
    split; [congruence|]. split; [intros; lia|]. intros _.
    rewrite rev_involutive.
    apply (@followParents_chain (parent pf) l fuel w []).
    + apply chain_agree with (par := parent pt); auto.
      * rewrite T3. apply (inv_len_parent I).
      * intros x Hx. apply B3. auto.
    + lia.
Qed.

Lemma ShortestPath_follows_parents_witness :
  exists parent dist path d,
    ShortestPaths (dijkstraQueue := scanQueue) 5 scenario1 0
      = Done (parent, dist) /\
    ShortestPath (dijkstraQueue := scanQueue) 5 scenario1 0 3
      = Done (path, d) /\
    d = sel dist 3 /\
    (d = -1 -> path = []) /\
    (d <> -1 -> followParents 5 parent 3 [] = Done (rev path)).
Proof.
  apply (ShortestPath_follows_parents (dijkstraQueue := scanQueue)
           scenario1 0 3 5).
  - exact scenario1_wf.
  - simpl. lia.
  - simpl. lia.
  - apply scenario1_no_overflow.
  - simpl. lia.
Defined.

(* ------------------------------------------------------------------ *)
(** ** A target that is never popped *)

Section NoTarget.

Context {Q : Type} {DQ : DistQueue Q}.

Lemma visit_log_grows (es : list (Z * Z)) :
  forall (p p' : pathFinder Q) (log log' : list event),
  visit_edges es logDo (p, log) = Done (p', log') ->
  exists later, log' = later ++ log.
Proof.
  induction es as [|[x c] es IH]; intros p p' log log' H; simpl in H.
  - inversion H; subst. now exists [].
  - unfold logDo at 1 in H. cbn [fst snd] in H.
    destruct (Do p x c) as [[p1 skip]| |]; cbn [bind] in H; try discriminate.
    destruct skip.
    + inversion H; subst. now exists [EvRelax (v p) x c (dist p')].
    + destruct (IH _ _ _ _ H) as (later & ->).
      exists (later ++ [EvRelax (v p) x c (dist p1)]).
      now rewrite <- app_assoc.
Qed.

Lemma mainLoop_log_grows (g : Iterator) (target : option Z) :
  forall (fuel : nat) (p p' : pathFinder Q) (log log' : list event),
  mainLoop fuel g target p log = Done (p', log') ->
  exists later, log' = later ++ log.
Proof.
  induction fuel as [|fuel IH]; intros p p' log log' H; cbn [mainLoop] in H.
  - destruct (Len (q p) >? 0); [discriminate|].
    inversion H; subst. now exists [].
  - destruct (Len (q p) >? 0); [|inversion H; subst; now exists []].
    destruct (Pop (q p) (dist p)) as [[u q']| |]; cbn [bind] in H;
      try discriminate.
    destruct (match target with Some w => u =? w | None => false end).
    + inversion H; subst. now exists [EvPop u (dist p)].
    + unfold Visit in H.
      destruct (visit_edges (Edges g u) logDo
                  ({| dist := dist p; parent := parent p; q := q'; v := u |},
                   EvPop u (dist p) :: log)) as [[p2 l2]| |] eqn:EV;
        cbn [bind] in H; try discriminate.
      destruct (visit_log_grows _ _ _ _ _ EV) as (l1 & ->).
      destruct (IH _ _ _ _ H) as (l3 & ->).
      exists (l3 ++ l1 ++ [EvPop u (dist p)]).
      now rewrite <- !app_assoc.
Qed.

(** A search for all targets that never pops [w] is also the search for
    [w]. *)
Lemma mainLoop_no_target (g : Iterator) (w : Z) :
  forall (fuel : nat) (p p' : pathFinder Q) (log log' : list event),
  mainLoop fuel g None p log = Done (p', log') -> ~ In w (pops log') ->
  mainLoop fuel g (Some w) p log = Done (p', log').
Proof.
  induction fuel as [|fuel IH]; intros p p' log log' H Hn;
    cbn [mainLoop] in *.
  - destruct (Len (q p) >? 0); auto.
  - destruct (Len (q p) >? 0); auto.
    destruct (Pop (q p) (dist p)) as [[u q']| |]; cbn [bind] in *;
      try discriminate.
    unfold Visit in *.
    destruct (visit_edges (Edges g u) logDo
                ({| dist := dist p; parent := parent p; q := q'; v := u |},
                 EvPop u (dist p) :: log)) as [[p2 l2]| |] eqn:EV;
      cbn [bind] in *; try discriminate.
    destruct (u =? w) eqn:E; [|apply IH; auto].
    exfalso. apply Z.eqb_eq in E. subst u. apply Hn.
    destruct (visit_log_grows _ _ _ _ _ EV) as (l1 & ->).
    destruct (mainLoop_log_grows _ _ _ _ _ _ _ H) as (l3 & ->).
    rewrite !pops_app. apply in_or_app. right. apply in_or_app. right.
    simpl. auto.
Qed.

End NoTarget.

(** X10.  For a target that cannot be reached, the search for one target
    does all the work of [ShortestPaths]: [shortestPathWithQueue] returns
    the very slices that [ShortestPaths] returns. *)
Theorem unreachable_target_searches_all
    {dijkstraQueue : Type} {DQ : DistQueue dijkstraQueue}
    {ZQ : ZeroQueue dijkstraQueue} {L : DistQueueLaws dijkstraQueue}
    {ZL : ZeroQueueLaws dijkstraQueue}
    (g : Iterator) (v0 w : Z) (fuel : nat) :
  wf_graph g -> 0 <= v0 < Order g -> no_overflow g v0 ->
  (Z.to_nat (Order g) <= fuel)%nat -> ~ reachable g v0 w ->
  exists parent dist,
    ShortestPaths fuel g v0 = Done (parent, dist) /\
    shortestPathWithQueue fuel g (zeroQueue : dijkstraQueue) v0 w
      = Done (parent, dist).
Proof.
  intros Hwf Hv0 Hno Hf Hn.
  destruct (@ShortestPaths_ok _ _ _ L ZL g v0 Hwf Hv0 Hno fuel Hf)
    as (p & log & popped & S1 & _ & S3 & [I _] & _ & Hp & _).
  exists (parent p), (dist p). split; auto.
  assert (~ In w (pops log)) as Hout.
  { rewrite Hp. intros Hin.
    destruct (@tree_walk _ _ _ _ _ _ _ I (length popped) w Hin)
      as (l & W & _).
    { pose proof (older_shorter _ _ Hin). lia. }
    apply Hn. exists (rev (w :: l)), (sel (dist p) w).
    now apply rpath_to_path. }
  unfold shortestPathWithQueue, search in *.
  destruct (setup g zeroQueue v0) as [p0| |]; cbn [bind] in *;
    try discriminate.
  rewrite (mainLoop_no_target g w fuel p0 p [] log S1 Hout).
  reflexivity.
Qed.

Lemma unreachable_target_searches_all_witness :
  exists parent dist,
    ShortestPaths (dijkstraQueue := scanQueue) 5 scenario1 0
      = Done (parent, dist) /\
    shortestPathWithQueue 5 scenario1 (zeroQueue : scanQueue) 0 4
      = Done (parent, dist).
Proof.
  apply (unreachable_target_searches_all (dijkstraQueue := scanQueue)
           scenario1 0 4 5).
  - exact scenario1_wf.
  - simpl. lia.
  - apply scenario1_no_overflow.
  - simpl. lia.
  - exact scenario1_unreachable.
Defined.

(* ------------------------------------------------------------------ *)
(** ** Edges of negative cost, all at once *)

Lemma filter_twice {A : Type} (f : A -> bool) (l : list A) :
  filter f (filter f l) = filter f l.
Proof.
  induction l as [|a l IH]; simpl; auto.
  destruct (f a) eqn:E; simpl; rewrite ?E, IH; auto.
Qed.

Lemma search_drop_negative {Q : Type} {DQ : DistQueue Q}
    (fuel : nat) (g : Iterator) (q0 : Q) (target : option Z) (v0 : Z) :
  result_of (search fuel (drop_negative g) q0 target v0)
  = result_of (search fuel g q0 target v0).
Proof.
  unfold search, setup. cbn [Order drop_negative].
  destruct (make_filled (Order g) (-1)) as [d0| |]; cbn [bind]; auto.
  destruct (Push (SetDist q0 d0) d0 v0 0) as [[q2 d1]| |]; cbn [bind]; auto.
  apply mainLoop_same_nonneg.
  intros x. cbn [Edges drop_negative]. apply filter_twice.
Qed.

Lemma ShortestPathWithQueue_result {Q : Type} {DQ : DistQueue Q}
    (fuel : nat) (g : Iterator) (q0 : Q) (v0 w : Z) :
  ShortestPathWithQueue fuel g q0 v0 w
  = (p <- result_of (search fuel g q0 (Some w) v0) ;;
     d <- index (dist p) w ;;
     if d =? -1 then Done ([], d)
     else
       path <- followParents fuel (parent p) w [] ;;
       path' <- swapLoop fuel path 0 (len path - 1) ;;
       Done (path', d)).
Proof.
  unfold ShortestPathWithQueue, shortestPathWithQueue, result_of.
  destruct (search fuel g q0 (Some w) v0) as [[p log]| |]; reflexivity.
Qed.

(** X11.  Edges of negative cost play no part, whatever the queue does:
    on the graph without them, [ShortestPaths] and
    [ShortestPathWithQueue] have the same outcome (the same slices, the
    same path and distance, or the same failure). *)
Theorem negative_edges_play_no_part
    {dijkstraQueue : Type} {DQ : DistQueue dijkstraQueue}
    {ZQ : ZeroQueue dijkstraQueue}
    (g : Iterator) (q0 : dijkstraQueue) (v0 w : Z) (fuel : nat) :
  ShortestPaths fuel (drop_negative g) v0 = ShortestPaths fuel g v0 /\
  ShortestPathWithQueue fuel (drop_negative g) q0 v0 w
  = ShortestPathWithQueue fuel g q0 v0 w.
Proof.
  split.
  - rewrite !ShortestPaths_result. now rewrite search_drop_negative.
  - rewrite !ShortestPathWithQueue_result. now rewrite search_drop_negative.
Qed.

Example scenario4_drop_negative :
  ShortestPath (dijkstraQueue := scanQueue) 10 (drop_negative scenario4) 0 3
  = Done ([0; 2; 1; 3], 3).
Proof. vm_compute. reflexivity. Qed.

(* ------------------------------------------------------------------ *)
(** ** The loop that reverses the path *)

(** X12.  The loop of lines 71 to 73 reverses a slice of any length in
    place, the empty one included: it ends after at most half as many
    rounds as the slice has elements, and element [i] of the result is
    element [len - 1 - i] of the slice it was given. *)
Theorem reversal_loop_reverses (path : list Z) (fuel : nat) :
  (length path <= 2 * fuel)%nat ->
  exists r,
    swapLoop fuel path 0 (len path - 1) = Done r /\
    r = rev path /\ len r = len path /\
    forall i, 0 <= i < len path -> sel r i = sel path (len path - 1 - i).
Proof.
  intros Hf. exists (rev path).
  split; [now apply swapLoop_rev|]. split; auto.
  split; [unfold len; now rewrite length_rev|].
  intros i Hi. unfold sel, len in *.
  rewrite rev_nth by lia. f_equal. lia.
Qed.

Lemma reversal_loop_reverses_witness :
  exists r,
    swapLoop 2 [3; 1; 2; 0] 0 (len [3; 1; 2; 0] - 1) = Done r /\
    r = rev [3; 1; 2; 0] /\ len r = len [3; 1; 2; 0] /\
    forall i, 0 <= i < len [3; 1; 2; 0] ->
              sel r i = sel [3; 1; 2; 0] (len [3; 1; 2; 0] - 1 - i).
Proof.
  apply (reversal_loop_reverses [3; 1; 2; 0] 2). simpl. lia.
Defined.

(* ------------------------------------------------------------------ *)
(** ** The calls of [Do] *)

Section Calls.

Context {Q : Type} {DQ : DistQueue Q}.

(** [Do] never asks [Visit] to stop. *)
Lemma Do_never_skips (p p' : pathFinder Q) (w c : Z) (b : bool) :
  Do p w c = Done (p', b) -> b = false.
Proof.
  unfold Do. destruct (c <? 0); [intros H; inversion H; auto|].
  destruct (index (dist p) (v p)) as [dv| |]; cbn [bind]; try discriminate.
  destruct (index (dist p) w) as [dw| |]; cbn [bind]; try discriminate.
  destruct (dw =? -1).
  - destruct (store (parent p) w (v p)); cbn [bind]; try discriminate.
    destruct (Push (q p) (dist p) w (wrap64 (dv + c))) as [[q' d']| |];
      cbn [bind]; try discriminate.
    intros H; inversion H; auto.
  - destruct (wrap64 (dv + c) <? dw); [|intros H; inversion H; auto].
    destruct (store (parent p) w (v p)); cbn [bind]; try discriminate.
    destruct (Fix (q p) (dist p) w (wrap64 (dv + c))) as [[q' d']| |];
      cbn [bind]; try discriminate.
    intros H; inversion H; auto.
Qed.

Lemma relaxations_app (l1 l2 : list event) :
  relaxations (l1 ++ l2) = relaxations l1 ++ relaxations l2.
Proof.
  induction l1 as [|[u d|u w c d] l1 IH]; simpl; auto. now rewrite IH.
Qed.

Lemma visit_calls (es : list (Z * Z)) :
  forall (p p' : pathFinder Q) (log log' : list event),
  visit_edges es logDo (p, log) = Done (p', log') ->
  relaxations (rev log')
  = relaxations (rev log) ++ map (fun e => (v p, fst e, snd e)) es /\
  pops log' = pops log.
Proof.
  induction es as [|[x c] es IH]; intros p p' log log' H; simpl in H.
  - inversion H; subst. simpl. now rewrite app_nil_r.
  - unfold logDo at 1 in H. cbn [fst snd] in H.
    destruct (Do p x c) as [[p1 skip]| |] eqn:ED; cbn [bind] in H;
      try discriminate.
    pose proof (Do_never_skips _ _ _ _ _ ED). subst skip.
    destruct (IH _ _ _ _ H) as [E1 E2].
    rewrite E1, E2. simpl. rewrite relaxations_app. simpl.
    rewrite (Do_keeps_v _ _ _ _ _ ED), <- app_assoc. auto.
Qed.

Lemma mainLoop_calls (g : Iterator) :
  forall (fuel : nat) (p p' : pathFinder Q) (log log' : list event),
  mainLoop fuel g None p log = Done (p', log') ->
  relaxations (rev log) = flat_map (calls_of g) (rev (pops log)) ->
  relaxations (rev log') = flat_map (calls_of g) (rev (pops log')).
Proof.
  induction fuel as [|fuel IH]; intros p p' log log' H HR;
    cbn [mainLoop] in H.
  - destruct (Len (q p) >? 0); [discriminate|]. inversion H; subst; auto.
  - destruct (Len (q p) >? 0); [|inversion H; subst; auto].
    destruct (Pop (q p) (dist p)) as [[u q']| |]; cbn [bind] in H;
      try discriminate.
    unfold Visit in H.
    destruct (visit_edges (Edges g u) logDo
                ({| dist := dist p; parent := parent p; q := q'; v := u |},
                 EvPop u (dist p) :: log)) as [[p2 l2]| |] eqn:EV;
      cbn [bind] in H; try discriminate.
    apply (IH _ _ _ _ H).
    destruct (visit_calls _ _ _ _ _ EV) as [E1 E2].
    rewrite E1, E2. cbn [v pops rev].
    rewrite relaxations_app, flat_map_app, HR. simpl.
    now rewrite !app_nil_r.
Qed.

End Calls.

(** X13.  In a run of [ShortestPaths] that returns, whatever the queue
    does, [Do] is called for the edges of the popped vertices and for
    nothing else: after each pop once for every edge of the vertex, those
    of negative cost included, in the order of [Visit]. *)
Theorem every_edge_of_a_popped_vertex_is_relaxed
    {dijkstraQueue : Type} {DQ : DistQueue dijkstraQueue}
    {ZQ : ZeroQueue dijkstraQueue}
    (g : Iterator) (v0 : Z) (fuel : nat)
    (parent dist : list Z) (trace : list event) :
  ShortestPaths_log fuel g v0 = Done (parent, dist, trace) ->
  relaxations trace = flat_map (calls_of g) (pops trace).
Proof.
  unfold ShortestPaths_log, search.
  destruct (setup g zeroQueue v0) as [p0| |]; cbn [bind]; try discriminate.
  destruct (mainLoop fuel g None p0 []) as [[p log]| |] eqn:EM;
    cbn [bind]; try discriminate.
  intros H. inversion H; subst. rewrite pops_rev.
  apply (mainLoop_calls g fuel p0 p [] log EM). reflexivity.
Qed.

Lemma every_edge_of_a_popped_vertex_is_relaxed_witness :
  ShortestPaths_log (dijkstraQueue := scanQueue) 5 scenario4 0
  = Done ([-1; 2; 0; 1; -1], [0; 2; 1; 3; -1],
          [EvPop 0 [0; -1; -1; -1; -1];
           EvRelax 0 1 4 [0; 4; -1; -1; -1];
           EvRelax 0 3 (-1) [0; 4; -1; -1; -1];
           EvRelax 0 2 1 [0; 4; 1; -1; -1];
           EvPop 2 [0; 4; 1; -1; -1];
           EvRelax 2 1 1 [0; 2; 1; -1; -1];
           EvPop 1 [0; 2; 1; -1; -1];
           EvRelax 1 3 1 [0; 2; 1; 3; -1];
           EvPop 3 [0; 2; 1; 3; -1]]) /\
  relaxations
    [EvPop 0 [0; -1; -1; -1; -1];
     EvRelax 0 1 4 [0; 4; -1; -1; -1];
     EvRelax 0 3 (-1) [0; 4; -1; -1; -1];
     EvRelax 0 2 1 [0; 4; 1; -1; -1];
     EvPop 2 [0; 4; 1; -1; -1];
     EvRelax 2 1 1 [0; 2; 1; -1; -1];
     EvPop 1 [0; 2; 1; -1; -1];
     EvRelax 1 3 1 [0; 2; 1; 3; -1];
     EvPop 3 [0; 2; 1; 3; -1]]
  = flat_map (calls_of scenario4) [0; 2; 1; 3].
Proof.
  assert (ShortestPaths_log (dijkstraQueue := scanQueue) 5 scenario4 0
          = Done ([-1; 2; 0; 1; -1], [0; 2; 1; 3; -1],
                  [EvPop 0 [0; -1; -1; -1; -1];
                   EvRelax 0 1 4 [0; 4; -1; -1; -1];
                   EvRelax 0 3 (-1) [0; 4; -1; -1; -1];
                   EvRelax 0 2 1 [0; 4; 1; -1; -1];
                   EvPop 2 [0; 4; 1; -1; -1];
                   EvRelax 2 1 1 [0; 2; 1; -1; -1];
                   EvPop 1 [0; 2; 1; -1; -1];
                   EvRelax 1 3 1 [0; 2; 1; 3; -1];
                   EvPop 3 [0; 2; 1; 3; -1]])) as H
    by (vm_compute; reflexivity).
  split; [exact H|].
  exact (every_edge_of_a_popped_vertex_is_relaxed scenario4 0 5 _ _ _ H).
Defined.

(* ------------------------------------------------------------------ *)
(** ** Distances that only improve *)

Lemma improving_step (n : Z) (log : list event) (d d' : list Z) (e : event) :
  improving n log d -> snapshot e = d' ->
  (forall u, 0 <= u < n -> sel d' u = -1 \/ 0 <= sel d' u) ->
  no_worse n d' d ->
  improving n (e :: log) d'.
Proof.
  intros (K1 & K2 & K3) He Hpos Hle.
  assert (forall e0, In e0 (e :: log) -> no_worse n d' (snapshot e0)) as K2'.
  { intros e0 [<-|Hin] u Hu Hd.
    - rewrite He in *. destruct (Hpos u Hu); lia.
    - pose proof (K2 e0 Hin u Hu Hd). assert (sel d u <> -1) by lia.
      pose proof (Hle u Hu H0). lia. }
  split; auto. split; auto.
  intros [|e1 l2] e0 l1 E; [constructor|].
  simpl in E. injection E as E1 E2. subst e1. constructor.
  - rewrite He. apply K2'. right. rewrite E2. apply in_or_app. right.
    now left.
  - eapply K3; eauto.
Qed.

Section Improving.

Context {Q : Type} {DQ : DistQueue Q} {L : DistQueueLaws Q}.
Variable g : Iterator.
Variable v0 : Z.
Hypothesis Hwf : wf_graph g.
Hypothesis Hv0 : 0 <= v0 < Order g.
Hypothesis Hno : no_overflow g v0.

Lemma search_improving (q0 : Q) (target : option Z) (fuel : nat)
    (p : pathFinder Q) (log : list event) :
  elems q0 = [] ->
  search fuel g q0 target v0 = Done (p, log) ->
  improving (Order g) log (dist p).
Proof.
  intros H0 H.
  apply (@search_keeps _ _ L g v0 Hwf Hv0 Hno
           (fun lg d _ => improving (Order g) lg d))
    with (4 := H0) (6 := H).
  - intros lg d par u K _. apply improving_step with (d := d); auto.
    + apply K.
    + intros y Hy Hd. destruct K as (K1 & _). destruct (K1 y Hy); lia.
  - intros lg d par x w c K. apply improving_step with (d := d); auto.
    + apply K.
    + intros y Hy Hd. destruct K as (K1 & _). destruct (K1 y Hy); lia.
  - intros lg x rest d par w c K _ Hd _ _ Hw _ Hc Hdx Hlt.
    pose proof K as (K1 & _).
    assert (forall y, 0 <= y < Order g ->
              (y = w /\ sel (upd d w (sel d x + c)) y = sel d x + c) \/
              (y <> w /\ sel (upd d w (sel d x + c)) y = sel d y)) as Hsel.
    { intros y Hy. destruct (Z.eq_dec y w) as [->|Hne].
      - left. split; auto. apply sel_upd_same. lia.
      - right. split; auto. apply sel_upd_other; lia. }
    apply improving_step with (d := d); auto.
    + intros y Hy. destruct (Hsel y Hy) as [[-> E]|[Hne E]]; rewrite E.
      * right. lia.
      * auto.
    + intros y Hy Hdy. destruct (Hsel y Hy) as [[-> E]|[Hne E]]; rewrite E.
      * lia.
      * destruct (K1 y Hy); lia.
  - split; [|split].
    + intros u Hu. destruct (Z.eq_dec u v0) as [->|Hne].
      * right. rewrite sel_upd_same; [lia|]. rewrite len_repeat; lia.
      * left. rewrite sel_upd_other by lia. apply sel_repeat. auto.
    + intros e [].
    + intros [|e1 l2] e l1 E; discriminate.
Qed.

End Improving.

(** X14.  In a run of [ShortestPaths], the distances only improve: once a
    vertex has a distance, every later event leaves it one that is not
    higher and not negative, and the distance that is returned is not
    higher than any distance the vertex had during the run. *)
Theorem distances_only_improve
    {dijkstraQueue : Type} {DQ : DistQueue dijkstraQueue}
    {ZQ : ZeroQueue dijkstraQueue} {L : DistQueueLaws dijkstraQueue}
    {ZL : ZeroQueueLaws dijkstraQueue}
    (g : Iterator) (v0 : Z) (fuel : nat) :
  wf_graph g -> 0 <= v0 < Order g -> no_overflow g v0 ->
  (Z.to_nat (Order g) <= fuel)%nat ->
  exists parent dist trace,
    ShortestPaths_log fuel g v0 = Done (parent, dist, trace) /\
    forall before e later, trace = before ++ e :: later ->
      Forall (fun e' => no_worse (Order g) (snapshot e') (snapshot e)) later /\
      no_worse (Order g) dist (snapshot e).
Proof.
  intros Hwf Hv0 Hno Hf.
  destruct (@ShortestPaths_ok _ _ _ L ZL g v0 Hwf Hv0 Hno fuel Hf)
    as (p & log & popped & S1 & S2 & _).
  exists (parent p), (dist p), (rev log). split; auto.
  destruct (@search_improving _ _ L g v0 Hwf Hv0 Hno zeroQueue None fuel
              p log zero_empty S1) as (_ & K2 & K3).
  intros before e later E.
  assert (log = rev later ++ e :: rev before) as E'.
  { rewrite <- (rev_involutive log), E, rev_app_distr. simpl.
    now rewrite <- app_assoc. }
  split.
  - rewrite <- (rev_involutive later). apply Forall_rev.
    eapply K3; eauto.
  - apply K2. rewrite E'. apply in_or_app. right. now left.
Qed.

Lemma distances_only_improve_witness :
  exists parent dist trace,
    ShortestPaths_log (dijkstraQueue := scanQueue) 5 scenario1 0
      = Done (parent, dist, trace) /\
    forall before e later, trace = before ++ e :: later ->
      Forall (fun e' => no_worse (Order scenario1) (snapshot e') (snapshot e))
             later /\
      no_worse (Order scenario1) dist (snapshot e).
Proof.
  apply (distances_only_improve (dijkstraQueue := scanQueue) scenario1 0 5).
  - exact scenario1_wf.
  - simpl. lia.
  - apply scenario1_no_overflow.
  - simpl. lia.
Defined.

(* ------------------------------------------------------------------ *)
(** ** Parents are popped first *)

Lemma older_split (l : list Z) (u : Z) :
  In u l -> exists c, l = c ++ u :: older l u.
Proof.
  induction l as [|x l IH]; intros H; [contradiction|]. simpl.
  destruct (x =? u) eqn:E.
  - apply Z.eqb_eq in E. subst x. now exists [].
  - apply Z.eqb_neq in E. destruct H as [H|H]; [contradiction|].
    destruct (IH H) as (c & Hc). exists (x :: c). simpl. now rewrite <- Hc.
Qed.

(** X15.  In a run of [ShortestPaths], the parent of a vertex is popped
    before the vertex: for a vertex [w] with a distance, other than the
    source, [parent[w]] comes before [w] among the popped vertices. *)
Theorem parent_is_popped_first
    {dijkstraQueue : Type} {DQ : DistQueue dijkstraQueue}
    {ZQ : ZeroQueue dijkstraQueue} {L : DistQueueLaws dijkstraQueue}
    {ZL : ZeroQueueLaws dijkstraQueue}
    (g : Iterator) (v0 : Z) (fuel : nat) :
  wf_graph g -> 0 <= v0 < Order g -> no_overflow g v0 ->
  (Z.to_nat (Order g) <= fuel)%nat ->
  exists parent dist trace,
    ShortestPaths_log fuel g v0 = Done (parent, dist, trace) /\
    forall w, 0 <= w < Order g -> w <> v0 -> sel dist w <> -1 ->
      exists a b c, pops trace = a ++ sel parent w :: b ++ w :: c.
Proof.
  intros Hwf Hv0 Hno Hf.
  destruct (@ShortestPaths_final _ _ _ L ZL g v0 Hwf Hv0 Hno fuel Hf)
    as (par & dst & log & popped & S & _ & I & Hp & _ & Hpop).
  exists par, dst, (rev log). split; auto.
  intros w Hw Hne Hd. inv_fields I.
  assert (In w popped) as Hin by (apply (Hpop w Hw); auto).
  destruct (inv_tree0 w (or_introl Hin) Hne) as (c & _ & _ & _ & _ & T).
  specialize (T Hin).
  destruct (older_split popped w Hin) as (l3 & E3).
  destruct (in_split _ _ T) as (l2 & l1 & E2).
  exists (rev l1), (rev l2), (rev l3).
  rewrite pops_rev, Hp, E3, E2, rev_app_distr. simpl.
  rewrite rev_app_distr. simpl. now rewrite <- !app_assoc.
Qed.

Lemma parent_is_popped_first_witness :
  exists parent dist trace,
    ShortestPaths_log (dijkstraQueue := scanQueue) 5 scenario1 0
      = Done (parent, dist, trace) /\
    forall w, 0 <= w < Order scenario1 -> w <> 0 -> sel dist w <> -1 ->
      exists a b c, pops trace = a ++ sel parent w :: b ++ w :: c.
Proof.
  apply (parent_is_popped_first (dijkstraQueue := scanQueue) scenario1 0 5).
  - exact scenario1_wf.
  - simpl. lia.
  - apply scenario1_no_overflow.
  - simpl. lia.
Defined.

(* ------------------------------------------------------------------ *)
(** ** The prefixes of the path *)

(** X16.  Every prefix of the path that [ShortestPath] returns is itself a
    shortest path: the prefix that ends in [x] leads from the source to
    [x], its weight is the [dist[x]] of [ShortestPaths], and no path from
    the source to [x] over edges of non-negative cost weighs less. *)
Theorem prefixes_are_shortest
    {dijkstraQueue : Type} {DQ : DistQueue dijkstraQueue}
    {ZQ : ZeroQueue dijkstraQueue} {L : DistQueueLaws dijkstraQueue}
    {ZL : ZeroQueueLaws dijkstraQueue}
    (g : Iterator) (v0 w : Z) (fuel : nat) :
  wf_graph g -> 0 <= v0 < Order g -> 0 <= w < Order g -> no_overflow g v0 ->
  (Z.to_nat (Order g) <= fuel)%nat ->
  exists parent dist path d,
    ShortestPaths fuel g v0 = Done (parent, dist) /\
    ShortestPath fuel g v0 w = Done (path, d) /\
    forall a x b, path = a ++ x :: b ->
      path_weight g (a ++ [x]) (sel dist x) /\ first_is (a ++ [x]) v0 /\
      forall p' d', path_weight g p' d' -> first_is p' v0 -> last_is p' x ->
                    sel dist x <= d'.
Proof.
  intros Hwf Hv0 Hw Hno Hf.
  destruct (@ShortestPathWithQueue_chain _ _ L g v0 Hwf Hv0 Hno zeroQueue w
              fuel zero_empty Hw Hf)
    as (pt & logt & path & d & T1 & T2 & T3 & T4 & T5).
  destruct (@both_searches _ _ L g v0 Hwf Hv0 Hno zeroQueue w fuel
              zero_empty Hf)
    as (pt' & logt' & pf & logf & B1 & B2 & B3).
  rewrite T1 in B1. inversion B1; subst pt' logt'. clear B1.
  destruct (@ShortestPaths_dist _ _ _ L ZL g v0 Hwf Hv0 Hno fuel Hf)
    as (par & dst & S & HD).
  assert (par = parent pf /\ dst = dist pf) as [-> ->].
  { unfold ShortestPaths, ShortestPaths_log in S. rewrite B2 in S.
    cbn [bind] in S. inversion S. auto. }
  exists (parent pf), (dist pf), path, d.
  split; auto. split; auto.
  intros a x b E.
  destruct T5 as [(_ & -> & _)|(_ & l & -> & C & _ & Hin & Hpre)].
  { destruct a; discriminate. }
  assert (w :: l = rev b ++ x :: rev a) as E'.
  { rewrite <- (rev_involutive (w :: l)), E, rev_app_distr. simpl.
    now rewrite <- app_assoc. }
  pose proof (Hpre _ _ _ E') as R.
  assert (In x (w :: l)) as Hx.
  { rewrite E'. apply in_or_app. right. now left. }
  destruct (B3 x (Hin x Hx)) as [D1 _]. rewrite <- D1 in R.
  destruct (@rpath_to_path g v0 _ _ x R) as (R1 & R2 & R3).
  simpl in R1, R2. rewrite rev_involutive in R1, R2.
  split; auto. split; auto.
  intros p' d' P1 P2 P3.
  assert (0 <= x < Order g) as Hxv.
  { rewrite <- T3. eapply chain_valid; eauto. }
  destruct (path_to_rpath P1 P2 P3) as (l' & R').
  destruct (HD x Hxv) as [[_ N]|(_ & _ & O)]; [|eauto].
  exfalso. apply N. exists p', d'. auto.
Qed.

Lemma prefixes_are_shortest_witness :
  exists parent dist path d,
    ShortestPaths (dijkstraQueue := scanQueue) 5 scenario1 0
      = Done (parent, dist) /\
    ShortestPath (dijkstraQueue := scanQueue) 5 scenario1 0 3
      = Done (path, d) /\
    forall a x b, path = a ++ x :: b ->
      path_weight scenario1 (a ++ [x]) (sel dist x) /\
      first_is (a ++ [x]) 0 /\
      forall p' d', path_weight scenario1 p' d' -> first_is p' 0 ->
                    last_is p' x -> sel dist x <= d'.
Proof.
  apply (prefixes_are_shortest (dijkstraQueue := scanQueue) scenario1 0 3 5).
  - exact scenario1_wf.
  - simpl. lia.
  - simpl. lia.
  - apply scenario1_no_overflow.
  - simpl. lia.
Defined.
